(** * CMakeDoc: the command-line driver [main.py] and the documentation core

    The driver ([main], [document]) is embedded from [src/main.py].  It calls
    Python's [os] and [os.path] (modelled here on POSIX path strings and a
    tree-shaped file system) and the package [cmakedoc.documenter], which is
    described by the specification only. *)

From Stdlib Require Import String Ascii Bool Arith Lia ZArith List Sorted.
Import ListNotations.


(* ================================================================= *)
(** ** Python strings *)

(** A Python [str] is a list of characters; file names and source texts are
    taken to be ASCII. *)
Definition str := list ascii.

Definition lit (s : string) : str := list_ascii_of_string s.

Fixpoint str_eqb (a b : str) : bool :=
  match a, b with
  | [], [] => true
  | x :: a', y :: b' => Ascii.eqb x y && str_eqb a' b'
  | _, _ => false
  end.

(** [s.startswith(p)] *)
Fixpoint startswith (p s : str) : bool :=
  match p, s with
  | [], _ => true
  | x :: p', y :: s' => Ascii.eqb x y && startswith p' s'
  | _ :: _, [] => false
  end.

(** [c.lower()] on one ASCII character. *)
Definition ascii_lower (c : ascii) : ascii :=
  let n := nat_of_ascii c in
  if (65 <=? n) && (n <=? 90) then ascii_of_nat (n + 32) else c.

(** [s.lower()] *)
Definition str_lower (s : str) : str := map ascii_lower s.

(** [s.split(sep)] for a one-character separator: never the empty list. *)
Fixpoint str_split (sep : ascii) (s : str) : list str :=
  match s with
  | [] => [[]]
  | c :: s' =>
      if Ascii.eqb c sep then [] :: str_split sep s'
      else match str_split sep s' with
           | [] => [[c]]
           | w :: ws => (c :: w) :: ws
           end
  end.

(** [sep.join(l)] *)
Fixpoint str_join (sep : str) (l : list str) : str :=
  match l with
  | [] => []
  | x :: l' =>
      match l' with
      | [] => x
      | _ :: _ => x ++ sep ++ str_join sep l'
      end
  end.

(** [l[-1]] of a list of strings ([[]] stands in for the IndexError of an empty
    list, which [str_split] never returns). *)
Definition last_item (l : list str) : str := last l [].

(** [l[:-1]] *)
Definition but_last (l : list str) : list str := removelast l.

(** [s.lstrip(c)], and [s.rstrip(c)] through it. *)
Fixpoint lstrip (c : ascii) (s : str) : str :=
  match s with
  | [] => []
  | x :: s' => if Ascii.eqb x c then lstrip c s' else s
  end.

Definition rstrip (c : ascii) (s : str) : str := rev (lstrip c (rev s)).

(** [s.find(sub)]: the least index at which [sub] occurs in [s]. *)
Fixpoint str_find (sub s : str) : option nat :=
  if startswith sub s then Some 0
  else match s with
       | [] => None
       | _ :: s' => option_map S (str_find sub s')
       end.

(* ================================================================= *)
(** ** [os.path] on POSIX path strings *)

Definition sep : ascii := "/"%char.

Definition isabs (p : str) : bool := startswith [sep] p.

(** [os.path.join(a, b)] *)
Definition os_path_join (a b : str) : str :=
  if startswith [sep] b then b
  else match a with
       | [] => b
       | _ :: _ => if Ascii.eqb (last a sep) sep then a ++ b else a ++ sep :: b
       end.

(** [os.path.join] applied to all the items of a non-empty list. *)
Definition os_path_join_all (l : list str) : str :=
  match l with
  | [] => []
  | a :: l' => fold_left os_path_join l' a
  end.

(** [(p[:i], p[i:])] where [i = p.rfind('/') + 1]. *)
Fixpoint cut_last_sep (p : str) : str * str :=
  match p with
  | [] => ([], [])
  | c :: p' =>
      let (h, t) := cut_last_sep p' in
      match h with
      | [] => if Ascii.eqb c sep then ([c], t) else ([], c :: t)
      | _ :: _ => (c :: h, t)
      end
  end.

Definition all_sep (s : str) : bool := forallb (fun c => Ascii.eqb c sep) s.

(** [os.path.dirname(p)] *)
Definition os_path_dirname (p : str) : str :=
  let head := fst (cut_last_sep p) in
  match head with
  | [] => []
  | _ :: _ => if all_sep head then head else rstrip sep head
  end.

(** [os.path.basename(p)] *)
Definition os_path_basename (p : str) : str := snd (cut_last_sep p).

Definition dot : str := lit ".".
Definition dotdot : str := lit "..".

(** The loop of [os.path.normpath] over the components of the path. *)
Fixpoint norm_comps (initial_slashes : bool) (new_comps : list str)
  (comps : list str) : list str :=
  match comps with
  | [] => new_comps
  | comp :: rest =>
      if str_eqb comp [] || str_eqb comp dot then
        norm_comps initial_slashes new_comps rest
      else if negb (str_eqb comp dotdot)
              || (negb initial_slashes && match new_comps with [] => true | _ => false end)
              || (match new_comps with
                  | [] => false
                  | _ :: _ => str_eqb (last new_comps []) dotdot
                  end)
      then norm_comps initial_slashes (new_comps ++ [comp]) rest
      else norm_comps initial_slashes (removelast new_comps) rest
  end.

(** [os.path.normpath(p)] *)
Definition os_path_normpath (p : str) : str :=
  match p with
  | [] => dot
  | _ :: _ =>
      let initial_slashes :=
        if startswith [sep] p then
          if startswith [sep; sep] p && negb (startswith [sep; sep; sep] p)
          then 2 else 1
        else 0 in
      let comps := norm_comps (negb (initial_slashes =? 0)) [] (str_split sep p) in
      let path := repeat sep initial_slashes ++ str_join [sep] comps in
      match path with
      | [] => dot
      | _ :: _ => path
      end
  end.

(** [os.path.abspath(p)] in the working directory [cwd]. *)
Definition os_path_abspath (cwd p : str) : str :=
  os_path_normpath (if isabs p then p else os_path_join cwd p).

Definition nonempty (s : str) : bool :=
  match s with [] => false | _ :: _ => true end.

(** [[x for x in p.split('/') if x]] *)
Definition components (p : str) : list str := filter nonempty (str_split sep p).

(** [len(os.path.commonprefix([a, b]))] on two lists of components. *)
Fixpoint common_len (a b : list str) : nat :=
  match a, b with
  | x :: a', y :: b' => if str_eqb x y then S (common_len a' b') else 0
  | _, _ => 0
  end.

(** [os.path.relpath(path, start)] for a non-empty [path]. *)
Definition os_path_relpath (cwd path start : str) : str :=
  let start_list := components (os_path_abspath cwd start) in
  let path_list := components (os_path_abspath cwd path) in
  let i := common_len start_list path_list in
  let rel_list := repeat dotdot (length start_list - i) ++ skipn i path_list in
  match rel_list with
  | [] => dot
  | _ :: _ => os_path_join_all rel_list
  end.

(* ================================================================= *)
(** ** The file system *)

(** A directory lists its entries in the order in which [os.scandir] reports
    them; [Special] stands for sockets, FIFOs and device files. *)
#[local] Unset Elimination Schemes.
Inductive node : Type :=
| File (content : str)
| Special
| Dir (entries : list (str * node)).
#[local] Set Elimination Schemes.

(** Induction over a tree, with the hypothesis for every entry of a
    directory. *)
Section node_induction.
Variable P : node -> Prop.
Hypothesis P_File : forall c, P (File c).
Hypothesis P_Special : P Special.
Hypothesis P_Dir : forall es, Forall (fun e => P (snd e)) es -> P (Dir es).

Fixpoint node_induction (n : node) : P n :=
  match n with
  | File c => P_File c
  | Special => P_Special
  | Dir es =>
      P_Dir es
        ((fix all (l : list (str * node)) : Forall (fun e => P (snd e)) l :=
            match l with
            | [] => Forall_nil _
            | e :: l' => Forall_cons e (node_induction (snd e)) (all l')
            end) es)
  end.
End node_induction.

Definition is_dir_node (n : node) : bool :=
  match n with Dir _ => true | _ => false end.

Fixpoint assoc (name : str) (es : list (str * node)) : option node :=
  match es with
  | [] => None
  | (k, v) :: es' => if str_eqb k name then Some v else assoc name es'
  end.

(** Replaces the entry called [name], or adds it at the end. *)
Fixpoint assoc_set (name : str) (new : node) (es : list (str * node))
  : list (str * node) :=
  match es with
  | [] => [(name, new)]
  | (k, v) :: es' =>
      if str_eqb k name then (k, new) :: es' else (k, v) :: assoc_set name new es'
  end.

Fixpoint resolve (n : node) (comps : list str) : option node :=
  match comps with
  | [] => Some n
  | c :: cs =>
      match n with
      | Dir es =>
          match assoc c es with
          | Some child => resolve child cs
          | None => None
          end
      | _ => None
      end
  end.

(** What a system call reports when it cannot do what it is asked. *)
Inductive errno : Type := ENOENT | ENOTDIR | EEXIST.

(** The components that are followed from the root for the path [p] in a
    process whose working directory is [cwd]. *)
Definition path_comps (cwd p : str) : list str :=
  if isabs p then str_split sep p else str_split sep cwd ++ str_split sep p.

(** Path resolution as the kernel does it, one component at a time, from the
    directory at [here] (the names that lead to it from the root).  A
    component is followed in a directory only; the empty component and [.]
    stay where they are, [..] goes to the parent, and the parent of the root
    is the root.  Nothing is normalised beforehand: [a/nosuch/..] fails where
    [a] has no entry [nosuch]. *)
Fixpoint traverse (root : node) (here comps : list str) : errno + list str :=
  match comps with
  | [] => inr here
  | c :: rest =>
      match resolve root here with
      | Some (Dir es) =>
          if str_eqb c [] || str_eqb c dot then traverse root here rest
          else if str_eqb c dotdot then traverse root (removelast here) rest
          else match assoc c es with
               | Some _ => traverse root (here ++ [c]) rest
               | None => inl ENOENT
               end
      | Some _ => inl ENOTDIR
      | None => inl ENOENT
      end
  end.

(** [os.stat(p)]: the node that the path [p] leads to; the empty path leads
    nowhere. *)
Definition lookup (root : node) (cwd p : str) : option node :=
  match p with
  | [] => None
  | _ :: _ =>
      match traverse root [] (path_comps cwd p) with
      | inr there => resolve root there
      | inl _ => None
      end
  end.

(** [os.path.exists(p)] *)
Definition os_path_exists (root : node) (cwd p : str) : bool :=
  match lookup root cwd p with Some _ => true | None => false end.

(** [os.path.isdir(p)] *)
Definition isdir (root : node) (cwd p : str) : bool :=
  match lookup root cwd p with Some (Dir _) => true | _ => false end.

(** [os.path.isfile(p)]: regular files only. *)
Definition isfile (root : node) (cwd p : str) : bool :=
  match lookup root cwd p with Some (File _) => true | _ => false end.

Definition dirnames (es : list (str * node)) : list str :=
  map fst (filter (fun e => is_dir_node (snd e)) es).

Definition nondirnames (es : list (str * node)) : list str :=
  map fst (filter (fun e => negb (is_dir_node (snd e))) es).

(** [os.walk(top)], top-down: the triple of [top], then the walks of its
    sub-directories in order.  A [top] that cannot be listed yields nothing. *)
Fixpoint walk (top : str) (n : node) : list (str * list str * list str) :=
  match n with
  | Dir es =>
      (top, dirnames es, nondirnames es)
        :: (fix walk_entries (l : list (str * node)) :=
              match l with
              | [] => []
              | (name, child) :: l' =>
                  walk (os_path_join top name) child ++ walk_entries l'
              end) es
  | _ => []
  end.

Definition os_walk (root : node) (cwd top : str)
  : list (str * list str * list str) :=
  match lookup root cwd top with
  | Some n => walk top n
  | None => []
  end.

(** The directory that is to hold the last component of the path [p]: the
    names that lead to it, its entries, and that component. *)
Definition entry_place (root : node) (cwd p : str)
  : errno + (list str * list (str * node) * str) :=
  let comps := path_comps cwd p in
  match traverse root [] (removelast comps) with
  | inl e => inl e
  | inr here =>
      match resolve root here with
      | Some (Dir es) => inr (here, es, last comps [])
      | Some _ => inl ENOTDIR
      | None => inl ENOENT
      end
  end.

(** Removes the entry called [name]. *)
Fixpoint assoc_remove (name : str) (es : list (str * node)) : list (str * node) :=
  match es with
  | [] => []
  | (k, v) :: es' =>
      if str_eqb k name then es' else (k, v) :: assoc_remove name es'
  end.

(** The tree in which the entries of the directory at [here] are changed by
    [f]. *)
Fixpoint update_dir (here : list str)
  (f : list (str * node) -> list (str * node)) (n : node) : node :=
  match n with
  | Dir es =>
      match here with
      | [] => Dir (f es)
      | h :: here' =>
          match assoc h es with
          | Some child => Dir (assoc_set h (update_dir here' f child) es)
          | None => n
          end
      end
  | _ => n
  end.

(** The tree in which the directories along [comps] exist, each missing one
    added as the last entry of its parent: what [os.makedirs] leaves for the
    path of these names.  [None] when something on the way is not a
    directory. *)
Fixpoint mkdirs (comps : list str) (n : node) : option node :=
  match n with
  | Dir es =>
      match comps with
      | [] => Some n
      | c :: cs =>
          match mkdirs cs (match assoc c es with
                           | Some child => child
                           | None => Dir []
                           end) with
          | Some child' => Some (Dir (assoc_set c child' es))
          | None => None
          end
      end
  | _ => None
  end.

(** Nothing on the way is something else than a directory. *)
Fixpoint unobstructed (n : node) (cs : list str) : bool :=
  match n with
  | Dir es =>
      match cs with
      | [] => true
      | c :: cs' =>
          match assoc c es with
          | Some child => unobstructed child cs'
          | None => true
          end
      end
  | _ => false
  end.

(* ================================================================= *)
(** ** The interpreter state and its monad *)

Record World : Type := mkWorld {
  fs : node;
  cwd : str;
  stdout : list str;
  stderr : list str
}.

(** [OSError] stands for an [OSError] of no particular kind; the three that
    follow are the subclasses of it that [os.mkdir] raises, with the path
    that was given to the call. *)
Inductive exn : Type :=
| OSError (path : str)
| FileNotFoundError (path : str)
| FileExistsError (path : str)
| NotADirectoryError (path : str)
| Exception (msg : str).

Definition os_error (e : errno) (path : str) : exn :=
  match e with
  | ENOENT => FileNotFoundError path
  | ENOTDIR => NotADirectoryError path
  | EEXIST => FileExistsError path
  end.

Definition is_OSError (e : exn) : bool :=
  match e with Exception _ => false | _ => true end.

Definition is_FileExistsError (e : exn) : bool :=
  match e with FileExistsError _ => true | _ => false end.

(** How a call ends: it returns, [exit(status)] is under way, or an exception
    propagates. *)
Inductive outcome (A : Type) : Type :=
| Ret (a : A)
| Exit (status : Z)
| Raise (e : exn).

Arguments Ret {A} a.
Arguments Exit {A} status.
Arguments Raise {A} e.

Definition M (A : Type) : Type := World -> outcome A * World.

Definition ret {A} (a : A) : M A := fun w => (Ret a, w).

Definition bind {A B} (c : M A) (k : A -> M B) : M B :=
  fun w =>
    match c w with
    | (Ret a, w') => k a w'
    | (Exit s, w') => (Exit s, w')
    | (Raise e, w') => (Raise e, w')
    end.

Notation "x <- c ;; k" := (bind c (fun x => k))
  (at level 61, c at next level, right associativity).
Notation "c ;; k" := (bind c (fun _ => k))
  (at level 61, right associativity).

Definition exit {A} (status : Z) : M A := fun w => (Exit status, w).
Definition raise {A} (e : exn) : M A := fun w => (Raise e, w).

(** [print(s)] *)
Definition print (s : str) : M unit :=
  fun w => (Ret tt, mkWorld (fs w) (cwd w) (stdout w ++ [s]) (stderr w)).

(** [print(s, file=sys.stderr)] *)
Definition eprint (s : str) : M unit :=
  fun w => (Ret tt, mkWorld (fs w) (cwd w) (stdout w) (stderr w ++ [s])).

Definition abspath (p : str) : M str := fun w => (Ret (os_path_abspath (cwd w) p), w).
Definition relpath (p start : str) : M str :=
  fun w => (Ret (os_path_relpath (cwd w) p start), w).
Definition path_isdir (p : str) : M bool :=
  fun w => (Ret (isdir (fs w) (cwd w) p), w).
Definition path_isfile (p : str) : M bool :=
  fun w => (Ret (isfile (fs w) (cwd w) p), w).
Definition walk_all (top : str) : M (list (str * list str * list str)) :=
  fun w => (Ret (os_walk (fs w) (cwd w) top), w).

Definition path_exists (p : str) : M bool :=
  fun w => (Ret (os_path_exists (fs w) (cwd w) p), w).

(** [try: c / except E: h], where [handles] tells the exceptions of [E]. *)
Definition try_catch {A} (c : M A) (handles : exn -> bool) (h : exn -> M A)
  : M A :=
  fun w =>
    match c w with
    | (Raise e, w') => if handles e then h e w' else (Raise e, w')
    | r => r
    end.

Definition set_fs (root : node) (w : World) : World :=
  mkWorld root (cwd w) (stdout w) (stderr w).

(** [os.mkdir(name)]: one directory is made, in a directory that exists.
    Slashes at the end of [name] are ignored; [.] and [..] as last component
    name a directory that exists. *)
Definition os_mkdir (name : str) : M unit :=
  fun w =>
    if nonempty name then
      let p := rstrip sep name in
      if nonempty p then
        match entry_place (fs w) (cwd w) p with
        | inl e => (Raise (os_error e name), w)
        | inr (here, es, c) =>
            if str_eqb c dot || str_eqb c dotdot
            then (Raise (FileExistsError name), w)
            else match assoc c es with
                 | Some _ => (Raise (FileExistsError name), w)
                 | None =>
                     (Ret tt,
                      set_fs (update_dir here (assoc_set c (Dir [])) (fs w)) w)
                 end
        end
      else (Raise (FileExistsError name), w)
    else (Raise (FileNotFoundError name), w).

(** [os.path.split(p)] *)
Definition os_path_split (p : str) : str * str :=
  (os_path_dirname p, os_path_basename p).

(** [os.makedirs(name, exist_ok=True)], as the standard library has it: the
    parent is made first, by a recursive call, when it does not exist; then
    [os.mkdir(name)], whose [OSError] is passed over when [name] is a
    directory.  The call recurses on a strictly shorter path, so [fuel]
    beyond the length of [name] is never used up (lemma
    [makedirs_fuel_enough]). *)
Fixpoint makedirs_fuel (fuel : nat) (name : str) : M unit :=
  match fuel with
  | 0 => raise (Exception (lit "RecursionError"))
  | S fuel' =>
      let (head, tail) := os_path_split name in
      let (head, tail) :=
        if nonempty tail then (head, tail) else os_path_split head in
      returned <-
        (if nonempty head && nonempty tail then
           e <- path_exists head ;;
           if e then ret false
           else
             try_catch (makedirs_fuel fuel' head) is_FileExistsError
               (fun _ => ret tt) ;;
             ret (str_eqb tail dot)
         else ret false) ;;
      if returned then ret tt
      else
        try_catch (os_mkdir name) is_OSError
          (fun e => d <- path_isdir name ;; if d then ret tt else raise e)
  end.

Definition os_makedirs (name : str) : M unit :=
  makedirs_fuel (S (length name)) name.

(** A [for] loop whose body may exit or raise. *)
Fixpoint for_each {A} (l : list A) (body : A -> M unit) : M unit :=
  match l with
  | [] => ret tt
  | x :: l' => body x ;; for_each l' body
  end.

(** The status with which the interpreter ends after [main()]. *)
Definition exit_status {A} (o : outcome A) : Z :=
  match o with
  | Ret _ => 0
  | Exit s => s
  | Raise _ => 1
  end.

(* ================================================================= *)
(** ** [main.py] *)

(** What [main.py] uses of [cmakedoc.documenter]: [process] is
    [Documenter(file, header_name).process()], [to_str] is [str(output_writer)]
    and [write_to_file] is [output_writer.write_to_file(path)]. *)
Class DocumenterAPI : Type := {
  RenderedOutput : Type;
  process : str -> str -> M RenderedOutput;
  to_str : RenderedOutput -> str;
  write_to_file : RenderedOutput -> str -> M unit
}.

(** ["cmake" == file.split(".")[-1].lower()] *)
Definition is_cmake (file : str) : bool :=
  str_eqb (lit "cmake") (str_lower (last_item (str_split "."%char file))).

(** [".".join(os.path.basename(file).split(".")[:-1]) + ".rst"] *)
Definition rst_name (file : str) : str :=
  str_join (lit ".") (but_last (str_split "."%char (os_path_basename file)))
    ++ lit ".rst".

(** The loop over [os.walk(input_path)], with its [break]. *)
Fixpoint collect (recursive : bool) (triples : list (str * list str * list str))
  : list str :=
  match triples with
  | [] => []
  | (root, _, filenames) :: rest =>
      map (os_path_join root) (filter is_cmake filenames)
        ++ (if recursive then collect recursive rest else [])
  end.

Definition files_of (t : str * list str * list str) : list str :=
  let '(root, _, filenames) := t in
  map (os_path_join root) (filter is_cmake filenames).

Section Driver.
Context {D : DocumenterAPI}.

(** The body of the loop [for file in files] of [document]. *)
Definition document_file (input_path : str) (output_path : option str)
  (file : str) : M unit :=
  d <- path_isdir input_path ;;
  header_name <- (if d then relpath file input_path else ret file) ;;
  output_writer <- process file header_name ;;
  match output_path with
  | Some output_path =>
      print (lit "Writing for file " ++ file) ;;
      o <- path_isdir output_path ;;
      if o then
        let output_filename := os_path_join output_path (rst_name file) in
        d' <- path_isdir input_path ;;
        output_filename <-
          (if d' then
             subpath <- relpath file input_path ;;
             ret (os_path_join output_path
                    (os_path_join (os_path_dirname subpath) (rst_name file)))
           else ret output_filename) ;;
        print (lit "Writing RST file " ++ output_filename) ;;
        os_makedirs (os_path_dirname output_filename) ;;
        write_to_file output_writer output_filename
      else ret tt
  | None =>
      print (to_str output_writer) ;;
      print []
  end.

(** The list [files] that [document] builds first. *)
Definition select_files (input_path : str) (recursive : bool) : M (list str) :=
  d <- path_isdir input_path ;;
  if d then
    triples <- walk_all input_path ;;
    ret (collect recursive triples)
  else
    f <- path_isfile input_path ;;
    if f then ret [input_path]
    else
      eprint (lit "File is a special file (socket, FIFO, device file) and is unsupported") ;;
      exit 1%Z.

Definition document (file : str) (output_path : option str) (recursive : bool)
  : M unit :=
  input_path <- abspath file ;;
  files <- select_files input_path recursive ;;
  for_each files (document_file input_path output_path).

(** The namespace that [argparse] returns: [file] has one item at least. *)
Record Args : Type := mkArgs {
  arg_file : list str;
  arg_output : option str;
  arg_recursive : bool
}.

Definition main (args : Args) : M unit :=
  output_path <-
    match arg_output args with
    | Some o =>
        p <- abspath o ;;
        print (lit "Writing RST files to " ++ p) ;;
        ret (Some p)
    | None => ret None
    end ;;
  for_each (arg_file args)
    (fun input => document input output_path (arg_recursive args)).
End Driver.

(** The world in which the loop of [main] starts. *)
Definition announce (output : option str) (w : World) : World :=
  match output with
  | Some o =>
      mkWorld (fs w) (cwd w)
        (stdout w ++ [lit "Writing RST files to " ++ os_path_abspath (cwd w) o])
        (stderr w)
  | None => w
  end.

Definition output_path_of (output : option str) (w : World) : option str :=
  option_map (os_path_abspath (cwd w)) output.

(** Every input of the list is documented without failure, one after the
    other. *)
Inductive all_succeed {D : DocumenterAPI} (op : option str) (recursive : bool)
  : list str -> World -> World -> Prop :=
| succeed_nil (w : World) : all_succeed op recursive [] w w
| succeed_cons (f : str) (l : list str) (w w1 w2 : World) :
    document f op recursive w = (Ret tt, w1) ->
    all_succeed op recursive l w1 w2 ->
    all_succeed op recursive (f :: l) w w2.

(* ================================================================= *)
(** ** The documentation core ([cmakedoc.documenter])

    The package is not part of the sources at hand: every definition of this
    part follows the specification. *)

Definition newline : ascii := "010"%char.

Definition is_ws (c : ascii) : bool :=
  Ascii.eqb c " "%char || Ascii.eqb c "009"%char
  || Ascii.eqb c newline || Ascii.eqb c "013"%char.

Definition is_blank (l : str) : bool := forallb is_ws l.

Fixpoint drop_ws (s : str) : str :=
  match s with
  | [] => []
  | c :: s' => if is_ws c then drop_ws s' else s
  end.

(** The longest prefix of [s] whose characters satisfy [f], and the rest. *)
Fixpoint span (f : ascii -> bool) (s : str) : str * str :=
  match s with
  | [] => ([], [])
  | c :: s' => if f c then let (a, b) := span f s' in (c :: a, b) else ([], s)
  end.

Definition ident_char (c : ascii) : bool :=
  let n := nat_of_ascii c in
  ((65 <=? n) && (n <=? 90)) || ((97 <=? n) && (n <=? 122))
  || ((48 <=? n) && (n <=? 57)) || (n =? 95).

(** *** Block Scanner *)

(** Modelled from the spec: the block delimiters of section 6, a
    three-bracket-opening start marker and a double-bracket-closing end
    marker (spelled as the docstring of [main.py] spells them). *)
Definition START : str := lit "#[[[".
Definition END : str := lit "#]]".

(** Modelled from the spec: the RawBlock of section 3; the offsets are the
    positions of the two delimiters in the source text. *)
Record RawBlock : Type := mkRawBlock {
  start_offset : nat;
  end_offset : nat;
  raw_text : str
}.

(** Modelled from the spec: the warnings of section 7. *)
Inductive Warning : Type :=
| MalformedBlock (offset : nat)
| UnterminatedDeclaration (offset : nat).

(** Modelled from the spec: the Block Scanner of section 4.1 on the text [s]
    that starts at offset [pos].  It looks for the next start marker, then for
    the first end marker after it (so a start marker inside a block is
    content), yields the block and resumes right after the end marker; a start
    marker without end marker yields no block and a warning. *)
Fixpoint scan_from (fuel pos : nat) (s : str) : list RawBlock * list Warning :=
  match fuel with
  | 0 => ([], [])
  | S fuel' =>
      match str_find START s with
      | None => ([], [])
      | Some i =>
          let body := skipn (i + length START) s in
          match str_find END body with
          | None => ([], [MalformedBlock (pos + i)])
          | Some j =>
              let e := pos + i + length START + j in
              let (bs, ws) :=
                scan_from fuel' (e + length END) (skipn (j + length END) body) in
              (mkRawBlock (pos + i) e (firstn j body) :: bs, ws)
          end
      end
  end.

Definition scan (src : str) : list RawBlock * list Warning :=
  scan_from (S (length src)) 0 src.

(** Modelled from the spec: a line of a block that starts with the comment
    marker loses the marker and one following space (section 4.1). *)
Definition uncomment_line (l : str) : str :=
  match l with
  | c :: l' =>
      if Ascii.eqb c "#"%char then
        match l' with
        | c' :: l'' => if Ascii.eqb c' " "%char then l'' else l'
        | [] => []
        end
      else l
  | [] => []
  end.

Definition uncomment (text : str) : str :=
  str_join [newline] (map uncomment_line (str_split newline text)).

(** *** Tag Parser *)

(** Modelled from the spec: FieldTag and DocBlock of section 3. *)
Record FieldTag : Type := mkFieldTag {
  tag_name : str;
  payload : str
}.

Record DocBlock : Type := mkDocBlock {
  description : str;
  fields : list FieldTag;
  source_span : nat * nat
}.

(** Modelled from the spec: the recognized markers (section 6), each with the
    name of its tag.  The parameter marker is spelled as in the fixture of
    section 8; the spelling of the return-value marker is this model's. *)
Definition markers : list (str * str) :=
  [(lit ":param", lit "param"); (lit ":returns", lit "returns")].

(** Modelled from the spec: a field tag line is a recognized marker followed
    by an identifier and a colon (section 4.2).  The result is the tag's name
    and the text of the line from the identifier on, which is where the
    fixture of section 8 has the payload begin. *)
Fixpoint tag_line_in (table : list (str * str)) (line : str) : option (str * str) :=
  match table with
  | [] => None
  | (marker, name) :: table' =>
      if startswith (marker ++ lit " ") line then
        let rest := skipn (length marker + 1) line in
        match span ident_char rest with
        | (_ :: _, c :: _) =>
            if Ascii.eqb c ":"%char then Some (name, rest)
            else tag_line_in table' line
        | _ => tag_line_in table' line
        end
      else tag_line_in table' line
  end.

Definition tag_line (line : str) : option (str * str) := tag_line_in markers line.

Definition close_tag (cur : option (FieldTag * bool)) : list FieldTag :=
  match cur with
  | Some (f, _) => [f]
  | None => []
  end.

(** Modelled from the spec: the payload of a tag runs to the next tag line or
    the end of the block, its lines joined with one space; a blank line ends
    it (section 4.2).  [cur] is the tag being read and whether its payload is
    still open. *)
Fixpoint parse_fields (lines : list str) (cur : option (FieldTag * bool))
  : list FieldTag :=
  match lines with
  | [] => close_tag cur
  | l :: rest =>
      match tag_line l with
      | Some (name, p) =>
          close_tag cur ++ parse_fields rest (Some (mkFieldTag name p, true))
      | None =>
          match cur with
          | Some (f, true) =>
              if is_blank l then parse_fields rest (Some (f, false))
              else parse_fields rest
                     (Some (mkFieldTag (tag_name f) (payload f ++ lit " " ++ l), true))
          | _ => parse_fields rest cur
          end
      end
  end.

(** The lines before the first tag line, and the lines from it on. *)
Fixpoint split_at_tag (lines : list str) : list str * list str :=
  match lines with
  | [] => ([], [])
  | l :: rest =>
      match tag_line l with
      | Some _ => ([], lines)
      | None => let (d, t) := split_at_tag rest in (l :: d, t)
      end
  end.

(** Modelled from the spec: the Tag Parser of section 4.2.  The text before
    the first tag line is the description; lines that only look like a tag
    stay in it. *)
Definition parse_block (text : str) (span_ : nat * nat) : DocBlock :=
  let (d, t) := split_at_tag (str_split newline text) in
  mkDocBlock (str_join [newline] d) (parse_fields t None) span_.

(** Modelled from the spec: an entirely empty block is dropped (section 3). *)
Definition empty_block (b : DocBlock) : bool :=
  negb (nonempty (description b)) && match fields b with [] => true | _ => false end.

(** *** Construct Associator *)

(** Modelled from the spec: ConstructSignature and its kinds (section 3). *)
Inductive Kind : Type := FUNCTION | MACRO | VARIABLE | NONE.

Record ConstructSignature : Type := mkSignature {
  kind : Kind;
  name : str;
  parameters : list str
}.

Definition no_signature : ConstructSignature := mkSignature NONE [] [].

(** An ordinary comment line: it starts with the comment marker and does not
    open a block. *)
Definition is_comment (l : str) : bool :=
  let l' := drop_ws l in
  startswith (lit "#") l' && negb (startswith START l').

Fixpoint skip_lines (lines : list str) : list str :=
  match lines with
  | [] => []
  | l :: rest => if is_blank l || is_comment l then skip_lines rest else lines
  end.

(** The words of an argument list, separated by white space. *)
Fixpoint words_from (s : str) (cur : str) : list str :=
  match s with
  | [] => match cur with [] => [] | _ :: _ => [rev cur] end
  | c :: s' =>
      if is_ws c then
        match cur with
        | [] => words_from s' []
        | _ :: _ => rev cur :: words_from s' []
        end
      else words_from s' (c :: cur)
  end.

Definition words (s : str) : list str := words_from s [].

(** Modelled from the spec: the closed set of declaration shapes
    (section 4.3): a keyword decides the kind. *)
Definition keyword_kind (kw : str) : Kind :=
  if str_eqb kw (lit "function") then FUNCTION
  else if str_eqb kw (lit "macro") then MACRO
  else if str_eqb kw (lit "set") then VARIABLE
  else NONE.

(** Modelled from the spec: signature extraction (section 4.3) from a
    declaration whose lines have been joined: the keyword decides the kind and
    the parenthesized list gives the name and the parameters; a list that is
    not closed gives kind NONE and a warning. *)
Definition signature_of (pos : nat) (decl : str) : ConstructSignature * list Warning :=
  let (kw, after) := span ident_char decl in
  match keyword_kind kw, drop_ws after with
  | NONE, _ => (no_signature, [])
  | k, c :: args =>
      if Ascii.eqb c "("%char then
        match str_find (lit ")") args with
        | None => (no_signature, [UnterminatedDeclaration pos])
        | Some n =>
            match words (firstn n args) with
            | [] => (no_signature, [])
            | nm :: ps =>
                (mkSignature k nm (match k with VARIABLE => [] | _ => ps end), [])
            end
        end
      else (no_signature, [])
  | _, [] => (no_signature, [])
  end.

(** Modelled from the spec: the Construct Associator of section 4.3 on the
    text after a block's end marker, which starts at offset [pos].  Blank
    lines and ordinary comments are skipped and the lines of the declaration
    are joined. *)
Definition associate (pos : nat) (rest : str) : ConstructSignature * list Warning :=
  signature_of pos
    (drop_ws (str_join [newline] (skip_lines (str_split newline rest)))).

(** *** Documentation Model *)

(** Modelled from the spec: DocEntry and DocumentModel (section 3). *)
Record DocEntry : Type := mkDocEntry {
  doc_block : DocBlock;
  signature : ConstructSignature
}.

Record DocumentModel : Type := mkDocumentModel {
  source_identifier : str;
  header_display_name : str;
  entries : list DocEntry
}.

(** Modelled from the spec: one pass over the blocks of the Scanner, in
    order (sections 2 and 3): each block is parsed and, unless empty, bound
    to the construct that follows it. *)
Fixpoint bind_blocks (src : str) (blocks : list RawBlock)
  : list DocEntry * list Warning :=
  match blocks with
  | [] => ([], [])
  | b :: blocks' =>
      let d := parse_block (uncomment (raw_text b)) (start_offset b, end_offset b) in
      let (es, ws) := bind_blocks src blocks' in
      if empty_block d then (es, ws)
      else
        let after := end_offset b + length END in
        let (sg, w) := associate after (skipn after src) in
        (mkDocEntry d sg :: es, w ++ ws)
  end.

Definition build_model (source_id header : str) (src : str)
  : DocumentModel * list Warning :=
  let (blocks, w1) := scan src in
  let (es, w2) := bind_blocks src blocks in
  (mkDocumentModel source_id header es, w1 ++ w2).

(** *** Renderer *)

(** Modelled from the spec: the fixed templates of section 4.4, which the
    specification names without spelling them out: the title made from the
    display name, the directive header of each construct kind, and the field
    list entry of a field kind and its payload. *)
Class Templates : Type := {
  title_template : str -> str;
  directive_template : Kind -> str;
  field_template : str -> str -> str
}.

(** Modelled from the spec: the markup field mapping of section 6. *)
Definition field_kinds : list (str * str) :=
  [(lit "param", lit "param"); (lit "returns", lit "returns")].

Fixpoint field_kind_in (table : list (str * str)) (tag : str) : str :=
  match table with
  | [] => tag
  | (t, k) :: table' => if str_eqb t tag then k else field_kind_in table' tag
  end.

Definition field_kind (tag : str) : str := field_kind_in field_kinds tag.

(** [name(p1 p2 ...)]: the call-style heading. *)
Definition heading (sg : ConstructSignature) : str :=
  name sg ++ lit "(" ++ str_join (lit " ") (parameters sg) ++ lit ")".

(** Modelled from the spec: RenderedOutput (section 3), a text value. *)
Record Rendered : Type := mkRendered { text : str }.

Section Renderer.
Context {T : Templates}.

Definition render_field (f : FieldTag) : str :=
  field_template (field_kind (tag_name f)) (payload f).

(** Modelled from the spec: the section of one entry (section 4.4):
    directive header, heading, description paragraph, field list. *)
Definition render_entry (e : DocEntry) : str :=
  directive_template (kind (signature e))
    ++ heading (signature e) ++ [newline]
    ++ description (doc_block e) ++ [newline]
    ++ concat (map render_field (fields (doc_block e))).

(** Modelled from the spec: the Renderer of section 4.4: the title, then
    the entries in model order. *)
Definition render (m : DocumentModel) : Rendered :=
  mkRendered (title_template (header_display_name m)
                ++ concat (map render_entry (entries m))).
End Renderer.

(** *** Persistence and the Documenter *)

(** Modelled from the spec: the temp location of the scoped write (section
    4.4: to a temp location then move).  It lies in the directory of the
    destination, under the first of [name.tmp], [name.tmp~], [name.tmp~~],
    ... that no entry of the directory bears. *)
Definition tmp_candidate (name : str) (k : nat) : str :=
  name ++ lit ".tmp" ++ repeat "~"%char k.

Fixpoint first_free (names : list str) (name : str) (k fuel : nat) : str :=
  match fuel with
  | 0 => tmp_candidate name k
  | S fuel' =>
      if existsb (str_eqb (tmp_candidate name k)) names
      then first_free names name (S k) fuel'
      else tmp_candidate name k
  end.

Definition tmp_name (es : list (str * node)) (name : str) : str :=
  first_free (map fst es) name 0 (length es).

(** Modelled from the spec: one more character at the end of the file
    [name]. *)
Definition append_char (name : str) (ch : ascii) (es : list (str * node))
  : list (str * node) :=
  match assoc name es with
  | Some (File s) => assoc_set name (File (s ++ [ch])) es
  | _ => es
  end.

(** Modelled from the spec: the text goes to the file [name] of the
    directory at [here] character by character, as long as the device has
    room for one more ([None]: room without limit).  The flag tells whether
    all of it was written; if not, the file holds a part of the text. *)
Fixpoint write_chars (room : option nat) (here : list str) (name : str)
  (s : str) (root : node) : bool * node :=
  match s with
  | [] => (true, root)
  | ch :: s' =>
      match room with
      | Some 0 => (false, root)
      | _ =>
          write_chars (option_map pred room) here name s'
            (update_dir here (append_char name ch) root)
      end
  end.

(** Modelled from the spec: the move, within one directory and in one step:
    the entry [src] takes the name [dst] and replaces what bore it, unless
    that is a directory. *)
Definition rename_entry (src dst : str) (es : list (str * node))
  : option (list (str * node)) :=
  match assoc src es, assoc dst es with
  | Some _, Some (Dir _) => None
  | Some v, _ => Some (assoc_remove src (assoc_set dst v es))
  | None, _ => None
  end.

Definition move (here : list str) (src dst : str) (root : node) : option node :=
  match resolve root here with
  | Some (Dir es) =>
      match rename_entry src dst es with
      | Some es' => Some (update_dir here (fun _ => es') root)
      | None => None
      end
  | _ => None
  end.

(** Modelled from the spec: the scoped write of RenderedOutput (sections 4.4
    and 6) on a device with the given room: the temp file is created in the
    directory of the destination, the text is written to it, and the temp
    file is moved to the destination.  When the text cannot be written in
    full or cannot be moved, the temp file is removed and the failure
    surfaced as an [OSError]. *)
Definition persist_within (room : option nat) (r : Rendered) (path : str)
  : M unit :=
  fun w =>
    match entry_place (fs w) (cwd w) path with
    | inr (here, es, name) =>
        if nonempty name && negb (str_eqb name dot) && negb (str_eqb name dotdot)
        then
          let tmp := tmp_name es name in
          let root1 := update_dir here (assoc_set tmp (File [])) (fs w) in
          let (complete, root2) := write_chars room here tmp (text r) root1 in
          match (if complete then move here tmp name root2 else None) with
          | Some root3 => (Ret tt, set_fs root3 w)
          | None =>
              (Raise (OSError path),
               set_fs (update_dir here (assoc_remove tmp) root2) w)
          end
        else (Raise (OSError path), w)
    | inl _ => (Raise (OSError path), w)
    end.

(** The scoped write when the device does not run out of room. *)
Definition persist (r : Rendered) (path : str) : M unit :=
  persist_within None r path.

Definition warning_text (x : Warning) : str :=
  match x with
  | MalformedBlock _ => lit "warning: unterminated documentation block"
  | UnterminatedDeclaration _ => lit "warning: unterminated declaration"
  end.

(** Modelled from the spec: [Documenter(file, header_name).process()], which
    reads the source text of [file], runs the pipeline of section 2 and
    surfaces the warnings. *)
Definition run_pipeline {T : Templates} (file header_name : str) : M Rendered :=
  fun w =>
    match lookup (fs w) (cwd w) file with
    | Some (File src) =>
        let (m, ws) := build_model file header_name src in
        (Ret (render m),
         mkWorld (fs w) (cwd w) (stdout w) (stderr w ++ map warning_text ws))
    | _ => (Raise (OSError file), w)
    end.

#[export] Instance core_documenter {T : Templates} : DocumenterAPI := {
  RenderedOutput := Rendered;
  process := run_pipeline;
  to_str := text;
  write_to_file := persist
}.

(** Templates in the style of Sphinx, for running the model. *)
Definition underline (s : str) : str := repeat "#"%char (length s).

#[export] Instance sphinx_templates : Templates := {
  title_template h := underline h ++ [newline] ++ h ++ [newline] ++ underline h ++ [newline];
  directive_template k :=
    match k with
    | FUNCTION => lit ".. function:: "
    | MACRO => lit ".. macro:: "
    | VARIABLE => lit ".. data:: "
    | NONE => lit ".. note:: "
    end;
  field_template k p := lit "   :" ++ k ++ lit " " ++ p ++ [newline]
}.

(* ================================================================= *)
(** ** Vocabulary of the statements *)

(** A name that a directory entry can bear. *)
Definition cleanb (c : str) : bool :=
  nonempty c && negb (existsb (fun x => Ascii.eqb x sep) c)
  && negb (str_eqb c dot) && negb (str_eqb c dotdot).

Definition clean (c : str) : Prop := cleanb c = true.

(** The absolute, normalised path with the components [cs], and the relative
    one. *)
Definition abs_path (cs : list str) : str := sep :: str_join [sep] cs.
Definition rel_path (cs : list str) : str := str_join [sep] cs.

Fixpoint nodupb (l : list str) : bool :=
  match l with
  | [] => true
  | x :: l' => negb (existsb (str_eqb x) l') && nodupb l'
  end.

(** A tree as a file system holds it: in each directory the names are
    entry names and differ from one another. *)
Fixpoint wf_node (n : node) : bool :=
  match n with
  | Dir es =>
      nodupb (map fst es)
      && (fix wf_entries (l : list (str * node)) : bool :=
            match l with
            | [] => true
            | (k, v) :: l' => cleanb k && wf_node v && wf_entries l'
            end) es
  | _ => true
  end.

(** [sub] occurs in [s]. *)
Definition contains (sub s : str) : Prop := exists a b, s = a ++ sub ++ b.

(** [s] has no occurrence of [sub]. *)
Definition free_of (sub s : str) : Prop := str_find sub s = None.

(** The five letters of [cmake], each of them in either case. *)
Definition cmake_any_case (ext : str) : Prop :=
  exists c m a k e,
    ext = [c; m; a; k; e]
    /\ (c = "c"%char \/ c = "C"%char) /\ (m = "m"%char \/ m = "M"%char)
    /\ (a = "a"%char \/ a = "A"%char) /\ (k = "k"%char \/ k = "K"%char)
    /\ (e = "e"%char \/ e = "E"%char).

(** The name has [cmake] as its final dot-separated component, whatever the
    case of its letters: it is that component, or ends with a dot and that
    component. *)
Definition has_cmake_extension (name : str) : Prop :=
  exists ext,
    cmake_any_case ext
    /\ (name = ext \/ exists stem, name = stem ++ "."%char :: ext).

(** The blocks with the given inner texts, each after a gap, and what
    follows the last of them. *)
Fixpoint blocks_text (l : list (str * str)) (tail : str) : str :=
  match l with
  | [] => tail
  | (gap, inner) :: l' => gap ++ START ++ inner ++ END ++ blocks_text l' tail
  end.

(** Where the delimiters of these blocks are when the text starts at [pos]. *)
Fixpoint blocks_at (pos : nat) (l : list (str * str)) : list RawBlock :=
  match l with
  | [] => []
  | (gap, inner) :: l' =>
      let s := pos + length gap in
      let e := s + length START + length inner in
      mkRawBlock s e inner :: blocks_at (e + length END) l'
  end.

(** Gaps hold no start marker and inner texts no end marker. *)
Definition well_formed (l : list (str * str)) : Prop :=
  Forall (fun gi => free_of START (fst gi) /\ free_of END (snd gi)) l.

(** The blocks come one after the other. *)
Definition in_order (a b : RawBlock) : Prop :=
  end_offset a + length END <= start_offset b.

(** Every directory of [root] is a directory of [root'], with the names of
    its entries among those of the latter. *)
Definition grows (root root' : node) : Prop :=
  forall loc es,
    resolve root loc = Some (Dir es) ->
    exists es',
      resolve root' loc = Some (Dir es')
      /\ forall c v, assoc c es = Some v -> exists v', assoc c es' = Some v'.

(** All of the text fits in the room of the device. *)
Definition fits (room : option nat) (s : str) : bool :=
  match room with
  | None => true
  | Some k => length s <=? k
  end.

(** The part of the text that the room lets through. *)
Definition written (room : option nat) (s : str) : str :=
  match room with
  | None => s
  | Some k => firstn k s
  end.

(** The header name that [document] gives the Documenter for [file]. *)
Definition header_of (input_path file : str) (w : World) : str :=
  if isdir (fs w) (cwd w) input_path
  then os_path_relpath (cwd w) file input_path else file.

(** *** The fixture of section 8 of the specification *)

Definition greet_inner : str :=
  lit "Greets a person." ++ [newline] ++ lit ":param name: the person's name".

(** The block, then [function(greet name)] on the next line and whatever
    follows it. *)
Definition greet_source (body : str) : str :=
  START ++ greet_inner ++ END ++ [newline] ++ lit "function(greet name)" ++ body.

Definition greet_entry : DocEntry :=
  mkDocEntry
    (mkDocBlock (lit "Greets a person.")
       [mkFieldTag (lit "param") (lit "name: the person's name")]
       (0, length START + length greet_inner))
    (mkSignature FUNCTION (lit "greet") [lit "name"]).

(** *** A sample project *)

Definition demo_source : str :=
  greet_source
    (newline :: lit "  message(hi)" ++ newline :: lit "endfunction()" ++ [newline]).

Definition demo_proj : list (str * node) :=
  [(lit "a.cmake", File demo_source);
   (lit "sub", Dir [(lit "b.CMake", File []); (lit "c.txt", File [])]);
   (lit "cmake", File []);
   (lit "w.cmake", File (START ++ lit " never closed"))].

Definition demo_root : node :=
  Dir [(lit "proj", Dir demo_proj);
       (lit "out", Dir []);
       (lit "dev", Dir [(lit "null", Special)])].

Definition demo_world : World := mkWorld demo_root (lit "/proj") [] [].

Definition special_message : str :=
  lit "File is a special file (socket, FIFO, device file) and is unsupported".

Definition demo_model : DocumentModel :=
  mkDocumentModel (lit "a.cmake") (lit "a.cmake") [greet_entry].

(** A directory with a FIFO among its [cmake] files. *)
Definition fifo_world : World :=
  mkWorld
    (Dir [(lit "d", Dir [(lit "a.cmake", File demo_source);
                         (lit "p.cmake", Special);
                         (lit "z.cmake", File [])])])
    (lit "/d") [] [].

(** An output directory in which a file stands where a directory is needed,
    two levels above the directory of the output file. *)
Definition blocked_world : World :=
  mkWorld
    (Dir [(lit "proj",
           Dir [(lit "sub",
                 Dir [(lit "deep",
                       Dir [(lit "er", Dir [(lit "x.cmake", File [])])])])]);
          (lit "out", Dir [(lit "sub", File [])])])
    (lit "/proj") [] [].

(* ================================================================= *)
(** * Properties *)

#[local] Arguments Ascii.eqb : simpl never.
#[local] Arguments nat_of_ascii : simpl never.

(** ** The library functions on sample values *)

Example split_ex : str_split "."%char (lit "a.b.") = [lit "a"; lit "b"; []].
Proof. reflexivity. Qed.
Example join_ex : os_path_join (lit "/a/") (lit "b") = lit "/a/b".
Proof. reflexivity. Qed.
Example dirname_ex : os_path_dirname (lit "/a//b") = lit "/a".
Proof. reflexivity. Qed.
Example dirname_ex2 : os_path_dirname (lit "b") = [].
Proof. reflexivity. Qed.
Example dirname_ex3 : os_path_dirname (lit "/b") = lit "/".
Proof. reflexivity. Qed.
Example basename_ex : os_path_basename (lit "/a//b.c") = lit "b.c".
Proof. reflexivity. Qed.
Example normpath_ex : os_path_normpath (lit "//a/./b/../../c//d/") = lit "//c/d".
Proof. reflexivity. Qed.
Example normpath_ex2 : os_path_normpath (lit "a/../../b") = lit "../b".
Proof. reflexivity. Qed.
Example normpath_ex3 : os_path_normpath (lit "/../a") = lit "/a".
Proof. reflexivity. Qed.
Example relpath_ex : os_path_relpath (lit "/w") (lit "/a/b/c.cmake") (lit "/a") = lit "b/c.cmake".
Proof. reflexivity. Qed.
Example relpath_ex2 : os_path_relpath (lit "/w") (lit "x/c") (lit "y") = lit "../x/c".
Proof. reflexivity. Qed.
Example find_ex : str_find (lit "#]]") (lit "ab#]#]]") = Some 4.
Proof. reflexivity. Qed.

(** [os.path.abspath] works on the text of a path, [os.path.isdir] follows
    the path in the tree: [/out/nosuch/..] is [/out] for the former and no
    directory for the latter. *)
Example isdir_follows_the_tree :
  os_path_abspath (lit "/proj") (lit "/out/nosuch/..") = lit "/out"
  /\ isdir demo_root (lit "/proj") (lit "/out") = true
  /\ isdir demo_root (lit "/proj") (lit "/out/nosuch/..") = false
  /\ isdir demo_root (lit "/proj") (lit "/proj/a.cmake/..") = false
  /\ isdir demo_root (lit "/proj") (lit "sub/../../out/.") = true
  /\ isfile demo_root (lit "/proj") (lit "a.cmake") = true
  /\ isfile demo_root (lit "/proj") (lit "a.cmake/") = false.
Proof. vm_compute. repeat split. Qed.

(** [os.makedirs] raises from the first [os.mkdir] that fails. *)
Example makedirs_first_failing_mkdir :
  os_makedirs (lit "/out/sub/deep/er") blocked_world
  = (Raise (NotADirectoryError (lit "/out/sub/deep")), blocked_world)
  /\ os_makedirs (lit "/out/sub") blocked_world
     = (Raise (FileExistsError (lit "/out/sub")), blocked_world).
Proof. vm_compute. split; reflexivity. Qed.

(* ================================================================= *)
(** ** Strings *)

Lemma str_eqb_refl (s : str) : str_eqb s s = true.
Proof.
  induction s as [|c s IH]; simpl; [reflexivity|].
  now rewrite Ascii.eqb_refl, IH.
Qed.

Lemma str_eqb_eq (a b : str) : str_eqb a b = true <-> a = b.
Proof.
  split.
  - revert b; induction a as [|x a IH]; intros [|y b]; simpl; try discriminate; auto.
    intros H. apply andb_true_iff in H as [H1 H2].
    apply Ascii.eqb_eq in H1. subst. f_equal. auto.
  - intros ->. apply str_eqb_refl.
Qed.

Lemma str_eqb_neq (a b : str) : str_eqb a b = false <-> a <> b.
Proof.
  split.
  - intros H E. apply str_eqb_eq in E. congruence.
  - intros H. destruct (str_eqb a b) eqn:E; [|reflexivity].
    apply str_eqb_eq in E. contradiction.
Qed.

Lemma existsb_eqb_false (c : ascii) (s : str) :
  existsb (fun x => Ascii.eqb x c) s = false <-> ~ In c s.
Proof.
  induction s as [|x s IH]; simpl.
  - tauto.
  - rewrite orb_false_iff, IH. split.
    + intros [H1 H2] [H|H]; [|tauto]. subst. now rewrite Ascii.eqb_refl in H1.
    + intros H. split; [|tauto].
      destruct (Ascii.eqb x c) eqn:E; [|reflexivity].
      apply Ascii.eqb_eq in E. tauto.
Qed.

Lemma startswith_app (p s : str) : startswith p (p ++ s) = true.
Proof.
  induction p as [|x p IH]; simpl; [reflexivity|].
  now rewrite Ascii.eqb_refl, IH.
Qed.

Lemma str_split_not_nil (c : ascii) (s : str) : str_split c s <> [].
Proof.
  induction s as [|x s IH]; simpl; [discriminate|].
  destruct (Ascii.eqb x c); [discriminate|].
  destruct (str_split c s); discriminate.
Qed.

Lemma str_split_free (c : ascii) (s : str) : ~ In c s -> str_split c s = [s].
Proof.
  induction s as [|x s IH]; simpl; intros H; [reflexivity|].
  destruct (Ascii.eqb x c) eqn:E.
  - apply Ascii.eqb_eq in E. tauto.
  - rewrite IH by tauto. reflexivity.
Qed.

Lemma str_split_app (c : ascii) (a b : str) :
  str_split c (a ++ c :: b) = str_split c a ++ str_split c b.
Proof.
  induction a as [|x a IH]; simpl.
  - now rewrite Ascii.eqb_refl.
  - destruct (Ascii.eqb x c); rewrite IH; [reflexivity|].
    destruct (str_split c a) eqn:E; [|reflexivity].
    now apply str_split_not_nil in E.
Qed.

Lemma str_join_split (c : ascii) (s : str) : str_join [c] (str_split c s) = s.
Proof.
  induction s as [|x s IH]; [reflexivity|].
  cbn [str_split]. destruct (Ascii.eqb x c) eqn:E.
  - apply Ascii.eqb_eq in E. subst x.
    cbn [str_join]. destruct (str_split c s) eqn:S.
    + now apply str_split_not_nil in S.
    + rewrite IH. reflexivity.
  - destruct (str_split c s) as [|w ws] eqn:S.
    + now apply str_split_not_nil in S.
    + cbn [str_join] in *. destruct ws; simpl in *; now rewrite <- IH.
Qed.

(** Every string either has no [c], or splits at its last [c]. *)
Lemma last_occurrence (c : ascii) (s : str) :
  ~ In c s \/ exists a b, s = a ++ c :: b /\ ~ In c b.
Proof.
  induction s as [|x s IH].
  - left. simpl. tauto.
  - destruct IH as [H | (a & b & -> & H)].
    + destruct (ascii_dec x c) as [->|N].
      * right. exists [], s. auto.
      * left. simpl. tauto.
    + right. exists (x :: a), b. auto.
Qed.

Lemma last_split (c : ascii) (a b : str) :
  ~ In c b -> last (str_split c (a ++ c :: b)) [] = b.
Proof.
  intros H. rewrite str_split_app, (str_split_free c b H).
  apply last_last.
Qed.

Lemma removelast_split (c : ascii) (a b : str) :
  ~ In c b -> removelast (str_split c (a ++ c :: b)) = str_split c a.
Proof.
  intros H. rewrite str_split_app, (str_split_free c b H).
  apply removelast_last.
Qed.

Lemma str_join_snoc (s : str) (l : list str) (x : str) :
  l <> [] -> str_join s (l ++ [x]) = str_join s l ++ s ++ x.
Proof.
  induction l as [|y l IH]; intros H; [contradiction|].
  destruct l as [|z l].
  - reflexivity.
  - change (str_join s ((y :: z :: l) ++ [x]))
      with (y ++ s ++ str_join s ((z :: l) ++ [x])).
    rewrite IH by discriminate.
    change (str_join s (y :: z :: l)) with (y ++ s ++ str_join s (z :: l)).
    now rewrite <- !app_assoc.
Qed.

(* ================================================================= *)
(** ** Paths made of entry names *)


Lemma clean_inv (c : str) :
  clean c -> c <> [] /\ ~ In sep c /\ c <> dot /\ c <> dotdot.
Proof.
  unfold clean, cleanb. intros H.
  repeat (apply andb_true_iff in H as [H ?]).
  repeat split.
  - intros ->. discriminate.
  - apply existsb_eqb_false. now apply negb_true_iff.
  - apply str_eqb_neq. now apply negb_true_iff.
  - apply str_eqb_neq. now apply negb_true_iff.
Qed.

Lemma clean_no_sep (c : str) : clean c -> ~ In sep c.
Proof. intros H. apply clean_inv in H. tauto. Qed.

Lemma clean_not_nil (c : str) : clean c -> c <> [].
Proof. intros H. apply clean_inv in H. tauto. Qed.

Lemma clean_startswith (c : str) : clean c -> startswith [sep] c = false.
Proof.
  intros H. apply clean_inv in H as (H1 & H2 & _).
  destruct c as [|x c]; [contradiction|]. simpl.
  destruct (Ascii.eqb sep x) eqn:E; [|reflexivity].
  apply Ascii.eqb_eq in E. subst x. simpl in H2. tauto.
Qed.

(** A non-empty string without separator ends with a character that is not
    the separator. *)
Lemma ends_not_sep (c : str) :
  c <> [] -> ~ In sep c -> exists b x, c = b ++ [x] /\ x <> sep.
Proof.
  intros H1 H2. destruct (exists_last H1) as (b & x & ->).
  exists b, x. split; [reflexivity|].
  intros ->. apply H2, in_or_app. right. now left.
Qed.

Lemma join_ends_not_sep (cs : list str) :
  cs <> [] -> Forall clean cs ->
  exists b x, str_join [sep] cs = b ++ [x] /\ x <> sep.
Proof.
  intros H F. destruct (exists_last H) as (l & c & ->).
  apply Forall_app in F as [_ F]. apply Forall_inv in F.
  destruct (ends_not_sep c (clean_not_nil c F) (clean_no_sep c F)) as (b & x & -> & N).
  destruct l as [|y l].
  - exists b, x. auto.
  - rewrite str_join_snoc by discriminate.
    exists (str_join [sep] (y :: l) ++ [sep] ++ b), x.
    split; [|assumption]. now rewrite <- !app_assoc.
Qed.

Lemma last_snoc (b : str) (x d : ascii) : last (b ++ [x]) d = x.
Proof. apply last_last. Qed.

Lemma os_path_join_plain (a c : str) (b : str) (x : ascii) :
  clean c -> a = b ++ [x] -> x <> sep -> os_path_join a c = a ++ sep :: c.
Proof.
  intros C -> N. unfold os_path_join. rewrite (clean_startswith c C).
  destruct (b ++ [x]) eqn:E; [now destruct b|]. rewrite <- E.
  rewrite last_snoc.
  destruct (Ascii.eqb x sep) eqn:Q; [|reflexivity].
  apply Ascii.eqb_eq in Q. contradiction.
Qed.

Lemma join_abs (cs : list str) (c : str) :
  Forall clean cs -> clean c ->
  os_path_join (abs_path cs) c = abs_path (cs ++ [c]).
Proof.
  intros F C. destruct cs as [|y cs].
  - unfold os_path_join. rewrite (clean_startswith c C). reflexivity.
  - destruct (join_ends_not_sep (y :: cs)) as (b & x & E & N);
      [discriminate|assumption|].
    unfold abs_path. rewrite str_join_snoc by discriminate.
    rewrite (os_path_join_plain _ c (sep :: b) x C); [reflexivity| |assumption].
    now rewrite E.
Qed.

Lemma join_rel (cs : list str) (c : str) :
  cs <> [] -> Forall clean cs -> clean c ->
  os_path_join (rel_path cs) c = rel_path (cs ++ [c]).
Proof.
  intros H F C. destruct (join_ends_not_sep cs H F) as (b & x & E & N).
  unfold rel_path. rewrite str_join_snoc by assumption.
  now rewrite (os_path_join_plain _ c b x C E N).
Qed.

Lemma join_rel_nil (c : str) : clean c -> os_path_join [] c = c.
Proof. intros C. unfold os_path_join. now rewrite (clean_startswith c C). Qed.

Lemma fold_join_rel (l acc : list str) :
  acc <> [] -> Forall clean acc -> Forall clean l ->
  fold_left os_path_join l (rel_path acc) = rel_path (acc ++ l).
Proof.
  revert acc. induction l as [|c l IH]; intros acc H Fa Fl; simpl.
  - now rewrite app_nil_r.
  - inversion Fl; subst. rewrite join_rel by assumption.
    rewrite IH.
    + now rewrite <- app_assoc.
    + now destruct acc.
    + apply Forall_app. split; [assumption|]. now constructor.
    + assumption.
Qed.

Lemma join_all_rel (l : list str) :
  l <> [] -> Forall clean l -> os_path_join_all l = rel_path l.
Proof.
  intros H F. destruct l as [|c l]; [contradiction|].
  inversion F; subst. simpl.
  change c with (rel_path [c]) at 1.
  apply (fold_join_rel l [c]); [discriminate|now constructor|assumption].
Qed.

Lemma split_join_clean (cs : list str) :
  cs <> [] -> Forall clean cs -> str_split sep (str_join [sep] cs) = cs.
Proof.
  induction cs as [|c cs IH]; intros H F; [contradiction|].
  inversion F as [|? ? C F']; subst.
  destruct cs as [|d cs].
  - simpl. apply str_split_free, (clean_no_sep c C).
  - change (str_join [sep] (c :: d :: cs))
      with (c ++ sep :: str_join [sep] (d :: cs)).
    rewrite str_split_app, IH by (discriminate || assumption).
    now rewrite (str_split_free _ _ (clean_no_sep c C)).
Qed.

Lemma filter_nonempty_clean (cs : list str) :
  Forall clean cs -> filter nonempty cs = cs.
Proof.
  induction 1 as [|c cs C F IH]; simpl; [reflexivity|].
  destruct c; [now apply clean_not_nil in C|]. simpl. now rewrite IH.
Qed.

Lemma components_rel (cs : list str) :
  Forall clean cs -> components (rel_path cs) = cs.
Proof.
  intros F. unfold components, rel_path. destruct cs as [|c cs]; [reflexivity|].
  rewrite split_join_clean by (discriminate || assumption).
  now apply filter_nonempty_clean.
Qed.

Lemma components_abs (cs : list str) :
  Forall clean cs -> components (abs_path cs) = cs.
Proof.
  intros F. unfold components, abs_path. cbn [str_split].
  rewrite Ascii.eqb_refl. cbn [filter nonempty].
  now apply components_rel.
Qed.

Lemma norm_comps_clean (b : bool) (cs acc : list str) :
  Forall clean cs -> norm_comps b acc cs = acc ++ cs.
Proof.
  intros F. revert acc. induction F as [|c cs C F IH]; intros acc; simpl.
  - now rewrite app_nil_r.
  - apply clean_inv in C as (C1 & _ & C3 & C4).
    apply str_eqb_neq in C3, C4. rewrite C3, C4.
    destruct c; [contradiction|]. simpl.
    rewrite IH. now rewrite <- app_assoc.
Qed.

Lemma abs_path_second (cs : list str) :
  Forall clean cs -> startswith [sep; sep] (abs_path cs) = false.
Proof.
  intros F. unfold abs_path. cbn [startswith]. rewrite Ascii.eqb_refl. simpl.
  destruct cs as [|c cs]; [reflexivity|].
  inversion F as [|? ? C _]; subst.
  pose proof (clean_startswith c C) as S.
  destruct c as [|x c]; [now apply clean_not_nil in C|].
  simpl in S. rewrite andb_true_r in S.
  destruct cs; simpl; now rewrite S.
Qed.

Lemma normpath_abs (cs : list str) :
  Forall clean cs -> os_path_normpath (abs_path cs) = abs_path cs.
Proof.
  intros F.
  pose proof (abs_path_second cs F) as S2.
  assert (N : norm_comps true [] (str_split sep (abs_path cs)) = cs).
  { unfold abs_path. cbn [str_split]. rewrite Ascii.eqb_refl.
    destruct cs as [|c cs]; [reflexivity|].
    rewrite split_join_clean by (discriminate || assumption).
    change (norm_comps true [] ([] :: c :: cs)) with (norm_comps true [] (c :: cs)).
    now rewrite norm_comps_clean. }
  unfold os_path_normpath.
  destruct (abs_path cs) as [|x p] eqn:E; [discriminate|].
  assert (S1 : startswith [sep] (x :: p) = true).
  { rewrite <- E. unfold abs_path. cbn [startswith]. now rewrite Ascii.eqb_refl. }
  cbv zeta. rewrite S1, S2. cbn [andb Nat.eqb negb repeat app].
  rewrite N. exact E.
Qed.

Lemma abspath_abs (cwd : str) (cs : list str) :
  Forall clean cs -> os_path_abspath cwd (abs_path cs) = abs_path cs.
Proof. intros F. unfold os_path_abspath. cbn. now apply normpath_abs. Qed.

Lemma common_len_app (a b : list str) : common_len a (a ++ b) = length a.
Proof.
  induction a as [|x a IH]; simpl; [now destruct b|].
  now rewrite str_eqb_refl, IH.
Qed.

Lemma relpath_under (cwd : str) (cs rel : list str) :
  Forall clean cs -> Forall clean rel -> rel <> [] ->
  os_path_relpath cwd (abs_path (cs ++ rel)) (abs_path cs) = rel_path rel.
Proof.
  intros F R N. unfold os_path_relpath.
  rewrite !abspath_abs, !components_abs by (try apply Forall_app; auto).
  rewrite common_len_app, Nat.sub_diag, skipn_app, skipn_all, Nat.sub_diag.
  cbn [app skipn].
  destruct (repeat dotdot 0 ++ rel) as [|r l] eqn:E.
  - simpl in E. contradiction.
  - rewrite <- E. simpl. now apply join_all_rel.
Qed.

(** *** [dirname] and [basename] *)

Lemma cut_last_sep_free (t : str) : ~ In sep t -> cut_last_sep t = ([], t).
Proof.
  induction t as [|x t IH]; intros H; simpl; [reflexivity|].
  rewrite IH by (simpl in H; tauto).
  destruct (Ascii.eqb x sep) eqn:E; [|reflexivity].
  apply Ascii.eqb_eq in E. simpl in H. tauto.
Qed.

Lemma cut_last_sep_app (h t : str) :
  ~ In sep t -> cut_last_sep ((h ++ [sep]) ++ t) = (h ++ [sep], t).
Proof.
  intros H. induction h as [|x h IH]; simpl.
  - now rewrite cut_last_sep_free by assumption.
  - simpl in IH. rewrite IH. now destruct h.
Qed.

Lemma rstrip_snoc_sep (a : str) : rstrip sep (a ++ [sep]) = rstrip sep a.
Proof.
  unfold rstrip. rewrite rev_app_distr. simpl.
  rewrite ?Ascii.eqb_refl. reflexivity.
Qed.

Lemma rstrip_snoc_other (a : str) (x : ascii) :
  x <> sep -> rstrip sep (a ++ [x]) = a ++ [x].
Proof.
  intros N. unfold rstrip. rewrite rev_app_distr. simpl.
  destruct (Ascii.eqb x sep) eqn:E.
  - apply Ascii.eqb_eq in E. contradiction.
  - simpl. now rewrite rev_involutive.
Qed.

Lemma all_sep_snoc (b : str) (x : ascii) (r : str) :
  x <> sep -> all_sep (b ++ x :: r) = false.
Proof.
  intros N. unfold all_sep. rewrite forallb_app. simpl.
  destruct (Ascii.eqb x sep) eqn:E.
  - apply Ascii.eqb_eq in E. contradiction.
  - apply andb_false_r.
Qed.

Lemma abs_path_snoc (cs : list str) (c : str) :
  abs_path (cs ++ [c])
  = (match cs with [] => [] | _ :: _ => abs_path cs end ++ [sep]) ++ c.
Proof.
  destruct cs as [|y cs]; [reflexivity|].
  unfold abs_path. rewrite str_join_snoc by discriminate.
  simpl. now rewrite <- !app_assoc.
Qed.

Lemma rel_path_snoc (cs : list str) (c : str) :
  cs <> [] -> rel_path (cs ++ [c]) = (rel_path cs ++ [sep]) ++ c.
Proof.
  intros H. unfold rel_path. rewrite str_join_snoc by assumption.
  now rewrite <- !app_assoc.
Qed.

Lemma basename_abs (cs : list str) (c : str) :
  ~ In sep c -> os_path_basename (abs_path (cs ++ [c])) = c.
Proof.
  intros H. unfold os_path_basename.
  now rewrite abs_path_snoc, cut_last_sep_app.
Qed.

Lemma dirname_of_prefix (h : str) (x : ascii) (c : str) :
  x <> sep -> ~ In sep c ->
  os_path_dirname (((h ++ [x]) ++ [sep]) ++ c) = h ++ [x].
Proof.
  intros N H. unfold os_path_dirname.
  rewrite cut_last_sep_app by assumption. cbn [fst].
  destruct ((h ++ [x]) ++ [sep]) eqn:Q; [now destruct h|]. rewrite <- Q.
  assert (A : all_sep ((h ++ [x]) ++ [sep]) = false).
  { rewrite <- app_assoc. now apply all_sep_snoc. }
  rewrite A, rstrip_snoc_sep. now apply rstrip_snoc_other.
Qed.

Lemma dirname_abs (cs : list str) (c : str) :
  Forall clean cs -> ~ In sep c ->
  os_path_dirname (abs_path (cs ++ [c])) = abs_path cs.
Proof.
  intros F H. rewrite abs_path_snoc.
  destruct cs as [|y cs].
  - unfold os_path_dirname. now rewrite cut_last_sep_app.
  - destruct (join_ends_not_sep (y :: cs)) as (b & x & E & N);
      [discriminate|assumption|].
    unfold abs_path. rewrite E.
    change (sep :: b ++ [x]) with ((sep :: b) ++ [x]).
    now apply dirname_of_prefix.
Qed.

Lemma dirname_rel (cs : list str) (c : str) :
  Forall clean cs -> ~ In sep c ->
  os_path_dirname (rel_path (cs ++ [c])) = rel_path cs.
Proof.
  intros F H. destruct cs as [|y cs].
  - unfold os_path_dirname. cbn. now rewrite cut_last_sep_free.
  - rewrite rel_path_snoc by discriminate.
    destruct (join_ends_not_sep (y :: cs)) as (b & x & E & N);
      [discriminate|assumption|].
    unfold rel_path. rewrite E. now apply dirname_of_prefix.
Qed.

(** *** What [os.path.abspath] returns *)

Lemma str_split_no_sep (c : ascii) (s : str) :
  Forall (fun x => ~ In c x) (str_split c s).
Proof.
  induction s as [|x s IH]; cbn [str_split].
  - constructor; [tauto|constructor].
  - destruct (Ascii.eqb x c) eqn:E.
    + constructor; [tauto|assumption].
    + destruct (str_split c s) as [|w ws]; [constructor; [|constructor]|].
      * intros [->|[]]. now rewrite Ascii.eqb_refl in E.
      * inversion IH; subst. constructor; [|assumption].
        intros [->|I]; [now rewrite Ascii.eqb_refl in E|contradiction].
Qed.

Lemma last_clean_not_dotdot (acc : list str) :
  Forall clean acc ->
  match acc with
  | [] => false
  | _ :: _ => str_eqb (last acc []) dotdot
  end = false.
Proof.
  intros F. destruct acc as [|a acc]; [reflexivity|].
  assert (I : In (last (a :: acc) []) (a :: acc)).
  { destruct (exists_last (l := a :: acc)) as (l & x & E); [discriminate|].
    rewrite E, last_last. apply in_or_app. right. now left. }
  rewrite Forall_forall in F. apply F, clean_inv in I.
  apply str_eqb_neq. tauto.
Qed.

Lemma Forall_removelast (A : Type) (P : A -> Prop) (l : list A) :
  Forall P l -> Forall P (removelast l).
Proof.
  induction 1 as [|x l H F IH]; [constructor|].
  cbn [removelast]. destruct l; [constructor|]. now constructor.
Qed.

Lemma norm_comps_abs (comps acc : list str) :
  Forall clean acc -> Forall (fun c => ~ In sep c) comps ->
  Forall clean (norm_comps true acc comps).
Proof.
  intros A C. revert acc A.
  induction C as [|c comps N C IH]; intros acc A; [exact A|].
  cbn [norm_comps negb andb].
  destruct (str_eqb c []) eqn:E1; [now apply IH|].
  destruct (str_eqb c dot) eqn:E2; [now apply IH|].
  cbn [orb]. rewrite (last_clean_not_dotdot acc A), !orb_false_r.
  destruct (str_eqb c dotdot) eqn:E3; cbn [negb].
  - apply IH. now apply Forall_removelast.
  - apply IH, Forall_app. split; [assumption|]. constructor; [|constructor].
    unfold clean, cleanb. rewrite E2, E3.
    destruct c; [discriminate|]. cbn [nonempty negb andb].
    rewrite !andb_true_r. apply negb_true_iff. now apply existsb_eqb_false.
Qed.

(** A path with one leading separator, or three and more, is normalised to
    the path of entry names. *)
Lemma normpath_shape (p : str) :
  startswith [sep] p = true ->
  startswith [sep; sep] p && negb (startswith [sep; sep; sep] p) = false ->
  exists cs, Forall clean cs /\ os_path_normpath p = abs_path cs.
Proof.
  intros S1 S2. exists (norm_comps true [] (str_split sep p)). split.
  - apply norm_comps_abs; [constructor|apply str_split_no_sep].
  - unfold os_path_normpath. destruct p as [|x p]; [discriminate|].
    rewrite S1, S2. reflexivity.
Qed.

Lemma abs_path_app_second (ccs : list str) (r : str) :
  Forall clean ccs -> (ccs = [] -> startswith [sep] r = false) ->
  startswith [sep; sep] (abs_path ccs ++ r) = false.
Proof.
  intros F R. destruct ccs as [|c ccs].
  - specialize (R eq_refl). destruct r as [|y r]; [reflexivity|].
    cbn [abs_path str_join app startswith] in *.
    rewrite andb_true_r in R. now rewrite R.
  - pose proof (abs_path_second (c :: ccs) F) as T.
    inversion F as [|? ? C _]; subst.
    destruct c as [|y c]; [now apply clean_not_nil in C|].
    revert T. unfold abs_path. destruct ccs; cbn; auto.
Qed.

(** In a working directory [cwd] that is such a path, [os.path.abspath] gives
    such a path, unless the argument starts with exactly two separators. *)
Lemma abspath_shape (ccs : list str) (p : str) :
  Forall clean ccs ->
  startswith [sep; sep] p && negb (startswith [sep; sep; sep] p) = false ->
  exists cs, Forall clean cs /\ os_path_abspath (abs_path ccs) p = abs_path cs.
Proof.
  intros F S. unfold os_path_abspath, isabs.
  destruct (startswith [sep] p) eqn:A; [now apply normpath_shape|].
  assert (J : os_path_join (abs_path ccs) p
              = if Ascii.eqb (last (abs_path ccs) sep) sep
                then abs_path ccs ++ p else abs_path ccs ++ sep :: p).
  { unfold os_path_join. now rewrite A. }
  rewrite J. clear J.
  destruct (Ascii.eqb (last (abs_path ccs) sep) sep) eqn:L.
  - apply normpath_shape; [reflexivity|].
    now rewrite abs_path_app_second.
  - apply normpath_shape; [reflexivity|].
    rewrite abs_path_app_second; [reflexivity|assumption|].
    intros ->. discriminate L.
Qed.

Example abspath_relative :
  os_path_abspath (abs_path [lit "proj"]) (lit "./sub/../sub") = abs_path [lit "proj"; lit "sub"].
Proof. reflexivity. Qed.

(* ================================================================= *)
(** ** The file system *)


Lemma assoc_set_same (k : str) (v : node) (es : list (str * node)) :
  assoc k (assoc_set k v es) = Some v.
Proof.
  induction es as [|[k' v'] es IH]; simpl.
  - now rewrite str_eqb_refl.
  - destruct (str_eqb k' k) eqn:E; simpl; now rewrite E.
Qed.

Lemma assoc_set_other (k k' : str) (v : node) (es : list (str * node)) :
  k <> k' -> assoc k' (assoc_set k v es) = assoc k' es.
Proof.
  intros N. induction es as [|[k0 v0] es IH]; simpl.
  - apply str_eqb_neq in N. now rewrite N.
  - destruct (str_eqb k0 k) eqn:E; simpl.
    + apply str_eqb_eq in E. subst k0.
      apply str_eqb_neq in N. now rewrite N.
    + now rewrite IH.
Qed.

Lemma assoc_set_id (k : str) (v : node) (es : list (str * node)) :
  assoc k es = Some v -> assoc_set k v es = es.
Proof.
  induction es as [|[k' v'] es IH]; simpl; [discriminate|].
  destruct (str_eqb k' k) eqn:E.
  - now intros [= ->].
  - intros H. now rewrite IH.
Qed.

Lemma assoc_in (k : str) (v : node) (es : list (str * node)) :
  assoc k es = Some v -> In (k, v) es.
Proof.
  induction es as [|[k' v'] es IH]; simpl; [discriminate|].
  destruct (str_eqb k' k) eqn:E.
  - apply str_eqb_eq in E. intros [= ->]. left. now subst.
  - intros H. right. auto.
Qed.

Lemma existsb_str_eqb (k : str) (l : list str) :
  existsb (str_eqb k) l = false -> ~ In k l.
Proof.
  induction l as [|x l IH]; simpl; [tauto|].
  intros H. apply orb_false_iff in H as [H1 H2].
  intros [->|I]; [|now apply IH].
  now rewrite str_eqb_refl in H1.
Qed.

Lemma in_assoc (k : str) (v : node) (es : list (str * node)) :
  nodupb (map fst es) = true -> In (k, v) es -> assoc k es = Some v.
Proof.
  induction es as [|[k' v'] es IH]; simpl; [tauto|].
  intros H. apply andb_true_iff in H as [H1 H2].
  apply negb_true_iff, existsb_str_eqb in H1.
  intros [[= -> ->]|I].
  - now rewrite str_eqb_refl.
  - destruct (str_eqb k' k) eqn:E; [|auto].
    apply str_eqb_eq in E. subst k'.
    exfalso. apply H1. change k with (fst (k, v)). now apply in_map.
Qed.

Lemma wf_node_inv (es : list (str * node)) :
  wf_node (Dir es) = true ->
  nodupb (map fst es) = true
  /\ Forall (fun e => clean (fst e) /\ wf_node (snd e) = true) es.
Proof.
  cbn [wf_node]. intros H. apply andb_true_iff in H as [H1 H2].
  split; [assumption|]. clear H1.
  induction es as [|[k v] es IH]; [constructor|].
  apply andb_true_iff in H2 as [H2 H3]. apply andb_true_iff in H2 as [H2 H4].
  constructor; [split; assumption|auto].
Qed.

(** *** Path resolution *)

Lemma resolve_app (a b : list str) (n : node) :
  resolve n (a ++ b)
  = match resolve n a with
    | Some m => resolve m b
    | None => None
    end.
Proof.
  revert n. induction a as [|c a IH]; intros n; [reflexivity|].
  cbn [app resolve]. destruct n as [| |es]; try reflexivity.
  destruct (assoc c es); [apply IH|reflexivity].
Qed.

(** Along entry names, the kernel's resolution is [resolve]. *)
Lemma traverse_clean (root : node) (cs : list str) :
  forall (here : list str) (n : node),
    Forall clean cs -> resolve root here = Some n ->
    match traverse root here cs with
    | inr there => there = here ++ cs /\ exists x, resolve root there = Some x
    | inl _ => resolve root (here ++ cs) = None
    end.
Proof.
  induction cs as [|c cs IH]; intros here n F R.
  - cbn [traverse]. rewrite app_nil_r. eauto.
  - inversion F as [|? ? C F']; subst.
    apply clean_inv in C as (C1 & _ & C3 & C4).
    apply str_eqb_neq in C1, C3, C4.
    cbn [traverse]. rewrite R, C1, C3, C4. cbn [orb].
    destruct n as [| |es]; try (rewrite resolve_app, R; reflexivity).
    destruct (assoc c es) as [child|] eqn:A.
    + assert (R' : resolve root (here ++ [c]) = Some child).
      { rewrite resolve_app, R. cbn [resolve]. now rewrite A. }
      specialize (IH (here ++ [c]) child F' R').
      now rewrite <- app_assoc in IH.
    + rewrite resolve_app, R. cbn [resolve]. now rewrite A.
Qed.

Lemma traverse_resolves (root : node) (cs here : list str) (x : node) :
  Forall clean cs -> resolve root (here ++ cs) = Some x ->
  traverse root here cs = inr (here ++ cs).
Proof.
  intros F R. pose proof R as R0. rewrite resolve_app in R0.
  destruct (resolve root here) as [n|] eqn:H; [|discriminate].
  pose proof (traverse_clean root cs here n F H) as T.
  destruct (traverse root here cs) as [e|there].
  - congruence.
  - now destruct T as [-> _].
Qed.

Lemma split_abs (cs : list str) :
  Forall clean cs ->
  str_split sep (abs_path cs) = [] :: match cs with [] => [[]] | _ :: _ => cs end.
Proof.
  intros F. unfold abs_path. cbn [str_split]. rewrite Ascii.eqb_refl.
  destruct cs as [|c cs]; [reflexivity|].
  now rewrite split_join_clean by (discriminate || assumption).
Qed.

Lemma path_comps_abs (cwd : str) (cs : list str) :
  path_comps cwd (abs_path cs) = str_split sep (abs_path cs).
Proof. unfold path_comps, isabs, abs_path. cbn [startswith]. now rewrite Ascii.eqb_refl. Qed.

(** [os.stat] of a path of entry names. *)
Lemma lookup_abs (root : node) (cwd : str) (cs : list str) :
  Forall clean cs ->
  lookup root cwd (abs_path cs)
  = match root with Dir _ => resolve root cs | _ => None end.
Proof.
  intros F. unfold lookup. rewrite path_comps_abs, split_abs by assumption.
  change (abs_path cs) with (sep :: str_join [sep] cs). cbv iota.
  cbn [traverse resolve]. destruct root as [| |es]; try reflexivity.
  cbn [str_eqb orb].
  destruct cs as [|c cs]; [reflexivity|].
  pose proof (traverse_clean (Dir es) (c :: cs) [] (Dir es) F eq_refl) as T.
  cbn [app] in T.
  destruct (traverse (Dir es) [] (c :: cs)) as [e|there].
  - now rewrite T.
  - now destruct T as [-> _].
Qed.

Lemma lookup_abs_dir (root : node) (cwd : str) (cs : list str)
  (es : list (str * node)) :
  Forall clean cs -> resolve root cs = Some (Dir es) ->
  lookup root cwd (abs_path cs) = Some (Dir es).
Proof.
  intros F R. rewrite lookup_abs by assumption.
  destruct root; try assumption; now destruct cs.
Qed.

Lemma isdir_abs (root : node) (cwd : str) (cs : list str) :
  Forall clean cs ->
  isdir root cwd (abs_path cs) = match resolve root cs with
                                 | Some (Dir _) => true
                                 | _ => false
                                 end.
Proof.
  intros F. unfold isdir. rewrite lookup_abs by assumption.
  destruct root; try reflexivity; now destruct cs.
Qed.

(** *** [os.makedirs] *)

Lemma mkdirs_resolve (cs : list str) (n n' : node) :
  mkdirs cs n = Some n' -> exists es, resolve n' cs = Some (Dir es).
Proof.
  revert n n'. induction cs as [|c cs IH]; intros n n' H.
  - destruct n as [| |es]; try discriminate. injection H as <-. now exists es.
  - destruct n as [| |es]; try discriminate. cbn [mkdirs] in H.
    destruct (mkdirs cs _) as [child'|] eqn:E; [|discriminate].
    injection H as <-. cbn [resolve]. rewrite assoc_set_same. eauto.
Qed.

(** A directory that exists is left as it is. *)
Lemma mkdirs_existing (cs : list str) (n : node) (es : list (str * node)) :
  resolve n cs = Some (Dir es) -> mkdirs cs n = Some n.
Proof.
  revert n. induction cs as [|c cs IH]; intros n H.
  - injection H as ->. reflexivity.
  - destruct n as [| |es']; try discriminate. cbn [resolve] in H. cbn [mkdirs].
    destruct (assoc c es') as [child|] eqn:A; [|discriminate].
    rewrite (IH _ H). now rewrite assoc_set_id.
Qed.

(** What exists before [os.makedirs] exists after it. *)
Lemma mkdirs_keeps (cs : list str) (n n' : node) (p : list str) (x : node) :
  mkdirs cs n = Some n' -> resolve n p = Some x ->
  exists x', resolve n' p = Some x' /\ (is_dir_node x = false -> x' = x)
             /\ is_dir_node x' = is_dir_node x.
Proof.
  revert n n' p x. induction cs as [|c cs IH]; intros n n' p x H R.
  - destruct n as [| |es]; try discriminate. injection H as <-. eauto.
  - destruct n as [| |es]; try discriminate. cbn [mkdirs] in H.
    destruct (mkdirs cs _) as [child'|] eqn:E; [|discriminate].
    injection H as <-.
    destruct p as [|k p].
    + injection R as <-. exists (Dir (assoc_set c child' es)).
      split; [reflexivity|split; [discriminate|reflexivity]].
    + cbn [resolve] in *. destruct (assoc k es) as [v|] eqn:A; [|discriminate].
      destruct (str_eqb c k) eqn:Q.
      * apply str_eqb_eq in Q. subst k. rewrite assoc_set_same.
        rewrite A in E. exact (IH _ _ _ _ E R).
      * apply str_eqb_neq in Q. rewrite assoc_set_other, A by assumption. eauto.
Qed.

Lemma mkdirs_fresh (cs : list str) : exists n', mkdirs cs (Dir []) = Some n'.
Proof.
  induction cs as [|c cs [n' IH]]; cbn [mkdirs assoc]; [eauto|].
  rewrite IH. eauto.
Qed.

Lemma mkdirs_total (cs : list str) (n : node) :
  unobstructed n cs = true -> exists n', mkdirs cs n = Some n'.
Proof.
  revert n. induction cs as [|c cs IH]; intros n H.
  - destruct n; try discriminate. cbn. eauto.
  - destruct n as [| |es]; try discriminate. cbn [unobstructed] in H. cbn [mkdirs].
    destruct (assoc c es) as [child|].
    + destruct (IH _ H) as [n' ->]. eauto.
    + destruct (mkdirs_fresh cs) as [n' ->]. eauto.
Qed.

Lemma assoc_set_twice (k : str) (v1 v2 : node) (es : list (str * node)) :
  assoc_set k v2 (assoc_set k v1 es) = assoc_set k v2 es.
Proof.
  induction es as [|[k' v'] es IH]; cbn [assoc_set].
  - now rewrite str_eqb_refl.
  - destruct (str_eqb k' k) eqn:E; cbn [assoc_set]; rewrite E; [reflexivity|].
    now rewrite IH.
Qed.

Lemma set_fs_same (w : World) : set_fs (fs w) w = w.
Proof. now destruct w. Qed.

Lemma rstrip_abs (cs : list str) :
  cs <> [] -> Forall clean cs -> rstrip sep (abs_path cs) = abs_path cs.
Proof.
  intros N F. destruct (join_ends_not_sep cs N F) as (b & x & E & X).
  unfold abs_path. rewrite E.
  change (sep :: b ++ [x]) with ((sep :: b) ++ [x]).
  now apply rstrip_snoc_other.
Qed.

(** The place of the last name of a path of entry names. *)
Lemma entry_place_abs (root : node) (cwd : str) (cs : list str) (c : str)
  (x : node) :
  Forall clean cs -> clean c -> resolve root cs = Some x ->
  entry_place root cwd (abs_path (cs ++ [c]))
  = match x with
    | Dir es => inr (cs, es, c)
    | _ => inl ENOTDIR
    end.
Proof.
  intros F C R.
  assert (Fc : Forall clean (cs ++ [c])).
  { apply Forall_app. split; [assumption|]. now constructor. }
  unfold entry_place. rewrite path_comps_abs, split_abs by assumption.
  assert (E : match cs ++ [c] with [] => [[]] | _ :: _ => cs ++ [c] end = cs ++ [c])
    by now destruct cs.
  rewrite E. clear E.
  change ([] :: cs ++ [c]) with (([] :: cs) ++ [c]).
  rewrite removelast_last, last_last.
  cbn [traverse resolve]. destruct root as [| |es0].
  - destruct cs; [injection R as <-; reflexivity|discriminate].
  - destruct cs; [injection R as <-; reflexivity|discriminate].
  - cbn [str_eqb orb].
    rewrite (traverse_resolves (Dir es0) cs [] x F R). cbn [app].
    rewrite R. now destruct x.
Qed.

Lemma mkdir_abs (cs : list str) (c : str) (x : node) (w : World) :
  Forall clean cs -> clean c -> resolve (fs w) cs = Some x ->
  os_mkdir (abs_path (cs ++ [c])) w
  = match x with
    | Dir es =>
        match assoc c es with
        | Some _ => (Raise (FileExistsError (abs_path (cs ++ [c]))), w)
        | None =>
            (Ret tt, set_fs (update_dir cs (assoc_set c (Dir [])) (fs w)) w)
        end
    | _ => (Raise (NotADirectoryError (abs_path (cs ++ [c]))), w)
    end.
Proof.
  intros F C R.
  assert (Fc : Forall clean (cs ++ [c])).
  { apply Forall_app. split; [assumption|]. now constructor. }
  unfold os_mkdir. cbv zeta. rewrite rstrip_abs by (assumption || now destruct cs).
  change (nonempty (abs_path (cs ++ [c]))) with true. cbv iota.
  rewrite (entry_place_abs _ _ _ _ x F C R).
  destruct x as [| |es]; try reflexivity.
  apply clean_inv in C as (_ & _ & C3 & C4).
  apply str_eqb_neq in C3, C4. now rewrite C3, C4.
Qed.

Lemma mkdirs_snoc (cs : list str) (c : str) :
  forall n : node,
    mkdirs (cs ++ [c]) n
    = match mkdirs cs n with
      | Some n' =>
          match resolve n' cs with
          | Some (Dir es) =>
              match assoc c es with
              | Some (Dir _) => Some n'
              | Some _ => None
              | None => Some (update_dir cs (assoc_set c (Dir [])) n')
              end
          | _ => None
          end
      | None => None
      end.
Proof.
  induction cs as [|h cs IH]; intros n.
  - destruct n as [| |es]; try reflexivity.
    cbn [app mkdirs resolve update_dir].
    destruct (assoc c es) as [[| |es']|] eqn:A; try reflexivity.
    now rewrite (assoc_set_id _ _ _ A).
  - destruct n as [| |es]; try reflexivity.
    cbn [app mkdirs]. rewrite IH.
    destruct (mkdirs cs _) as [n1|]; [|reflexivity].
    cbn [resolve update_dir]. rewrite assoc_set_same.
    destruct (resolve n1 cs) as [[| |es1]|]; try reflexivity.
    destruct (assoc c es1) as [[| |]|]; try reflexivity.
    now rewrite assoc_set_twice.
Qed.

(** [os.mkdir] as [os.makedirs] calls it, for the last name of a path of
    entry names whose parent exists. *)
Lemma mkdir_or_exists (cs : list str) (c : str) (x : node) (w : World) :
  Forall clean cs -> clean c -> resolve (fs w) cs = Some x ->
  try_catch (os_mkdir (abs_path (cs ++ [c]))) is_OSError
    (fun e => d <- path_isdir (abs_path (cs ++ [c])) ;;
              if d then ret tt else raise e) w
  = match x with
    | Dir es =>
        match assoc c es with
        | Some (Dir _) => (Ret tt, w)
        | Some _ => (Raise (FileExistsError (abs_path (cs ++ [c]))), w)
        | None =>
            (Ret tt, set_fs (update_dir cs (assoc_set c (Dir [])) (fs w)) w)
        end
    | _ => (Raise (NotADirectoryError (abs_path (cs ++ [c]))), w)
    end.
Proof.
  intros F C R.
  assert (Fc : Forall clean (cs ++ [c])).
  { apply Forall_app. split; [assumption|]. now constructor. }
  assert (I : isdir (fs w) (cwd w) (abs_path (cs ++ [c]))
              = match x with
                | Dir es => match assoc c es with
                            | Some (Dir _) => true
                            | _ => false
                            end
                | _ => false
                end).
  { rewrite isdir_abs, resolve_app, R by assumption.
    destruct x as [| |es]; try reflexivity. cbn [resolve].
    now destruct (assoc c es) as [[| |]|]. }
  unfold try_catch. rewrite (mkdir_abs cs c x w F C R).
  destruct x as [| |es]; cbn [is_OSError];
    unfold bind, path_isdir, ret, raise; try (now rewrite I).
  destruct (assoc c es) as [v|]; [|reflexivity].
  cbn [is_OSError]. rewrite I. now destruct v.
Qed.

(** One call of [os.makedirs] for a path of entry names. *)
Lemma makedirs_fuel_abs (fuel : nat) (cs : list str) (c : str) (w : World) :
  Forall clean cs -> clean c ->
  makedirs_fuel (S fuel) (abs_path (cs ++ [c])) w
  = let mkdir :=
      try_catch (os_mkdir (abs_path (cs ++ [c]))) is_OSError
        (fun e => d <- path_isdir (abs_path (cs ++ [c])) ;;
                  if d then ret tt else raise e) in
    if os_path_exists (fs w) (cwd w) (abs_path cs) then mkdir w
    else match makedirs_fuel fuel (abs_path cs) w with
         | (Ret _, w') => mkdir w'
         | (Exit s, w') => (Exit s, w')
         | (Raise e, w') =>
             if is_FileExistsError e then mkdir w' else (Raise e, w')
         end.
Proof.
  intros F C. pose proof (clean_inv c C) as (C1 & C2 & C3 & _).
  cbn [makedirs_fuel]. unfold os_path_split.
  rewrite dirname_abs, basename_abs by assumption.
  assert (N : nonempty c = true) by now destruct c.
  apply str_eqb_neq in C3.
  rewrite N. cbv beta iota. change (nonempty (abs_path cs)) with true.
  rewrite N. cbn [andb].
  cbv zeta. unfold bind at 1 2. unfold path_exists at 1.
  destruct (os_path_exists (fs w) (cwd w) (abs_path cs)).
  - reflexivity.
  - unfold bind at 1. unfold try_catch at 1.
    destruct (makedirs_fuel fuel (abs_path cs) w) as [[[]|s|e] w'].
    + unfold ret at 1. now rewrite C3.
    + reflexivity.
    + destruct (is_FileExistsError e); [|reflexivity].
      unfold ret at 1 2. now rewrite C3.
Qed.

Lemma abs_path_longer (cs : list str) (c : str) :
  c <> [] -> length (abs_path cs) < length (abs_path (cs ++ [c])).
Proof.
  intros N. rewrite abs_path_snoc, !length_app.
  destruct c; [contradiction|]. destruct cs; cbn [length abs_path str_join]; lia.
Qed.

Lemma mkdirs_root (cs : list str) (n r : node) :
  mkdirs cs n = Some r -> is_dir_node n = true.
Proof. destruct cs, n; (discriminate || reflexivity). Qed.

Lemma exists_abs (root : node) (cwd : str) (cs : list str) :
  Forall clean cs -> is_dir_node root = true ->
  os_path_exists root cwd (abs_path cs)
  = match resolve root cs with Some _ => true | None => false end.
Proof.
  intros F D. unfold os_path_exists. rewrite lookup_abs by assumption.
  now destruct root.
Qed.

Lemma makedirs_root (fuel : nat) (w : World) :
  makedirs_fuel (S fuel) (abs_path []) w
  = if isdir (fs w) (cwd w) (abs_path []) then (Ret tt, w)
    else (Raise (FileExistsError (abs_path [])), w).
Proof.
  cbv -[isdir fs cwd]. now destruct (isdir _ _ _).
Qed.

(** [os.makedirs] makes the directories that are missing on the way. *)
Lemma makedirs_clean (cs : list str) :
  forall (fuel : nat) (w : World) (r : node),
    Forall clean cs -> length (abs_path cs) < fuel ->
    mkdirs cs (fs w) = Some r ->
    makedirs_fuel fuel (abs_path cs) w = (Ret tt, set_fs r w).
Proof.
  induction cs as [|c cs IH] using rev_ind; intros fuel w r F L H.
  - destruct fuel as [|fuel]; [inversion L|]. rewrite makedirs_root.
    rewrite (isdir_abs _ _ [] F). cbn [resolve mkdirs] in *.
    destruct (fs w) as [| |es] eqn:Q; try discriminate. injection H as <-.
    now rewrite <- Q, set_fs_same.
  - apply Forall_app in F as [F C]. apply Forall_inv in C.
    pose proof (abs_path_longer cs c (clean_not_nil c C)) as Lc.
    destruct fuel as [|fuel]; [inversion L|].
    rewrite mkdirs_snoc in H.
    destruct (mkdirs cs (fs w)) as [n'|] eqn:M; [|discriminate].
    destruct (resolve n' cs) as [x'|] eqn:R'; [|discriminate].
    pose proof (mkdirs_root _ _ _ M) as D.
    rewrite makedirs_fuel_abs by assumption. cbv zeta.
    assert (G : try_catch (os_mkdir (abs_path (cs ++ [c]))) is_OSError
                  (fun e => d <- path_isdir (abs_path (cs ++ [c])) ;;
                            if d then ret tt else raise e) (set_fs n' w)
                = (Ret tt, set_fs r w)).
    { rewrite (mkdir_or_exists cs c x' (set_fs n' w) F C R').
      destruct x' as [| |es']; try discriminate.
      destruct (assoc c es') as [[| |]|]; try discriminate;
        injection H as <-; reflexivity. }
    rewrite exists_abs by assumption.
    destruct (resolve (fs w) cs) as [x|] eqn:R.
    + destruct (mkdirs_keeps _ _ _ _ _ M R) as (x2 & R2 & _ & K).
      destruct (mkdirs_resolve _ _ _ M) as [es2 E2].
      rewrite E2 in R2. injection R2 as <-.
      destruct x as [| |es]; try discriminate.
      rewrite (mkdirs_existing _ _ _ R) in M. injection M as <-.
      now rewrite set_fs_same in G.
    + rewrite (IH fuel w n' F ltac:(lia) M). exact G.
Qed.

(** [os.makedirs] fails at the first name on the way that something else
    than a directory bears: with [FileExistsError] when it is the last name
    of the path, and with the [NotADirectoryError] of the [os.mkdir] for the
    name after it otherwise. *)
Lemma makedirs_obstructed (pre : list str) (c : str) (x : node)
  (post : list str) :
  forall (fuel : nat) (w : World),
    Forall clean (pre ++ c :: post) ->
    resolve (fs w) (pre ++ [c]) = Some x -> is_dir_node x = false ->
    length (abs_path (pre ++ c :: post)) < fuel ->
    makedirs_fuel fuel (abs_path (pre ++ c :: post)) w
    = (Raise (match post with
              | [] => FileExistsError (abs_path (pre ++ [c]))
              | d :: _ => NotADirectoryError (abs_path (pre ++ [c; d]))
              end), w).
Proof.
  induction post as [|d post IH] using rev_ind; intros fuel w F R X L.
  - apply Forall_app in F as [F C]. apply Forall_inv in C.
    destruct fuel as [|fuel]; [inversion L|].
    assert (D : is_dir_node (fs w) = true).
    { destruct (fs w); try reflexivity; destruct pre; discriminate. }
    rewrite resolve_app in R.
    destruct (resolve (fs w) pre) as [y|] eqn:Rp; [|discriminate].
    rewrite makedirs_fuel_abs by assumption. cbv zeta.
    rewrite exists_abs, Rp by assumption.
    rewrite (mkdir_or_exists pre c y w F C Rp).
    destruct y as [| |es]; try discriminate. cbn [resolve] in R.
    destruct (assoc c es) as [v|]; [|discriminate]. injection R as ->.
    now destruct x.
  - assert (E : pre ++ c :: post ++ [d] = (pre ++ c :: post) ++ [d])
      by now rewrite <- app_assoc.
    rewrite E in *. apply Forall_app in F as [F Cd]. apply Forall_inv in Cd.
    pose proof (abs_path_longer (pre ++ c :: post) d (clean_not_nil d Cd)) as Ld.
    destruct fuel as [|fuel]; [inversion L|].
    assert (D : is_dir_node (fs w) = true).
    { destruct (fs w); try reflexivity; destruct pre; discriminate. }
    rewrite makedirs_fuel_abs by assumption. cbv zeta.
    rewrite exists_abs by assumption.
    assert (Rx : resolve (fs w) (pre ++ c :: post) = resolve x post).
    { change (c :: post) with ([c] ++ post). now rewrite app_assoc, resolve_app, R. }
    rewrite Rx. destruct post as [|d0 post].
    + cbn [resolve].
      rewrite (mkdir_or_exists (pre ++ [c]) d x w F Cd R).
      cbn [app]. rewrite <- app_assoc. cbn [app].
      now destruct x.
    + assert (N : resolve x (d0 :: post) = None) by now destruct x.
      rewrite N, (IH fuel w F R X ltac:(lia)). reflexivity.
Qed.

Lemma mkdir_no_root (cs : list str) (c : str) (w : World) :
  Forall clean cs -> clean c -> is_dir_node (fs w) = false ->
  try_catch (os_mkdir (abs_path (cs ++ [c]))) is_OSError
    (fun e => d <- path_isdir (abs_path (cs ++ [c])) ;;
              if d then ret tt else raise e) w
  = (Raise (NotADirectoryError (abs_path (cs ++ [c]))), w).
Proof.
  intros F C D.
  assert (Fc : Forall clean (cs ++ [c])).
  { apply Forall_app. split; [assumption|]. now constructor. }
  assert (I : isdir (fs w) (cwd w) (abs_path (cs ++ [c])) = false).
  { unfold isdir. rewrite lookup_abs by assumption. now destruct (fs w). }
  assert (P : entry_place (fs w) (cwd w) (abs_path (cs ++ [c])) = inl ENOTDIR).
  { unfold entry_place. rewrite path_comps_abs, split_abs by assumption.
    assert (E : match cs ++ [c] with [] => [[]] | _ :: _ => cs ++ [c] end
                = cs ++ [c]) by now destruct cs.
    rewrite E. change ([] :: cs ++ [c]) with (([] :: cs) ++ [c]).
    rewrite removelast_last. cbn [traverse resolve]. now destruct (fs w). }
  unfold try_catch, os_mkdir. cbv zeta.
  rewrite rstrip_abs by (assumption || now destruct cs).
  change (nonempty (abs_path (cs ++ [c]))) with true. cbv iota.
  rewrite P. cbn [os_error is_OSError].
  unfold bind, path_isdir, raise. now rewrite I.
Qed.

Lemma makedirs_no_root (cs : list str) :
  forall (fuel : nat) (w : World),
    Forall clean cs -> is_dir_node (fs w) = false ->
    length (abs_path cs) < fuel ->
    exists e, makedirs_fuel fuel (abs_path cs) w = (Raise e, w).
Proof.
  induction cs as [|c cs IH] using rev_ind; intros fuel w F D L.
  - destruct fuel as [|fuel]; [inversion L|]. rewrite makedirs_root.
    rewrite (isdir_abs _ _ [] F). cbn [resolve].
    destruct (fs w); try discriminate; eauto.
  - apply Forall_app in F as [F C]. apply Forall_inv in C.
    pose proof (abs_path_longer cs c (clean_not_nil c C)) as Lc.
    destruct fuel as [|fuel]; [inversion L|].
    rewrite makedirs_fuel_abs by assumption. cbv zeta.
    assert (X : os_path_exists (fs w) (cwd w) (abs_path cs) = false).
    { unfold os_path_exists. rewrite lookup_abs by assumption.
      now destruct (fs w). }
    rewrite X. destruct (IH fuel w F D ltac:(lia)) as [e ->].
    rewrite (mkdir_no_root cs c w F C D).
    destruct (is_FileExistsError e); eauto.
Qed.

Lemma mkdirs_none_inv (cs : list str) :
  forall n : node,
    mkdirs cs n = None ->
    is_dir_node n = false
    \/ exists pre c post x,
         cs = pre ++ c :: post /\ resolve n (pre ++ [c]) = Some x
         /\ is_dir_node x = false.
Proof.
  induction cs as [|h cs IH]; intros n H.
  - left. now destruct n.
  - destruct n as [| |es]; try (now left). right. cbn [mkdirs] in H.
    destruct (mkdirs cs _) as [child'|] eqn:M; [discriminate|].
    destruct (IH _ M) as [D|(pre & c & post & x & -> & R & D)].
    + destruct (assoc h es) as [child|] eqn:A; [|discriminate].
      exists [], h, cs, child. cbn [app resolve]. now rewrite A.
    + destruct (assoc h es) as [child|] eqn:A.
      * exists (h :: pre), c, post, x. cbn [app resolve]. now rewrite A.
      * destruct pre; discriminate.
Qed.

(** [os.makedirs] for a path of entry names: the tree of [mkdirs], or an
    exception that leaves the world as it is. *)
Lemma os_makedirs_clean (cs : list str) (w : World) (r : node) :
  Forall clean cs -> mkdirs cs (fs w) = Some r ->
  os_makedirs (abs_path cs) w = (Ret tt, set_fs r w).
Proof.
  intros F H. unfold os_makedirs. apply makedirs_clean; [assumption|lia|assumption].
Qed.

Lemma os_makedirs_fails (cs : list str) (w : World) :
  Forall clean cs -> mkdirs cs (fs w) = None ->
  exists e, os_makedirs (abs_path cs) w = (Raise e, w).
Proof.
  intros F H. unfold os_makedirs.
  destruct (mkdirs_none_inv cs _ H) as [D|(pre & c & post & x & -> & R & D)].
  - apply makedirs_no_root; [assumption|assumption|lia].
  - rewrite (makedirs_obstructed pre c x post _ w F R D); [eauto|lia].
Qed.

(** *** The recursion of [os.makedirs] ends *)

Lemma lstrip_length (c : ascii) (s : str) : length (lstrip c s) <= length s.
Proof.
  induction s as [|x s IH]; cbn [lstrip length]; [lia|].
  destruct (Ascii.eqb x c); cbn [length]; lia.
Qed.

Lemma rstrip_length (c : ascii) (s : str) : length (rstrip c s) <= length s.
Proof.
  unfold rstrip. rewrite length_rev, <- (length_rev s). apply lstrip_length.
Qed.

Lemma cut_last_sep_eq (p : str) :
  fst (cut_last_sep p) ++ snd (cut_last_sep p) = p.
Proof.
  induction p as [|c p IH]; [reflexivity|].
  cbn [cut_last_sep]. destruct (cut_last_sep p) as [h t]. cbn [fst snd] in IH.
  destruct h as [|x h].
  - cbn [app] in IH. subst t. now destruct (Ascii.eqb c sep).
  - cbn [fst snd app] in *. now rewrite IH.
Qed.

Lemma split_length (p : str) :
  length (os_path_dirname p) + length (os_path_basename p) <= length p.
Proof.
  rewrite <- (cut_last_sep_eq p) at 3. rewrite length_app.
  unfold os_path_dirname, os_path_basename.
  destruct (fst (cut_last_sep p)) as [|x h] eqn:E; [cbn; lia|].
  destruct (all_sep (x :: h)); [lia|].
  pose proof (rstrip_length sep (x :: h)). lia.
Qed.

Lemma nonempty_length (s : str) : nonempty s = true -> 0 < length s.
Proof. destruct s; [discriminate|cbn; lia]. Qed.

(** [os.makedirs] calls itself for a shorter path, so fuel beyond the length
    of the path makes no difference. *)
Lemma makedirs_fuel_enough (f1 : nat) :
  forall (f2 : nat) (name : str) (w : World),
    length name < f1 -> length name < f2 ->
    makedirs_fuel f1 name w = makedirs_fuel f2 name w.
Proof.
  induction f1 as [|f1 IH]; intros f2 name w L1 L2; [inversion L1|].
  destruct f2 as [|f2]; [inversion L2|].
  cbn [makedirs_fuel]. unfold os_path_split.
  pose proof (split_length name) as Ln.
  pose proof (split_length (os_path_dirname name)) as Ld.
  destruct (nonempty (os_path_basename name)) eqn:N1; cbv beta iota.
  - destruct (nonempty (os_path_dirname name)); cbn [andb]; [|reflexivity].
    rewrite N1. apply nonempty_length in N1.
    unfold bind, path_exists, ret, try_catch. cbv beta.
    destruct (os_path_exists _ _ _); [reflexivity|].
    now rewrite (IH f2 (os_path_dirname name) w) by lia.
  - destruct (nonempty (os_path_dirname (os_path_dirname name))); cbn [andb];
      [|reflexivity].
    destruct (nonempty (os_path_basename (os_path_dirname name))) eqn:N2;
      [|reflexivity].
    apply nonempty_length in N2.
    unfold bind, path_exists, ret, try_catch. cbv beta.
    destruct (os_path_exists _ _ _); [reflexivity|].
    now rewrite (IH f2 (os_path_dirname (os_path_dirname name)) w) by lia.
Qed.

(** *** [os.walk] *)

Lemma walk_Dir (top : str) (es : list (str * node)) :
  walk top (Dir es)
  = (top, dirnames es, nondirnames es)
      :: flat_map (fun e => walk (os_path_join top (fst e)) (snd e)) es.
Proof.
  cbn [walk]. f_equal.
  induction es as [|[k v] es IH]; [reflexivity|].
  cbn [flat_map fst snd]. now rewrite IH.
Qed.

Lemma collect_cons (r : bool) (t : str * list str * list str)
  (rest : list (str * list str * list str)) :
  collect r (t :: rest) = files_of t ++ (if r then collect r rest else []).
Proof. now destruct t as [[root ds] fs]. Qed.

Lemma collect_app (a b : list (str * list str * list str)) :
  collect true (a ++ b) = collect true a ++ collect true b.
Proof.
  induction a as [|t a IH]; [reflexivity|].
  cbn [app]. rewrite !collect_cons, IH. now rewrite app_assoc.
Qed.

Lemma collect_flat_map (A : Type) (f : A -> list (str * list str * list str))
  (l : list A) :
  collect true (flat_map f l) = flat_map (fun x => collect true (f x)) l.
Proof.
  induction l as [|x l IH]; [reflexivity|].
  cbn [flat_map]. now rewrite collect_app, IH.
Qed.

Lemma in_nondirnames (k : str) (es : list (str * node)) :
  In k (nondirnames es) <-> exists v, In (k, v) es /\ is_dir_node v = false.
Proof.
  unfold nondirnames. rewrite in_map_iff. split.
  - intros ([k' v] & <- & I). apply filter_In in I as [I D].
    exists v. split; [assumption|]. now apply negb_true_iff in D.
  - intros (v & I & D). exists (k, v). split; [reflexivity|].
    apply filter_In. split; [assumption|]. cbn. now rewrite D.
Qed.

(** The [cmake] files directly in a directory. *)
Lemma in_direct (cs : list str) (es : list (str * node)) (p : str) :
  wf_node (Dir es) = true -> Forall clean cs ->
  (In p (files_of (abs_path cs, dirnames es, nondirnames es))
   <-> exists name x, resolve (Dir es) [name] = Some x /\ is_dir_node x = false
                      /\ is_cmake name = true /\ p = abs_path (cs ++ [name])).
Proof.
  intros W F. apply wf_node_inv in W as [ND W].
  rewrite Forall_forall in W.
  cbn [files_of]. rewrite in_map_iff. split.
  - intros (name & <- & I). apply filter_In in I as [I C].
    apply in_nondirnames in I as (v & I & D).
    exists name, v. cbn [resolve]. rewrite (in_assoc _ _ _ ND I).
    repeat split; try assumption.
    apply join_abs; [assumption|]. exact (proj1 (W _ I)).
  - intros (name & x & R & D & C & ->). cbn [resolve] in R.
    destruct (assoc name es) as [v|] eqn:A; [|discriminate]. injection R as ->.
    apply assoc_in in A. exists name. split.
    + apply join_abs; [assumption|]. exact (proj1 (W _ A)).
    + apply filter_In. split; [|assumption]. apply in_nondirnames. eauto.
Qed.

(** The [cmake] files below a directory, at any depth. *)
Lemma in_collect_walk (n : node) :
  forall (cs : list str) (p : str),
    wf_node n = true -> Forall clean cs ->
    (In p (collect true (walk (abs_path cs) n))
     <-> exists rel name x,
           resolve n (rel ++ [name]) = Some x /\ is_dir_node x = false
           /\ is_cmake name = true /\ p = abs_path (cs ++ rel ++ [name])).
Proof.
  induction n as [c| |es IH] using node_induction; intros cs p W F.
  - cbn. split; [tauto|]. intros (rel & name & x & R & _).
    destruct rel; discriminate.
  - cbn. split; [tauto|]. intros (rel & name & x & R & _).
    destruct rel; discriminate.
  - rewrite walk_Dir, collect_cons, collect_flat_map, in_app_iff, in_flat_map.
    rewrite (in_direct cs es p W F).
    pose proof (wf_node_inv _ W) as [ND Wes].
    rewrite Forall_forall in IH, Wes.
    split.
    + intros [(name & x & R & D & C & ->) | ([k v] & I & H)].
      * exists [], name, x. auto.
      * cbn [fst snd] in H. destruct (Wes _ I) as [Ck Wv]. cbn [fst snd] in *.
        rewrite join_abs in H by assumption.
        apply (IH _ I) in H; [|assumption|].
        2:{ apply Forall_app. split; [assumption|]. now constructor. }
        destruct H as (rel & name & x & R & D & C & ->).
        exists (k :: rel), name, x. cbn [app resolve].
        rewrite (in_assoc _ _ _ ND I). repeat split; try assumption.
        now rewrite <- !app_assoc.
    + intros (rel & name & x & R & D & C & ->).
      destruct rel as [|k rel].
      * left. exists name, x. auto.
      * right. cbn [app resolve] in R.
        destruct (assoc k es) as [v|] eqn:A; [|discriminate].
        apply assoc_in in A. exists (k, v). split; [assumption|].
        cbn [fst snd]. destruct (Wes _ A) as [Ck Wv]. cbn [fst snd] in *.
        rewrite join_abs by assumption.
        apply (IH _ A); [assumption| |].
        { apply Forall_app. split; [assumption|]. now constructor. }
        exists rel, name, x. repeat split; try assumption.
        now rewrite <- !app_assoc.
Qed.

(* ================================================================= *)
(** ** File names *)

(** Lowering gives [cmake] for the thirty-two spellings of the word, and for
    nothing else. *)
Lemma lower_cmake (ext : str) : str_lower ext = lit "cmake" <-> cmake_any_case ext.
Proof.
  split.
  - destruct ext as [|c [|m [|a [|k [|e [|x ext]]]]]]; try discriminate.
    intros H. injection H as Hc Hm Ha Hk He.
    exists c, m, a, k, e. split; [reflexivity|].
    repeat split.
    + revert Hc. clear. destruct c as [[] [] [] [] [] [] [] []]; cbv; intros H;
        try discriminate H; auto.
    + revert Hm. clear. destruct m as [[] [] [] [] [] [] [] []]; cbv; intros H;
        try discriminate H; auto.
    + revert Ha. clear. destruct a as [[] [] [] [] [] [] [] []]; cbv; intros H;
        try discriminate H; auto.
    + revert Hk. clear. destruct k as [[] [] [] [] [] [] [] []]; cbv; intros H;
        try discriminate H; auto.
    + revert He. clear. destruct e as [[] [] [] [] [] [] [] []]; cbv; intros H;
        try discriminate H; auto.
  - intros (c & m & a & k & e & -> & [-> | ->] & [-> | ->] & [-> | ->]
            & [-> | ->] & [-> | ->]); reflexivity.
Qed.

Lemma any_case_no_dot (ext : str) : cmake_any_case ext -> ~ In "."%char ext.
Proof.
  intros (c & m & a & k & e & -> & Hc & Hm & Ha & Hk & He) I.
  cbn [In] in I.
  destruct I as [->|[->|[->|[->|[->|[]]]]]];
    [destruct Hc|destruct Hm|destruct Ha|destruct Hk|destruct He]; discriminate.
Qed.

Lemma is_cmake_spec (name : str) :
  is_cmake name = true <-> has_cmake_extension name.
Proof.
  unfold is_cmake, has_cmake_extension, last_item. rewrite str_eqb_eq.
  destruct (last_occurrence "."%char name) as [N | (a & b & -> & N)].
  - rewrite (str_split_free _ _ N). cbn [last]. split.
    + intros H. exists name. split; [|now left]. apply lower_cmake. now symmetry.
    + intros (ext & L & [->|(stem & ->)]); [symmetry; now apply lower_cmake|].
      exfalso. apply N, in_or_app. right. now left.
  - rewrite (last_split _ a b N). split.
    + intros H. exists b. split; [apply lower_cmake; now symmetry|].
      right. now exists a.
    + intros (ext & L & [Q|(stem & Q)]).
      * exfalso. apply (any_case_no_dot ext L). rewrite <- Q.
        apply in_or_app. right. now left.
      * pose proof (any_case_no_dot ext L) as E.
        assert (X : last (str_split "."%char (a ++ "."%char :: b)) []
                    = last (str_split "."%char (stem ++ "."%char :: ext)) [])
          by now rewrite Q.
        rewrite !last_split in X by assumption. subst b.
        symmetry. now apply lower_cmake.
Qed.

Lemma rst_name_abs (cs : list str) (name : str) :
  ~ In sep name ->
  rst_name (abs_path (cs ++ [name]))
  = str_join (lit ".") (but_last (str_split "."%char name)) ++ lit ".rst".
Proof. intros H. unfold rst_name. now rewrite basename_abs. Qed.

Lemma rst_name_ext (cs : list str) (stem ext : str) :
  ~ In sep (stem ++ "."%char :: ext) -> ~ In "."%char ext ->
  rst_name (abs_path (cs ++ [stem ++ "."%char :: ext])) = stem ++ lit ".rst".
Proof.
  intros H E. rewrite rst_name_abs by assumption. unfold but_last.
  rewrite removelast_split by assumption.
  change (lit ".") with ["."%char]. now rewrite str_join_split.
Qed.

Lemma rst_name_no_ext (cs : list str) (name : str) :
  ~ In sep name -> ~ In "."%char name ->
  rst_name (abs_path (cs ++ [name])) = lit ".rst".
Proof.
  intros H E. rewrite rst_name_abs by assumption. unfold but_last.
  now rewrite str_split_free.
Qed.

Lemma clean_rst (stem : str) : ~ In sep stem -> clean (stem ++ lit ".rst").
Proof.
  intros H. unfold clean, cleanb.
  assert (A : nonempty (stem ++ lit ".rst") = true) by now destruct stem.
  assert (B : existsb (fun x => Ascii.eqb x sep) (stem ++ lit ".rst") = false).
  { rewrite existsb_app. apply orb_false_iff. split; [|reflexivity].
    now apply existsb_eqb_false. }
  assert (L : 4 <= length (stem ++ lit ".rst")).
  { rewrite length_app. cbn. lia. }
  assert (C : str_eqb (stem ++ lit ".rst") dot = false).
  { apply str_eqb_neq. intros Q. rewrite Q in L. cbn in L. lia. }
  assert (E : str_eqb (stem ++ lit ".rst") dotdot = false).
  { apply str_eqb_neq. intros Q. rewrite Q in L. cbn in L. lia. }
  now rewrite A, B, C, E.
Qed.

Lemma clean_rst_name (cs : list str) (name : str) :
  ~ In sep name -> clean (rst_name (abs_path (cs ++ [name]))).
Proof.
  intros H. destruct (last_occurrence "."%char name) as [N | (a & b & -> & N)].
  - rewrite rst_name_no_ext by assumption. now apply (clean_rst []).
  - rewrite rst_name_ext by assumption. apply clean_rst.
    intros I. apply H, in_or_app. now left.
Qed.

(* ================================================================= *)
(** ** The driver *)

Lemma for_each_app (A : Type) (a b : list A) (body : A -> M unit) (w : World) :
  for_each (a ++ b) body w
  = match for_each a body w with
    | (Ret _, w') => for_each b body w'
    | (Exit s, w') => (Exit s, w')
    | (Raise e, w') => (Raise e, w')
    end.
Proof.
  revert w. induction a as [|x a IH]; intros w; [reflexivity|].
  cbn [app for_each]. unfold bind.
  destruct (body x w) as [[[]|s|e] w']; auto.
Qed.

Lemma for_each_fails (A : Type) (x : A) (l : list A) (body : A -> M unit)
  (w w' : World) (o : outcome unit) :
  body x w = (o, w') -> o <> Ret tt -> for_each (x :: l) body w = (o, w').
Proof.
  intros H N. cbn [for_each]. unfold bind. rewrite H.
  destruct o as [[]|s|e]; [contradiction|reflexivity|reflexivity].
Qed.

Lemma main_eq {D : DocumenterAPI} (files : list str) (output : option str)
  (recursive : bool) (w : World) :
  main (mkArgs files output recursive) w
  = for_each files (fun input => document input (output_path_of output w) recursive)
      (announce output w).
Proof. unfold main. destruct output; reflexivity. Qed.

Lemma document_special {D : DocumenterAPI} (f : str) (op : option str)
  (recursive : bool) (w : World) :
  isdir (fs w) (cwd w) (os_path_abspath (cwd w) f) = false ->
  isfile (fs w) (cwd w) (os_path_abspath (cwd w) f) = false ->
  document f op recursive w
  = (Exit 1%Z,
     mkWorld (fs w) (cwd w) (stdout w)
       (stderr w ++ [lit "File is a special file (socket, FIFO, device file) and is unsupported"])).
Proof.
  intros H1 H2. unfold document, select_files, bind, abspath, path_isdir, path_isfile.
  now rewrite H1, H2.
Qed.

Lemma str_join_app (s : str) (a b : list str) :
  a <> [] -> b <> [] -> str_join s (a ++ b) = str_join s a ++ s ++ str_join s b.
Proof.
  intros A B. induction a as [|x a IH]; [contradiction|].
  destruct a as [|y a].
  - destruct b; [contradiction|reflexivity].
  - change (str_join s ((x :: y :: a) ++ b))
      with (x ++ s ++ str_join s ((y :: a) ++ b)).
    rewrite IH by discriminate.
    change (str_join s (x :: y :: a)) with (x ++ s ++ str_join s (y :: a)).
    now rewrite <- !app_assoc.
Qed.

Lemma rel_path_startswith (l : list str) :
  Forall clean l -> startswith [sep] (rel_path l) = false.
Proof.
  intros F. destruct l as [|c l]; [reflexivity|].
  inversion F as [|? ? C _]; subst.
  pose proof (clean_startswith c C) as S.
  destruct c as [|x c]; [now apply clean_not_nil in C|].
  unfold rel_path. destruct l; exact S.
Qed.

Lemma join_abs_rel (cs l : list str) :
  Forall clean cs -> Forall clean l -> l <> [] ->
  os_path_join (abs_path cs) (rel_path l) = abs_path (cs ++ l).
Proof.
  intros F L N. unfold os_path_join. rewrite (rel_path_startswith l L).
  destruct cs as [|y cs]; [reflexivity|].
  assert (R : abs_path ((y :: cs) ++ l) = abs_path (y :: cs) ++ sep :: rel_path l).
  { unfold abs_path, rel_path.
    now rewrite str_join_app by (discriminate || assumption). }
  rewrite R.
  destruct (join_ends_not_sep (y :: cs)) as (b & x & E & X);
    [discriminate|assumption|].
  assert (Q : abs_path (y :: cs) = (sep :: b) ++ [x]).
  { unfold abs_path. now rewrite E. }
  rewrite Q. destruct ((sep :: b) ++ [x]) eqn:T; [discriminate|]. rewrite <- T.
  rewrite last_snoc.
  destruct (Ascii.eqb x sep) eqn:U; [|reflexivity].
  apply Ascii.eqb_eq in U. contradiction.
Qed.

(** ** The claims about [main.py] *)

(** C9: when [output_path] is given and is not an existing directory at the
    time of writing, [document] prints its progress line for the file and
    nothing else: no file is written (the file system stays as the Documenter
    left it), the rendered text is not printed, and the call returns without
    error. *)
Theorem output_discarded_without_directory {D : DocumenterAPI}
  (input_path output_path file : str) (w w1 : World) (ow : RenderedOutput) :
  process file
    (if isdir (fs w) (cwd w) input_path
     then os_path_relpath (cwd w) file input_path else file) w = (Ret ow, w1) ->
  isdir (fs w1) (cwd w1) output_path = false ->
  document_file input_path (Some output_path) file w
  = (Ret tt,
     mkWorld (fs w1) (cwd w1) (stdout w1 ++ [lit "Writing for file " ++ file])
       (stderr w1)).
Proof.
  intros P O. unfold document_file, bind, path_isdir, relpath, ret.
  destruct (isdir (fs w) (cwd w) input_path); rewrite P; cbn; now rewrite O.
Qed.

(** C1, as amended: a failing input ends the whole run.  When the inputs
    before [f] have been documented and [document f] fails, [main] ends with
    that failure in the state in which [document f] left the world, whatever
    inputs follow; an input that is neither a directory nor a regular file
    fails with exit status 1 after its message on standard error. *)
Theorem run_stops_at_first_failure {D : DocumenterAPI}
  (pre post : list str) (f : str) (output : option str) (recursive : bool)
  (w w1 : World) :
  main (mkArgs pre output recursive) w = (Ret tt, w1) ->
  (forall (o : outcome unit) (w2 : World),
      document f (output_path_of output w) recursive w1 = (o, w2) ->
      o <> Ret tt ->
      main (mkArgs (pre ++ f :: post) output recursive) w = (o, w2))
  /\ (isdir (fs w1) (cwd w1) (os_path_abspath (cwd w1) f) = false ->
      isfile (fs w1) (cwd w1) (os_path_abspath (cwd w1) f) = false ->
      main (mkArgs (pre ++ f :: post) output recursive) w
      = (Exit 1%Z,
         mkWorld (fs w1) (cwd w1) (stdout w1)
           (stderr w1 ++ [lit "File is a special file (socket, FIFO, device file) and is unsupported"]))).
Proof.
  intros H. rewrite main_eq in H.
  assert (G : forall o w2,
             document f (output_path_of output w) recursive w1 = (o, w2) ->
             o <> Ret tt ->
             main (mkArgs (pre ++ f :: post) output recursive) w = (o, w2)).
  { intros o w2 Hd N. rewrite main_eq, for_each_app, H.
    now apply for_each_fails. }
  split; [exact G|].
  intros H1 H2. apply G; [|discriminate].
  now apply document_special.
Qed.

Lemma all_succeed_for_each {D : DocumenterAPI} (op : option str)
  (recursive : bool) (l : list str) (w w' : World) :
  all_succeed op recursive l w w' ->
  for_each l (fun input => document input op recursive) w = (Ret tt, w').
Proof.
  induction 1 as [w|f l w w1 w2 H _ IH]; [reflexivity|].
  cbn [for_each]. unfold bind. now rewrite H.
Qed.

(** C4, as amended: the run ends with status 0 when every input is documented
    without failure; when an input fails after the ones before it succeeded,
    the run ends with the status of that failure, whether or not other inputs
    succeeded or would succeed: status 1 for an input that is neither a
    directory nor a regular file, and status 1 for an exception.  What is
    written to standard error has no part in the status. *)
Theorem exit_status_of_run {D : DocumenterAPI}
  (pre post : list str) (f : str) (output : option str) (recursive : bool)
  (w w1 : World) :
  all_succeed (output_path_of output w) recursive pre (announce output w) w1 ->
  exit_status (fst (main (mkArgs pre output recursive) w)) = 0%Z
  /\ (forall (o : outcome unit) (w2 : World),
         document f (output_path_of output w) recursive w1 = (o, w2) ->
         o <> Ret tt ->
         exit_status (fst (main (mkArgs (pre ++ f :: post) output recursive) w))
         = exit_status o
         /\ (forall e, o = Raise e ->
               exit_status
                 (fst (main (mkArgs (pre ++ f :: post) output recursive) w)) = 1%Z))
  /\ (isdir (fs w1) (cwd w1) (os_path_abspath (cwd w1) f) = false ->
      isfile (fs w1) (cwd w1) (os_path_abspath (cwd w1) f) = false ->
      exit_status (fst (main (mkArgs (pre ++ f :: post) output recursive) w)) = 1%Z).
Proof.
  intros S. apply all_succeed_for_each in S.
  assert (G : forall o w2,
             document f (output_path_of output w) recursive w1 = (o, w2) ->
             o <> Ret tt ->
             fst (main (mkArgs (pre ++ f :: post) output recursive) w) = o).
  { intros o w2 Hd N. rewrite main_eq, for_each_app, S.
    now rewrite (for_each_fails _ f post _ w1 w2 o Hd N). }
  split; [now rewrite main_eq, S|]. split.
  - intros o w2 Hd N. rewrite (G o w2 Hd N). split; [reflexivity|].
    now intros e ->.
  - intros H1 H2.
    rewrite (G _ _ (document_special f _ recursive w1 H1 H2)); [reflexivity|discriminate].
Qed.

(** The selection in a directory is read off its walk. *)
Lemma select_files_walk (cs : list str) (es : list (str * node))
  (recursive : bool) (w : World) :
  Forall clean cs ->
  resolve (fs w) cs = Some (Dir es) ->
  select_files (abs_path cs) recursive w
  = (Ret (collect recursive (walk (abs_path cs) (Dir es))), w).
Proof.
  intros F R. unfold select_files, bind, path_isdir, walk_all, ret, os_walk.
  rewrite isdir_abs, R by assumption.
  now rewrite (lookup_abs_dir _ _ _ es F R).
Qed.

(** The selection in a directory whose path is made of entry names. *)
Lemma select_files_dir (cs : list str) (es : list (str * node))
  (recursive : bool) (w : World) :
  Forall clean cs ->
  resolve (fs w) cs = Some (Dir es) ->
  wf_node (Dir es) = true ->
  exists files,
    select_files (abs_path cs) recursive w = (Ret files, w)
    /\ forall p,
         In p files
         <-> exists rel name x,
               resolve (Dir es) (rel ++ [name]) = Some x
               /\ is_dir_node x = false
               /\ has_cmake_extension name
               /\ p = abs_path (cs ++ rel ++ [name])
               /\ (recursive = false -> rel = []).
Proof.
  intros F R W.
  exists (collect recursive (walk (abs_path cs) (Dir es))). split.
  - now apply select_files_walk.
  - intros p. destruct recursive.
    + rewrite (in_collect_walk (Dir es) cs p W F). split.
      * intros (rel & name & x & H1 & H2 & H3 & H4).
        exists rel, name, x. rewrite <- is_cmake_spec.
        repeat split; try assumption. discriminate.
      * intros (rel & name & x & H1 & H2 & H3 & H4 & _).
        exists rel, name, x. now rewrite is_cmake_spec.
    + rewrite walk_Dir, collect_cons, app_nil_r.
      rewrite (in_direct cs es p W F). split.
      * intros (name & x & H1 & H2 & H3 & H4).
        exists [], name, x. rewrite <- is_cmake_spec. auto.
      * intros (rel & name & x & H1 & H2 & H3 & H4 & H5).
        rewrite (H5 eq_refl) in *. exists name, x. now rewrite is_cmake_spec.
Qed.

Lemma wf_resolve (cs : list str) (n m : node) :
  wf_node n = true -> resolve n cs = Some m -> wf_node m = true.
Proof.
  revert n. induction cs as [|c cs IH]; intros n W R.
  - now injection R as <-.
  - destruct n as [| |es]; try discriminate. cbn [resolve] in R.
    destruct (assoc c es) as [child|] eqn:A; [|discriminate].
    apply wf_node_inv in W as [_ W]. rewrite Forall_forall in W.
    apply assoc_in in A. apply (IH child); [|assumption].
    exact (proj2 (W _ A)).
Qed.

(** C8: for every input that names a directory, [document] selects exactly
    the entries below it that are not directories and whose name has [cmake]
    as its final dot-separated component, whatever the case of its letters:
    with [recursive] the ones at any depth, without it the ones directly in
    the directory. *)
Theorem cmake_files_selected {D : DocumenterAPI} (file : str)
  (output_path : option str) (ccs : list str) (recursive : bool) (w : World) :
  cwd w = abs_path ccs -> Forall clean ccs -> wf_node (fs w) = true ->
  startswith [sep; sep] file && negb (startswith [sep; sep; sep] file) = false ->
  isdir (fs w) (cwd w) (os_path_abspath (cwd w) file) = true ->
  exists cs es files,
    os_path_abspath (cwd w) file = abs_path cs
    /\ resolve (fs w) cs = Some (Dir es)
    /\ select_files (os_path_abspath (cwd w) file) recursive w = (Ret files, w)
    /\ document file output_path recursive w
       = for_each files (document_file (abs_path cs) output_path) w
    /\ forall p,
         In p files
         <-> exists rel name x,
               resolve (Dir es) (rel ++ [name]) = Some x
               /\ is_dir_node x = false
               /\ has_cmake_extension name
               /\ p = abs_path (cs ++ rel ++ [name])
               /\ (recursive = false -> rel = []).
Proof.
  intros Cw F W S I. rewrite Cw in *.
  destruct (abspath_shape ccs file F S) as (cs & Fc & E).
  rewrite E in *. rewrite <- Cw in *.
  rewrite isdir_abs in I by assumption.
  destruct (resolve (fs w) cs) as [[| |es]|] eqn:R; try discriminate.
  exists cs, es.
  destruct (select_files_dir cs es recursive w Fc R (wf_resolve _ _ _ W R))
    as (files & H1 & H2).
  exists files. repeat split; try assumption; try apply H2.
  unfold document, bind, abspath. now rewrite E, H1.
Qed.

(** C10: when [output_path] is an existing directory, the file is written at
    [output_path], under the sub-directories that lead to the input file
    below an input directory (none for an input that is a file), under the
    name of the input file with its final dot-separated component replaced
    by [rst] (a name without dot gives [.rst]); [os.makedirs] has made the
    directory of that path, and left what was there as it was, before
    [write_to_file] is called with it. *)
Theorem output_file_location {D : DocumenterAPI}
  (from_dir : bool) (ics ocs ds : list str) (name : str) (w w1 : World)
  (ow : RenderedOutput) :
  let file := abs_path (ics ++ ds ++ [name]) in
  let input_path := if from_dir then abs_path ics else file in
  let header_name := if from_dir then rel_path (ds ++ [name]) else file in
  let subdirs := if from_dir then ds else [] in
  let output_filename := abs_path (ocs ++ subdirs ++ [rst_name file]) in
  Forall clean ics -> Forall clean ocs -> Forall clean ds -> clean name ->
  isdir (fs w) (cwd w) input_path = from_dir ->
  process file header_name w = (Ret ow, w1) ->
  isdir (fs w1) (cwd w1) input_path = from_dir ->
  isdir (fs w1) (cwd w1) (abs_path ocs) = true ->
  unobstructed (fs w1) (ocs ++ subdirs) = true ->
  (forall stem ext,
      name = stem ++ "."%char :: ext -> ~ In "."%char ext ->
      rst_name file = stem ++ lit ".rst")
  /\ (~ In "."%char name -> rst_name file = lit ".rst")
  /\ exists root2,
       mkdirs (ocs ++ subdirs) (fs w1) = Some root2
       /\ isdir root2 (cwd w1) (os_path_dirname output_filename) = true
       /\ (forall p x, resolve (fs w1) p = Some x -> is_dir_node x = false ->
                       resolve root2 p = Some x)
       /\ (isdir (fs w1) (cwd w1) (os_path_dirname output_filename) = true ->
           root2 = fs w1)
       /\ document_file input_path (Some (abs_path ocs)) file w
          = write_to_file ow output_filename
              (mkWorld root2 (cwd w1)
                 (stdout w1 ++ [lit "Writing for file " ++ file;
                                lit "Writing RST file " ++ output_filename])
                 (stderr w1)).
Proof.
  intros file input_path header_name subdirs output_filename
    Fi Fo Fd Cn I1 P I2 O U.
  pose proof (clean_no_sep name Cn) as Ns.
  assert (Ef : file = abs_path ((ics ++ ds) ++ [name])).
  { unfold file. now rewrite <- app_assoc. }
  assert (Cr : clean (rst_name file)).
  { rewrite Ef. now apply clean_rst_name. }
  assert (Fs : Forall clean (ocs ++ subdirs)).
  { apply Forall_app. split; [assumption|]. unfold subdirs.
    destruct from_dir; [assumption|constructor]. }
  split; [|split].
  - intros stem ext -> E. rewrite Ef. now apply rst_name_ext.
  - intros E. rewrite Ef. now apply rst_name_no_ext.
  - destruct (mkdirs_total _ _ U) as [root2 Mk].
    assert (Eo : output_filename = abs_path ((ocs ++ subdirs) ++ [rst_name file])).
    { unfold output_filename. now rewrite <- app_assoc. }
    assert (Dn : os_path_dirname output_filename = abs_path (ocs ++ subdirs)).
    { rewrite Eo. apply dirname_abs; [assumption|]. now apply clean_no_sep. }
    exists root2. split; [assumption|]. split; [|split; [|split]].
    + rewrite Dn, isdir_abs by assumption.
      destruct (mkdirs_resolve _ _ _ Mk) as [es ->]. reflexivity.
    + intros q x Rq Nd.
      destruct (mkdirs_keeps _ _ _ q x Mk Rq) as (x' & Rx & Ex & _).
      now rewrite Rx, (Ex Nd).
    + rewrite Dn, isdir_abs by assumption. intros Ex.
      destruct (resolve (fs w1) (ocs ++ subdirs)) as [[| |es]|] eqn:Rd;
        try discriminate.
      rewrite (mkdirs_existing _ _ _ Rd) in Mk. now injection Mk.
    + assert (Hn : (if isdir (fs w) (cwd w) input_path
                    then os_path_relpath (cwd w) file input_path else file)
                   = header_name).
      { rewrite I1. unfold header_name, input_path, file.
        destruct from_dir; [|reflexivity].
        apply relpath_under; [assumption| |now destruct ds].
        apply Forall_app. split; [assumption|]. now constructor. }
      assert (Of : (if isdir (fs w1) (cwd w1) input_path
                    then os_path_join (abs_path ocs)
                           (os_path_join
                              (os_path_dirname
                                 (os_path_relpath (cwd w1) file input_path))
                              (rst_name file))
                    else os_path_join (abs_path ocs) (rst_name file))
                   = output_filename).
      { rewrite I2. unfold output_filename, subdirs, input_path.
        destruct from_dir.
        - unfold file at 1. rewrite relpath_under; [|assumption| |now destruct ds].
          2:{ apply Forall_app. split; [assumption|]. now constructor. }
          rewrite dirname_rel by assumption.
          assert (J : os_path_join (rel_path ds) (rst_name file)
                      = rel_path (ds ++ [rst_name file])).
          { destruct ds as [|d ds']; [now apply join_rel_nil|].
            apply join_rel; [discriminate|assumption|assumption]. }
          rewrite J. apply join_abs_rel; [assumption| |now destruct ds].
          apply Forall_app. split; [assumption|]. now constructor.
        - cbn [app]. now apply join_abs. }
      rewrite I1 in Hn. rewrite I2 in Of.
      unfold document_file, bind, path_isdir, relpath, ret, print.
      rewrite I1.
      destruct from_dir; cbv beta iota delta [header_name] in Hn, Of, P |- *;
        [rewrite Hn|]; rewrite P;
        cbn [fs cwd stdout stderr]; rewrite O; cbv beta iota;
        cbn [fs cwd stdout stderr]; rewrite I2; cbv beta iota;
        cbn [fs cwd stdout stderr];
        rewrite Of, Dn;
        rewrite (os_makedirs_clean (ocs ++ subdirs)
                   (mkWorld (fs w1) (cwd w1) _ (stderr w1)) root2 Fs Mk);
        unfold set_fs; cbn [fs cwd stdout stderr]; now rewrite <- app_assoc.
Qed.

(* ================================================================= *)
(** ** The documentation core *)

(** *** Persistence *)

Lemma resolve_update_here (here : list str)
  (f : list (str * node) -> list (str * node)) :
  forall (root : node) (es : list (str * node)),
    resolve root here = Some (Dir es) ->
    resolve (update_dir here f root) here = Some (Dir (f es)).
Proof.
  induction here as [|h here IH]; intros root es R.
  - injection R as ->. reflexivity.
  - destruct root as [| |esr]; try discriminate. cbn [resolve update_dir] in *.
    destruct (assoc h esr) as [child|]; [|discriminate].
    cbn [resolve]. rewrite assoc_set_same. now apply IH.
Qed.

Lemma update_dir_twice (here : list str)
  (f g : list (str * node) -> list (str * node)) :
  forall root : node,
    update_dir here g (update_dir here f root)
    = update_dir here (fun es => g (f es)) root.
Proof.
  induction here as [|h here IH]; intros root;
    destruct root as [| |esr]; try reflexivity.
  cbn [update_dir]. destruct (assoc h esr) as [child|] eqn:A.
  - cbn [update_dir]. now rewrite assoc_set_same, IH, assoc_set_twice.
  - cbn [update_dir]. now rewrite A.
Qed.

Lemma update_dir_ext (here : list str)
  (f g : list (str * node) -> list (str * node)) :
  forall (root : node) (es : list (str * node)),
    resolve root here = Some (Dir es) -> f es = g es ->
    update_dir here f root = update_dir here g root.
Proof.
  induction here as [|h here IH]; intros root es R E.
  - injection R as ->. cbn [update_dir]. now rewrite E.
  - destruct root as [| |esr]; try discriminate. cbn [resolve update_dir] in *.
    destruct (assoc h esr) as [child|]; [|discriminate].
    now rewrite (IH child es R E).
Qed.

Lemma update_dir_same (here : list str)
  (f : list (str * node) -> list (str * node)) :
  forall (root : node) (es : list (str * node)),
    resolve root here = Some (Dir es) -> f es = es ->
    update_dir here f root = root.
Proof.
  induction here as [|h here IH]; intros root es R E.
  - injection R as ->. cbn [update_dir]. now rewrite E.
  - destruct root as [| |esr]; try discriminate. cbn [resolve update_dir] in *.
    destruct (assoc h esr) as [child|] eqn:A; [|discriminate].
    now rewrite (IH child es R E), (assoc_set_id _ _ _ A).
Qed.

Lemma assoc_remove_set (k : str) (v : node) (es : list (str * node)) :
  assoc k es = None -> assoc_remove k (assoc_set k v es) = es.
Proof.
  induction es as [|[a b] es IH]; cbn [assoc assoc_set assoc_remove]; intros H.
  - now rewrite str_eqb_refl.
  - destruct (str_eqb a k) eqn:E; [discriminate|].
    cbn [assoc_remove]. now rewrite E, IH.
Qed.

(** The temp file moved to the destination leaves the directory as a write
    of the destination alone would. *)
Lemma assoc_remove_moved (k k' : str) (v v0 : node) (es : list (str * node)) :
  k <> k' -> assoc k es = None ->
  assoc_remove k (assoc_set k' v (assoc_set k v0 es)) = assoc_set k' v es.
Proof.
  intros N. apply str_eqb_neq in N.
  induction es as [|[a b] es IH]; cbn [assoc assoc_set assoc_remove]; intros H.
  - rewrite N. cbn [assoc_remove]. now rewrite str_eqb_refl.
  - destruct (str_eqb a k) eqn:E; [discriminate|]. cbn [assoc_set].
    destruct (str_eqb a k') eqn:E'; cbn [assoc_remove]; rewrite E.
    + now rewrite assoc_remove_set.
    + now rewrite IH.
Qed.

Lemma assoc_none (k : str) (es : list (str * node)) :
  ~ In k (map fst es) -> assoc k es = None.
Proof.
  induction es as [|[a b] es IH]; cbn [assoc map fst In]; intros H; [reflexivity|].
  destruct (str_eqb a k) eqn:E.
  - apply str_eqb_eq in E. tauto.
  - apply IH. tauto.
Qed.

Lemma tmp_candidate_length (name : str) (k : nat) :
  length (tmp_candidate name k) = length name + 4 + k.
Proof.
  unfold tmp_candidate. rewrite !length_app, repeat_length. cbn [lit length list_ascii_of_string]. lia.
Qed.

Lemma first_free_candidate (names : list str) (name : str) (fuel : nat) :
  forall k, exists j, first_free names name k fuel = tmp_candidate name j.
Proof.
  induction fuel as [|fuel IH]; intros k; cbn [first_free]; [eauto|].
  destruct (existsb _ names); eauto.
Qed.

Lemma first_free_in (names : list str) (name : str) (fuel : nat) :
  forall k,
    In (first_free names name k fuel) names ->
    forall j, j <= fuel -> In (tmp_candidate name (k + j)) names.
Proof.
  induction fuel as [|fuel IH]; intros k I j L; cbn [first_free] in I.
  - replace j with 0 by lia. now rewrite Nat.add_0_r.
  - destruct (existsb (str_eqb (tmp_candidate name k)) names) eqn:E.
    + destruct j as [|j].
      * rewrite Nat.add_0_r. apply existsb_exists in E as (x & Ix & Q).
        apply str_eqb_eq in Q. now subst.
      * replace (k + S j) with (S k + j) by lia. apply IH; [assumption|lia].
    + exfalso. clear IH. induction names as [|x names IHn]; [contradiction|].
      cbn [existsb] in E. apply orb_false_iff in E as [E1 E2].
      destruct I as [->|I]; [now rewrite str_eqb_refl in E1|auto].
Qed.

(** The temp name is the name of no entry of the directory. *)
Lemma tmp_name_fresh (es : list (str * node)) (name : str) :
  assoc (tmp_name es name) es = None.
Proof.
  apply assoc_none. intros I. unfold tmp_name in I.
  pose proof (first_free_in _ _ _ 0 I) as A. cbn [Nat.add] in A.
  assert (N : NoDup (map (tmp_candidate name) (seq 0 (S (length es))))).
  { apply NoDup_map_NoDup_ForallPairs; [|apply seq_NoDup].
    intros a b _ _ E. apply (f_equal (@length ascii)) in E.
    rewrite !tmp_candidate_length in E. lia. }
  assert (C : incl (map (tmp_candidate name) (seq 0 (S (length es))))
                (map fst es)).
  { intros x Ix. apply in_map_iff in Ix as (j & <- & Ij).
    apply in_seq in Ij. apply A. lia. }
  apply NoDup_incl_length in C; [|assumption].
  rewrite !length_map, length_seq in C. lia.
Qed.

Lemma tmp_name_other (es : list (str * node)) (name : str) :
  tmp_name es name <> name.
Proof.
  unfold tmp_name.
  destruct (first_free_candidate (map fst es) name (length es) 0) as [j ->].
  intros E. apply (f_equal (@length ascii)) in E.
  rewrite tmp_candidate_length in E. lia.
Qed.

Lemma written_all (room : option nat) (s : str) :
  fits room s = true -> written room s = s.
Proof.
  destruct room as [k|]; [|reflexivity]. cbn [fits written]. intros H.
  apply Nat.leb_le in H. now apply firstn_all2.
Qed.

(** The temp file holds the part of the text for which there was room. *)
Lemma write_chars_spec (here : list str) (tmp : str) (s : str) :
  forall (room : option nat) (root : node) (es : list (str * node)) (c0 : str),
    resolve root here = Some (Dir es) -> assoc tmp es = Some (File c0) ->
    write_chars room here tmp s root
    = (fits room s,
       update_dir here (assoc_set tmp (File (c0 ++ written room s))) root).
Proof.
  induction s as [|ch s IH]; intros room root es c0 R A.
  - cbn [write_chars]. f_equal; [now destruct room|].
    assert (W : written room [] = []) by (destruct room as [[|k]|]; reflexivity).
    rewrite W, app_nil_r. symmetry.
    apply (update_dir_same here _ root es R). now apply assoc_set_id.
  - assert (Step : forall room',
               write_chars room' here tmp s
                 (update_dir here (append_char tmp ch) root)
               = (fits room' s,
                  update_dir here
                    (assoc_set tmp (File (c0 ++ ch :: written room' s))) root)).
    { intros room'.
      assert (E : update_dir here (append_char tmp ch) root
                  = update_dir here (assoc_set tmp (File (c0 ++ [ch]))) root).
      { apply (update_dir_ext here _ _ root es R). unfold append_char.
        now rewrite A. }
      rewrite E.
      rewrite (IH room' _ (assoc_set tmp (File (c0 ++ [ch])) es) (c0 ++ [ch])).
      - f_equal. rewrite update_dir_twice.
        apply (update_dir_ext here _ _ root es R).
        rewrite assoc_set_twice, <- app_assoc. reflexivity.
      - now apply resolve_update_here.
      - apply assoc_set_same. }
    destruct room as [[|k]|]; cbn [write_chars option_map pred].
    + f_equal. cbn [written firstn]. rewrite app_nil_r. symmetry.
      apply (update_dir_same here _ root es R). now apply assoc_set_id.
    + now rewrite Step.
    + now rewrite Step.
Qed.

Lemma entry_place_inv (root : node) (cwd p : str) (here : list str)
  (es : list (str * node)) (name : str) :
  entry_place root cwd p = inr (here, es, name) ->
  traverse root [] (removelast (path_comps cwd p)) = inr here
  /\ resolve root here = Some (Dir es)
  /\ name = last (path_comps cwd p) [].
Proof.
  unfold entry_place.
  destruct (traverse root [] (removelast (path_comps cwd p))) as [e|h];
    [discriminate|].
  destruct (resolve root h) as [[| |es']|] eqn:R; try discriminate.
  intros [= <- <- <-]. auto.
Qed.

(** The scoped write comes to a write of the destination alone, when the
    text fits and the destination is no directory, and to nothing at all
    otherwise: the temp file is gone in either case. *)
Lemma persist_eq (room : option nat) (r : Rendered) (path : str) (w : World)
  (here : list str) (es : list (str * node)) (name : str) :
  entry_place (fs w) (cwd w) path = inr (here, es, name) ->
  nonempty name && negb (str_eqb name dot) && negb (str_eqb name dotdot) = true ->
  persist_within room r path w
  = if fits room (text r)
       && negb (match assoc name es with Some (Dir _) => true | _ => false end)
    then (Ret tt,
          set_fs (update_dir here (assoc_set name (File (text r))) (fs w)) w)
    else (Raise (OSError path), w).
Proof.
  intros P V. destruct (entry_place_inv _ _ _ _ _ _ P) as (_ & R & _).
  unfold persist_within. rewrite P, V. cbv zeta.
  pose proof (tmp_name_fresh es name) as Fr.
  pose proof (tmp_name_other es name) as Ot.
  set (tmp := tmp_name es name) in *.
  rewrite (write_chars_spec here tmp (text r) room _
             (assoc_set tmp (File []) es) []
             (resolve_update_here here _ _ es R) (assoc_set_same _ _ _)).
  cbn [app]. rewrite update_dir_twice.
  assert (E2 : update_dir here
                 (fun es0 => assoc_set tmp (File (written room (text r)))
                               (assoc_set tmp (File []) es0)) (fs w)
               = update_dir here (assoc_set tmp (File (written room (text r))))
                   (fs w)).
  { apply (update_dir_ext here _ _ (fs w) es R). apply assoc_set_twice. }
  rewrite E2. clear E2.
  set (root2 := update_dir here (assoc_set tmp (File (written room (text r))))
                  (fs w)).
  assert (R2 : resolve root2 here
               = Some (Dir (assoc_set tmp (File (written room (text r))) es)))
    by now apply resolve_update_here.
  assert (Undo : set_fs (update_dir here (assoc_remove tmp) root2) w = w).
  { unfold root2. rewrite update_dir_twice.
    rewrite (update_dir_same here _ (fs w) es R); [apply set_fs_same|].
    now apply assoc_remove_set. }
  destruct (fits room (text r)) eqn:Fi; cbn [andb]; [|now rewrite Undo].
  unfold move. rewrite R2. unfold rename_entry.
  rewrite assoc_set_same, assoc_set_other by assumption.
  destruct (assoc name es) as [[c| |es']|] eqn:A; cbn [negb];
    try (now rewrite Undo); f_equal; f_equal;
    unfold root2; rewrite update_dir_twice;
    apply (update_dir_ext here _ _ (fs w) es R);
    rewrite (written_all _ _ Fi); now apply assoc_remove_moved.
Qed.

Lemma traverse_app (root : node) (a b : list str) :
  forall here : list str,
    traverse root here (a ++ b)
    = match traverse root here a with
      | inr there => traverse root there b
      | inl e => inl e
      end.
Proof.
  induction a as [|c a IH]; intros here; [reflexivity|].
  cbn [app traverse].
  destruct (resolve root here) as [[| |es]|]; try reflexivity.
  destruct (str_eqb c [] || str_eqb c dot); [apply IH|].
  destruct (str_eqb c dotdot); [apply IH|].
  destruct (assoc c es); [apply IH|reflexivity].
Qed.

Lemma traverse_grows (root root' : node) (comps : list str) :
  grows root root' ->
  forall here there : list str,
    traverse root here comps = inr there ->
    traverse root' here comps = inr there.
Proof.
  intros G. induction comps as [|c comps IH]; intros here there T; [exact T|].
  cbn [traverse] in *.
  destruct (resolve root here) as [[| |es]|] eqn:R; try discriminate.
  destruct (G here es R) as (es' & -> & K).
  destruct (str_eqb c [] || str_eqb c dot); [now apply IH|].
  destruct (str_eqb c dotdot); [now apply IH|].
  destruct (assoc c es) as [v|] eqn:A; [|discriminate].
  destruct (K c v A) as [v' ->]. now apply IH.
Qed.

(** A change of the entries of one directory that keeps the names and the
    sub-directories keeps the directories of the tree. *)
Lemma update_dir_grows (f : list (str * node) -> list (str * node))
  (here : list str) :
  forall (root : node) (es : list (str * node)),
    resolve root here = Some (Dir es) ->
    (forall c v, assoc c es = Some v ->
                 exists v', assoc c (f es) = Some v'
                            /\ (is_dir_node v = true -> v' = v)) ->
    grows root (update_dir here f root).
Proof.
  induction here as [|h here IH]; intros root es R K loc el L.
  - injection R as ->. cbn [update_dir]. destruct loc as [|c loc].
    + injection L as <-. exists (f es). split; [reflexivity|].
      intros c v A. destruct (K c v A) as (v' & A' & _). eauto.
    + cbn [resolve] in *. destruct (assoc c es) as [child|] eqn:A; [|discriminate].
      destruct (K c child A) as (v' & -> & Q).
      assert (D : is_dir_node child = true).
      { destruct loc; [now injection L as ->|]. now destruct child. }
      rewrite (Q D), L. eauto.
  - destruct root as [| |esr]; try discriminate. cbn [resolve update_dir] in *.
    destruct (assoc h esr) as [child|] eqn:A; [|discriminate].
    destruct loc as [|c loc].
    + injection L as <-. eexists. split; [reflexivity|].
      intros c v Ac. destruct (str_eqb h c) eqn:E.
      * apply str_eqb_eq in E. subst c. rewrite assoc_set_same. eauto.
      * apply str_eqb_neq in E. rewrite assoc_set_other by assumption. eauto.
    + cbn [resolve] in *. destruct (str_eqb h c) eqn:E.
      * apply str_eqb_eq in E. subst c. rewrite assoc_set_same. rewrite A in L.
        exact (IH child es R K loc el L).
      * apply str_eqb_neq in E. rewrite assoc_set_other by assumption.
        destruct (assoc c esr); [|discriminate]. rewrite L. eauto.
Qed.

(** After a write whose place in the tree is known, the path leads to the
    text. *)
Lemma lookup_written (root : node) (cwd path : str) (here : list str)
  (es : list (str * node)) (name t : str) :
  entry_place root cwd path = inr (here, es, name) ->
  nonempty name && negb (str_eqb name dot) && negb (str_eqb name dotdot) = true ->
  match assoc name es with Some (Dir _) => False | _ => True end ->
  lookup (update_dir here (assoc_set name (File t)) root) cwd path
  = Some (File t).
Proof.
  intros P V ND. destruct (entry_place_inv _ _ _ _ _ _ P) as (T & R & L).
  apply andb_true_iff in V as [V V3]. apply andb_true_iff in V as [V1 V2].
  apply negb_true_iff in V2, V3.
  set (root' := update_dir here (assoc_set name (File t)) root).
  assert (G : grows root root').
  { apply (update_dir_grows _ here root es R). intros c v A.
    destruct (str_eqb name c) eqn:E.
    - apply str_eqb_eq in E. subst c. rewrite A in ND.
      rewrite assoc_set_same. eexists. split; [reflexivity|].
      now destruct v.
    - apply str_eqb_neq in E. rewrite assoc_set_other by assumption. eauto. }
  assert (R' : resolve root' here = Some (Dir (assoc_set name (File t) es)))
    by now apply resolve_update_here.
  assert (C : path_comps cwd path = removelast (path_comps cwd path) ++ [name]).
  { rewrite L. apply app_removelast_last. unfold path_comps.
    destruct (isabs path).
    - apply str_split_not_nil.
    - intros Q. apply app_eq_nil in Q as [Q _]. now apply str_split_not_nil in Q. }
  unfold lookup. destruct path as [|x path].
  { exfalso. unfold path_comps in L. cbn [isabs startswith str_split] in L.
    rewrite last_last in L. now subst name. }
  rewrite C, traverse_app, (traverse_grows _ _ _ G _ _ T).
  cbn [traverse]. rewrite R'.
  assert (Q : str_eqb name [] = false) by now destruct name.
  rewrite Q, V2, V3, assoc_set_same. cbn [orb].
  rewrite resolve_app, R'. cbn [resolve]. now rewrite assoc_set_same.
Qed.

Lemma clean_valid (name : str) :
  clean name ->
  nonempty name && negb (str_eqb name dot) && negb (str_eqb name dotdot) = true.
Proof.
  unfold clean, cleanb. intros H.
  repeat (apply andb_true_iff in H as [H ?]).
  repeat (apply andb_true_iff; split); assumption.
Qed.

Lemma entry_place_missing (root : node) (cwd : str) (cs : list str) (c : str) :
  Forall clean cs -> clean c -> resolve root cs = None ->
  exists e, entry_place root cwd (abs_path (cs ++ [c])) = inl e.
Proof.
  intros F C R.
  assert (Fc : Forall clean (cs ++ [c])).
  { apply Forall_app. split; [assumption|]. now constructor. }
  unfold entry_place. rewrite path_comps_abs, split_abs by assumption.
  assert (E : match cs ++ [c] with [] => [[]] | _ :: _ => cs ++ [c] end = cs ++ [c])
    by now destruct cs.
  rewrite E. change ([] :: cs ++ [c]) with (([] :: cs) ++ [c]).
  rewrite removelast_last. cbn [traverse resolve].
  destruct root as [| |es0]; eauto. cbn [str_eqb orb].
  pose proof (traverse_clean (Dir es0) cs [] (Dir es0) F eq_refl) as T.
  destruct (traverse (Dir es0) [] cs) as [e|there]; [eauto|].
  destruct T as (-> & x & T). cbn [app] in T. congruence.
Qed.

(** C2: on a device with any room, the scoped write either returns, and the
    destination then holds exactly the text of the rendered output, or it
    raises and leaves the world as it was: no file where there was none, the
    file that was there unchanged, and no temp file.  For a destination of
    entry names it raises when the directory that is to hold the file does
    not exist; and when that directory exists, the destination is no
    directory and the text fits, it returns, and the file system differs
    from the one before in the destination only. *)
Theorem persist_all_or_nothing (room : option nat) (r : Rendered) (path : str)
  (w : World) :
  (persist_within room r path w = (Raise (OSError path), w)
   \/ exists root',
        persist_within room r path w
        = (Ret tt, mkWorld root' (cwd w) (stdout w) (stderr w))
        /\ lookup root' (cwd w) path = Some (File (text r)))
  /\ forall cs name,
       path = abs_path (cs ++ [name]) -> Forall clean cs -> clean name ->
       (isdir (fs w) (cwd w) (abs_path cs) = false ->
        persist_within room r path w = (Raise (OSError path), w))
       /\ (isdir (fs w) (cwd w) (abs_path cs) = true ->
           isdir (fs w) (cwd w) path = false ->
           fits room (text r) = true ->
           persist_within room r path w
           = (Ret tt,
              mkWorld (update_dir cs (assoc_set name (File (text r))) (fs w))
                (cwd w) (stdout w) (stderr w))).
Proof.
  split.
  - destruct (entry_place (fs w) (cwd w) path) as [e|[[here es] name]] eqn:P.
    { left. unfold persist_within. now rewrite P. }
    destruct (nonempty name && negb (str_eqb name dot)
              && negb (str_eqb name dotdot)) eqn:V.
    2:{ left. unfold persist_within. now rewrite P, V. }
    rewrite (persist_eq room r path w here es name P V).
    destruct (fits room (text r)); cbn [andb]; [|now left].
    destruct (assoc name es) as [[c| |es']|] eqn:A; cbn [negb];
      try (now left); right; eexists; (split; [reflexivity|]);
      apply (lookup_written _ _ _ here es name); try assumption;
      now rewrite A.
  - intros cs name -> F C.
    assert (Fc : Forall clean (cs ++ [name])).
    { apply Forall_app. split; [assumption|]. now constructor. }
    rewrite !isdir_abs by assumption. split.
    + intros I. unfold persist_within.
      destruct (resolve (fs w) cs) as [x|] eqn:R.
      * rewrite (entry_place_abs _ _ _ _ x F C R).
        now destruct x.
      * now destruct (entry_place_missing (fs w) (cwd w) cs name F C R) as [e ->].
    + intros I N Fi.
      destruct (resolve (fs w) cs) as [[| |es]|] eqn:R; try discriminate.
      rewrite (persist_eq room r _ w cs es name
                 (entry_place_abs _ _ _ _ _ F C R) (clean_valid name C)).
      rewrite Fi. rewrite resolve_app, R in N. cbn [resolve] in N.
      now destruct (assoc name es) as [[| |]|].
Qed.

(** *** Block Scanner *)

Lemma startswith_split (p g s : str) :
  startswith p (g ++ s) = true ->
  startswith p g = true
  \/ exists u, u <> [] /\ p = g ++ u /\ startswith u s = true.
Proof.
  revert g. induction p as [|x p IH]; intros g H; [now left|].
  destruct g as [|y g].
  - right. exists (x :: p). repeat split; [discriminate|exact H].
  - cbn [app startswith] in *. apply andb_true_iff in H as [H1 H2].
    rewrite H1. cbn [andb].
    destruct (IH _ H2) as [H|(u & N & -> & H)]; [now left|].
    right. exists u. apply Ascii.eqb_eq in H1. now subst.
Qed.

Lemma str_find_eq (sub s : str) :
  str_find sub s
  = if startswith sub s then Some 0
    else match s with
         | [] => None
         | _ :: s' => option_map S (str_find sub s')
         end.
Proof. now destruct s. Qed.

Section markers.
(** A marker whose first character does not come again in it. *)
Variables (h : ascii) (t : str).
Hypothesis unbordered : ~ In h t.

Lemma no_straddle (c : ascii) (g rest : str) :
  startswith (h :: t) (c :: g) = false ->
  startswith (h :: t) ((c :: g) ++ (h :: t) ++ rest) = false.
Proof.
  intros H.
  destruct (startswith (h :: t) ((c :: g) ++ (h :: t) ++ rest)) eqn:E;
    [|reflexivity].
  apply startswith_split in E as [E|(u & N & Q & E)]; [congruence|].
  exfalso. destruct u as [|x u]; [contradiction|].
  cbn [app startswith] in E. apply andb_true_iff in E as [E _].
  apply Ascii.eqb_eq in E. subst x.
  injection Q as _ Q. apply unbordered. rewrite Q.
  apply in_or_app. right. now left.
Qed.

Lemma str_find_after (g rest : str) :
  free_of (h :: t) g -> str_find (h :: t) (g ++ (h :: t) ++ rest) = Some (length g).
Proof.
  unfold free_of. induction g as [|c g IH]; intros F.
  - change ([] ++ (h :: t) ++ rest) with ((h :: t) ++ rest).
    now rewrite str_find_eq, startswith_app.
  - rewrite str_find_eq in F.
    destruct (startswith (h :: t) (c :: g)) eqn:S; [discriminate|].
    destruct (str_find (h :: t) g) eqn:G; [discriminate|].
    rewrite str_find_eq, (no_straddle c g rest S).
    change ((c :: g) ++ (h :: t) ++ rest) with (c :: (g ++ (h :: t) ++ rest)).
    cbv iota. now rewrite IH.
Qed.
End markers.

Lemma find_start (g rest : str) :
  free_of START g -> str_find START (g ++ START ++ rest) = Some (length g).
Proof.
  apply (str_find_after "#"%char (lit "[[[")). cbn. intros [H|[H|[H|[]]]]; discriminate.
Qed.

Lemma find_end (g rest : str) :
  free_of END g -> str_find END (g ++ END ++ rest) = Some (length g).
Proof.
  apply (str_find_after "#"%char (lit "]]")). cbn. intros [H|[H|[]]]; discriminate.
Qed.

Lemma skipn_app_exact (A : Type) (a b : list A) (n : nat) :
  n = length a -> skipn n (a ++ b) = b.
Proof. intros ->. now rewrite skipn_app, skipn_all, Nat.sub_diag. Qed.

Lemma firstn_app_exact (A : Type) (a b : list A) (n : nat) :
  n = length a -> firstn n (a ++ b) = a.
Proof. intros ->. now rewrite firstn_app, firstn_all, Nat.sub_diag, app_nil_r. Qed.

(** One turn of the scanner over a complete block. *)
Lemma scan_block (fuel pos : nat) (gap inner rest : str) :
  free_of START gap -> free_of END inner ->
  scan_from (S fuel) pos (gap ++ START ++ inner ++ END ++ rest)
  = (mkRawBlock (pos + length gap)
       (pos + length gap + length START + length inner) inner
       :: fst (scan_from fuel
                 (pos + length gap + length START + length inner + length END)
                 rest),
     snd (scan_from fuel
            (pos + length gap + length START + length inner + length END) rest)).
Proof.
  intros G I. cbn [scan_from]. rewrite (find_start gap _ G).
  rewrite (app_assoc gap START), skipn_app_exact by now rewrite length_app.
  rewrite (find_end inner rest I).
  rewrite firstn_app_exact by reflexivity.
  rewrite (app_assoc inner END), skipn_app_exact by now rewrite length_app.
  now destruct (scan_from fuel _ rest).
Qed.

Lemma scan_blocks_text (l : list (str * str)) :
  forall (fuel pos : nat) (tail : str),
    well_formed l ->
    scan_from (length l + fuel) pos (blocks_text l tail)
    = (blocks_at pos l
         ++ fst (scan_from fuel (pos + length (blocks_text l tail) - length tail) tail),
       snd (scan_from fuel (pos + length (blocks_text l tail) - length tail) tail)).
Proof.
  induction l as [|[gap inner] l IH]; intros fuel pos tail W.
  - cbn [blocks_text blocks_at length app Nat.add].
    replace (pos + length tail - length tail) with pos by lia.
    now destruct (scan_from fuel pos tail).
  - inversion W as [|? ? [G I] W']; subst. cbn [fst snd] in G, I.
    cbn [blocks_text blocks_at length Nat.add].
    rewrite scan_block by assumption. rewrite IH by assumption.
    cbn [fst snd app]. rewrite !length_app.
    replace (pos + length gap + length START + length inner + length END
             + length (blocks_text l tail) - length tail)
      with (pos + (length gap + (length START + (length inner + (length END
             + length (blocks_text l tail))))) - length tail) by lia.
    reflexivity.
Qed.

Lemma blocks_text_length (l : list (str * str)) (tail : str) :
  length l + length tail <= length (blocks_text l tail).
Proof.
  induction l as [|[gap inner] l IH]; cbn [blocks_text length]; [lia|].
  rewrite !length_app. cbn [length START END lit list_ascii_of_string]. lia.
Qed.

(** More fuel than the text is long is never used up. *)
Lemma scan_from_fuel (fuel1 fuel2 : nat) :
  forall (pos : nat) (s : str),
    length s < fuel1 -> length s < fuel2 ->
    scan_from fuel1 pos s = scan_from fuel2 pos s.
Proof.
  revert fuel2. induction fuel1 as [|fuel1 IH]; intros fuel2 pos s H1 H2; [lia|].
  destruct fuel2 as [|fuel2]; [lia|].
  cbn [scan_from]. destruct (str_find START s) as [i|] eqn:F; [|reflexivity].
  destruct (str_find END (skipn (i + length START) s)) as [j|]; [|reflexivity].
  assert (L : length (skipn (j + length END) (skipn (i + length START) s))
              < length s).
  { rewrite !length_skipn. destruct s; [discriminate|].
    change (length END) with 3. cbn [length]. lia. }
  rewrite (IH fuel2) by lia. reflexivity.
Qed.

Lemma scan_from_free (fuel pos : nat) (tail : str) :
  free_of START tail -> scan_from fuel pos tail = ([], []).
Proof.
  intros F. destruct fuel; [reflexivity|]. cbn [scan_from]. now rewrite F.
Qed.

Lemma scan_from_unterminated (fuel pos : nat) (gap rest : str) :
  free_of START gap -> free_of END rest ->
  scan_from (S fuel) pos (gap ++ START ++ rest)
  = ([], [MalformedBlock (pos + length gap)]).
Proof.
  intros G R. cbn [scan_from]. rewrite (find_start gap rest G).
  rewrite (app_assoc gap START), skipn_app_exact by now rewrite length_app.
  now rewrite R.
Qed.

Lemma scan_well_formed (l : list (str * str)) (tail : str) :
  well_formed l ->
  scan (blocks_text l tail)
  = (blocks_at 0 l
       ++ fst (scan_from (S (length tail))
                 (length (blocks_text l tail) - length tail) tail),
     snd (scan_from (S (length tail))
            (length (blocks_text l tail) - length tail) tail)).
Proof.
  intros W. unfold scan.
  pose proof (blocks_text_length l tail) as L.
  replace (S (length (blocks_text l tail)))
    with (length l + (S (length (blocks_text l tail)) - length l)) by lia.
  rewrite scan_blocks_text by assumption. cbn [Nat.add].
  now rewrite (scan_from_fuel _ (S (length tail))) by lia.
Qed.

Lemma blocks_at_spec (l : list (str * str)) :
  forall (pos : nat) (pre tail : str),
    length pre = pos ->
    Forall (fun b =>
              startswith START (skipn (start_offset b) (pre ++ blocks_text l tail)) = true
              /\ startswith END (skipn (end_offset b) (pre ++ blocks_text l tail)) = true
              /\ skipn (start_offset b + length START)
                   (firstn (end_offset b) (pre ++ blocks_text l tail))
                 = raw_text b
              /\ pos <= start_offset b
              /\ end_offset b + length END <= length (pre ++ blocks_text l tail))
      (blocks_at pos l).
Proof.
  induction l as [|[gap inner] l IH]; intros pos pre tail P; [constructor|].
  cbn [blocks_text blocks_at]. constructor.
  - cbn [start_offset end_offset raw_text]. repeat split.
    + rewrite app_assoc, skipn_app_exact by (rewrite length_app; lia).
      apply startswith_app.
    + rewrite (app_assoc gap), (app_assoc (gap ++ START)), app_assoc.
      rewrite skipn_app_exact by (rewrite !length_app; lia).
      apply startswith_app.
    + rewrite (app_assoc gap), (app_assoc (gap ++ START)), app_assoc.
      rewrite firstn_app_exact by (rewrite !length_app; lia).
      rewrite !app_assoc. apply skipn_app_exact. rewrite !length_app. lia.
    + lia.
    + rewrite !length_app. lia.
  - specialize (IH (pos + length gap + length START + length inner + length END)
                  (pre ++ gap ++ START ++ inner ++ END) tail).
    rewrite <- !app_assoc in IH.
    eapply Forall_impl; [|apply IH; rewrite !length_app; lia].
    cbv beta. intros b (H1 & H2 & H3 & H4 & H5). repeat split; try assumption. lia.
Qed.

Lemma blocks_at_sorted (l : list (str * str)) (pos : nat) :
  StronglySorted in_order (blocks_at pos l).
Proof.
  revert pos. induction l as [|[gap inner] l IH]; intros pos; [constructor|].
  cbn [blocks_at]. constructor; [apply IH|].
  pose proof (blocks_at_spec l
                (pos + length gap + length START + length inner + length END)
                (repeat " "%char
                   (pos + length gap + length START + length inner + length END))
                [] (repeat_length _ _)) as H.
  eapply Forall_impl; [|exact H].
  cbv beta. intros b (_ & _ & _ & H4 & _). unfold in_order. cbn [end_offset]. lia.
Qed.

Lemma startswith_true (p s : str) :
  startswith p s = true -> exists r, s = p ++ r.
Proof.
  revert s; induction p as [|x p IH]; intros s H; simpl in *.
  - now exists s.
  - destruct s as [|y s]; [discriminate|].
    apply andb_true_iff in H as [H1 H2].
    apply Ascii.eqb_eq in H1. subst.
    destruct (IH _ H2) as [r ->]. now exists r.
Qed.

Lemma startswith_longer (p a b : str) :
  startswith p a = true -> startswith p (a ++ b) = true.
Proof.
  intros H. apply startswith_true in H as [r ->].
  rewrite <- app_assoc. apply startswith_app.
Qed.

(** Where [str_find] finds a marker, the marker stands, and not before. *)
Lemma str_find_some (m s : str) (i : nat) :
  m <> [] -> str_find m s = Some i ->
  s = firstn i s ++ m ++ skipn (i + length m) s /\ free_of m (firstn i s).
Proof.
  intros N. revert i. induction s as [|c s IH]; intros i H.
  - destruct m; [contradiction|discriminate].
  - rewrite str_find_eq in H. destruct (startswith m (c :: s)) eqn:S.
    + injection H as <-. apply startswith_true in S as [r E].
      cbn [firstn Nat.add app]. split.
      * rewrite E at 1. f_equal. rewrite E.
        now rewrite skipn_app, skipn_all, Nat.sub_diag.
      * unfold free_of. now destruct m.
    + destruct (str_find m s) as [i'|] eqn:F; [|discriminate].
      injection H as <-. destruct (IH i' eq_refl) as [E G].
      cbn [firstn Nat.add skipn app]. split; [now rewrite <- E|].
      unfold free_of. rewrite str_find_eq.
      destruct (startswith m (c :: firstn i' s)) eqn:T.
      * apply (startswith_longer _ _ (skipn i' s)) in T.
        cbn [app] in T. rewrite firstn_skipn in T. congruence.
      * now rewrite G.
Qed.

(** Every text is a run of complete blocks followed by a rest that either
    has no start marker or starts a block that no end marker closes. *)
Lemma text_decomposes (n : nat) :
  forall s : str,
    length s <= n ->
    exists l tail,
      well_formed l /\ s = blocks_text l tail
      /\ (free_of START tail
          \/ exists gap rest,
               tail = gap ++ START ++ rest
               /\ free_of START gap /\ free_of END rest).
Proof.
  induction n as [|n IH]; intros s L.
  - destruct s; [|cbn in L; lia].
    exists [], []. repeat split; [constructor|now left].
  - destruct (str_find START s) as [i|] eqn:F.
    2:{ exists [], s. repeat split; [constructor|now left]. }
    destruct (str_find_some START s i) as [E G]; [discriminate|assumption|].
    remember (firstn i s) as gap. remember (skipn (i + length START) s) as body.
    destruct (str_find END body) as [j|] eqn:B.
    2:{ exists [], s. split; [constructor|]. split; [reflexivity|].
        right. exists gap, body. auto. }
    destruct (str_find_some END body j) as [E' G']; [discriminate|assumption|].
    remember (firstn j body) as inner. remember (skipn (j + length END) body) as rest.
    destruct (IH rest) as (l & tail & W & Er & T).
    { assert (X : length s = length gap + (length START + (length inner
                                 + (length END + length rest)))).
      { rewrite E, E' at 1. now rewrite !length_app. }
      change (length START) with 4 in X. change (length END) with 3 in X. lia. }
    exists ((gap, inner) :: l), tail. split; [|split].
    + constructor; [split; assumption|assumption].
    + cbn [blocks_text]. rewrite <- Er, <- E'. exact E.
    + exact T.
Qed.

(** On every text the scanner yields the complete blocks, and one warning
    when a last block is not closed. *)
Lemma scan_every_text (src : str) :
  exists l tail,
    well_formed l /\ src = blocks_text l tail
    /\ fst (scan src) = blocks_at 0 l
    /\ (snd (scan src) = [] \/ exists p, snd (scan src) = [MalformedBlock p]).
Proof.
  destruct (text_decomposes (length src) src (le_n _))
    as (l & tail & W & E & [F|(gap & rest & Et & G & R)]);
    exists l, tail; (split; [assumption|]); (split; [assumption|]);
    rewrite E, scan_well_formed by assumption; cbn [fst snd].
  - rewrite scan_from_free by assumption. cbn [fst snd].
    rewrite app_nil_r. split; [reflexivity|now left].
  - rewrite Et, scan_from_unterminated by assumption. cbn [fst snd].
    rewrite app_nil_r. split; [reflexivity|]. right. eauto.
Qed.

Lemma blocks_text_app (l : list (str * str)) (tail : str) :
  blocks_text l tail = blocks_text l [] ++ tail.
Proof.
  induction l as [|[gap inner] l IH]; [reflexivity|].
  cbn [blocks_text]. rewrite IH. now rewrite <- !app_assoc.
Qed.

(** C5: on a text of N well-formed blocks that do not nest, the Block
    Scanner yields N RawBlocks and no warning: the blocks of the text in
    their order, each with the offsets at which its start marker and its end
    marker stand and with the text between them, and each ends before the
    next one starts. *)
Theorem scanner_yields_blocks (l : list (str * str)) (tail : str) :
  well_formed l -> free_of START tail ->
  let src := blocks_text l tail in
  let bs := fst (scan src) in
  snd (scan src) = []
  /\ length bs = length l
  /\ map raw_text bs = map snd l
  /\ Forall (fun b =>
               startswith START (skipn (start_offset b) src) = true
               /\ startswith END (skipn (end_offset b) src) = true
               /\ skipn (start_offset b + length START) (firstn (end_offset b) src)
                  = raw_text b) bs
  /\ StronglySorted in_order bs.
Proof.
  intros W F src bs.
  assert (E : scan src = (blocks_at 0 l, [])).
  { unfold src. rewrite scan_well_formed by assumption.
    rewrite scan_from_free by assumption. cbn [fst snd]. now rewrite app_nil_r. }
  unfold bs. rewrite E. cbn [fst snd]. split; [reflexivity|].
  assert (L : forall pos, length (blocks_at pos l) = length l
                          /\ map raw_text (blocks_at pos l) = map snd l).
  { clear. induction l as [|[gap inner] l IH]; intros pos; [now split|].
    cbn [blocks_at length map raw_text snd].
    destruct (IH (pos + length gap + length START + length inner + length END))
      as [-> ->].
    now split. }
  destruct (L 0) as [L1 L2]. repeat split; try assumption.
  - pose proof (blocks_at_spec l 0 [] tail eq_refl) as S.
    eapply Forall_impl; [|exact S].
    cbv beta. intros b (H1 & H2 & H3 & _). now repeat split.
  - apply blocks_at_sorted.
Qed.

Lemma bind_blocks_spans (src : str) (bs : list RawBlock) :
  length (fst (bind_blocks src bs)) <= length bs
  /\ Forall (fun e => exists b, In b bs
                                /\ source_span (doc_block e)
                                   = (start_offset b, end_offset b))
       (fst (bind_blocks src bs)).
Proof.
  induction bs as [|b bs [IH1 IH2]]; [split; [reflexivity|constructor]|].
  cbn [bind_blocks]. destruct (bind_blocks src bs) as [es ws]. cbn [fst] in *.
  assert (X : Forall (fun e => exists b0, In b0 (b :: bs)
                               /\ source_span (doc_block e)
                                  = (start_offset b0, end_offset b0)) es).
  { eapply Forall_impl; [|exact IH2]. cbv beta.
    intros e (b0 & I & Q). exists b0. split; [now right|assumption]. }
  destruct (empty_block _).
  - cbn [fst length]. split; [lia|assumption].
  - destruct (associate _ _) as [sg w']. cbn [fst length]. split; [lia|].
    constructor; [|assumption].
    exists b. split; [now left|]. cbn [doc_block]. unfold parse_block.
    now destruct (split_at_tag _).
Qed.

(** C6: a start marker without end marker before the end of the text makes
    no DocEntry: the entries come from the complete blocks before it (each
    ends before the marker); the warning is part of the result and is written
    to standard error, and the pipeline returns. *)
Theorem unterminated_block_dropped {T : Templates}
  (l : list (str * str)) (gap rest source_id header : str) :
  well_formed l -> free_of START gap -> free_of END rest ->
  let src := blocks_text l (gap ++ START ++ rest) in
  let p := length (blocks_text l gap) in
  let m := fst (build_model source_id header src) in
  startswith START (skipn p src) = true
  /\ scan src = (blocks_at 0 l, [MalformedBlock p])
  /\ In (MalformedBlock p) (snd (build_model source_id header src))
  /\ length (entries m) <= length l
  /\ Forall (fun e => snd (source_span (doc_block e)) < p) (entries m)
  /\ forall (w : World) (file : str),
       lookup (fs w) (cwd w) file = Some (File src) ->
       exists r w',
         run_pipeline file header w = (Ret r, w')
         /\ fs w' = fs w
         /\ In (warning_text (MalformedBlock p)) (stderr w').
Proof.
  intros W G R src p m.
  assert (Lp : p = length (blocks_text l []) + length gap).
  { unfold p. now rewrite blocks_text_app, length_app. }
  assert (Ls : length src - length (gap ++ START ++ rest)
               = length (blocks_text l [])).
  { unfold src. rewrite blocks_text_app, length_app. lia. }
  assert (E : scan src = (blocks_at 0 l, [MalformedBlock p])).
  { unfold src. rewrite scan_well_formed by assumption. fold src. rewrite Ls.
    rewrite scan_from_unterminated by assumption. cbn [fst snd].
    now rewrite app_nil_r, <- Lp. }
  assert (B : build_model source_id header src
              = (mkDocumentModel source_id header
                   (fst (bind_blocks src (blocks_at 0 l))),
                 [MalformedBlock p] ++ snd (bind_blocks src (blocks_at 0 l)))).
  { unfold build_model. rewrite E. now destruct (bind_blocks _ _). }
  split; [|split; [exact E|]].
  { unfold src, p.
    rewrite (blocks_text_app l (gap ++ START ++ rest)), (blocks_text_app l gap).
    rewrite app_assoc, skipn_app_exact by reflexivity. apply startswith_app. }
  unfold m. rewrite B. cbn [fst snd entries].
  destruct (bind_blocks_spans src (blocks_at 0 l)) as [H1 H2].
  assert (N : length (blocks_at 0 l) = length l).
  { clear. generalize 0. induction l as [|[g i] l IH]; intros n; [reflexivity|].
    cbn [blocks_at length]. now rewrite IH. }
  split; [now left|]. split; [lia|]. split.
  - pose proof (blocks_at_spec l 0 [] [] eq_refl) as S.
    rewrite Forall_forall in S. eapply Forall_impl; [|exact H2]. cbv beta.
    intros e (b & I & Q). rewrite Q. cbn [snd].
    destruct (S b I) as (_ & _ & _ & _ & H). cbn [app] in H.
    change (length END) with 3 in H. lia.
  - intros w file Lk. unfold run_pipeline, build_model. rewrite Lk, E.
    destruct (bind_blocks src (blocks_at 0 l)) as [es ws].
    eexists _, _. split; [reflexivity|]. cbn [fs stderr map app].
    split; [reflexivity|]. apply in_or_app. right. now left.
Qed.

Lemma contains_here (sub b : str) : contains sub (sub ++ b).
Proof. now exists [], b. Qed.

Lemma contains_right (sub a s : str) : contains sub s -> contains sub (a ++ s).
Proof. intros (x & y & ->). exists (a ++ x), y. now rewrite <- app_assoc. Qed.

Lemma contains_left (sub s b : str) : contains sub s -> contains sub (s ++ b).
Proof. intros (x & y & ->). exists x, (y ++ b). now rewrite <- !app_assoc. Qed.

Ltac find_sub :=
  solve [ apply contains_here
        | apply contains_right; find_sub
        | apply contains_left; find_sub ].

Lemma str_split_prefix (c : ascii) (a b : str) :
  ~ In c a ->
  exists w ws, str_split c b = w :: ws /\ str_split c (a ++ b) = (a ++ w) :: ws.
Proof.
  intros N. destruct (str_split c b) as [|w ws] eqn:E.
  - now apply str_split_not_nil in E.
  - exists w, ws. split; [reflexivity|].
    induction a as [|x a IH]; [exact E|].
    cbn [app str_split].
    destruct (Ascii.eqb x c) eqn:Q.
    + apply Ascii.eqb_eq in Q. subst. exfalso. apply N. now left.
    + rewrite IH; [reflexivity|]. intros I. apply N. now right.
Qed.

Lemma str_join_prefix (s a w : str) (ws : list str) :
  str_join s ((a ++ w) :: ws) = a ++ str_join s (w :: ws).
Proof. destruct ws; cbn [str_join]; [reflexivity|]. now rewrite <- app_assoc. Qed.

Lemma associate_greet (pos : nat) (body : str) :
  associate pos ([newline] ++ lit "function(greet name)" ++ body)
  = (mkSignature FUNCTION (lit "greet") [lit "name"], []).
Proof.
  unfold associate.
  destruct (str_split_prefix newline (lit "function(greet name)") body)
    as (w & ws & _ & E).
  { vm_compute. intuition discriminate. }
  change (str_split newline ([newline] ++ lit "function(greet name)" ++ body))
    with ([] :: str_split newline (lit "function(greet name)" ++ body)).
  rewrite E.
  assert (K : skip_lines ([] :: (lit "function(greet name)" ++ w) :: ws)
              = (lit "function(greet name)" ++ w) :: ws) by reflexivity.
  rewrite K, str_join_prefix.
  generalize (str_join [newline] (w :: ws)). intros y.
  vm_compute. reflexivity.
Qed.

(** C7: the block [Greets a person.] / [:param name: the person's name]
    followed by [function(greet name)] and a body gives, as first entry, the
    DocEntry of kind FUNCTION and name [greet] with the parameter [name], the
    description [Greets a person.] and the one field [param] with payload
    [name: the person's name]; the rendered text has the name [greet], the
    field list entry of that field, and the description in it. *)
Theorem greet_documented {T : Templates} (source_id header body : str) :
  let m := fst (build_model source_id header (greet_source body)) in
  (exists others, entries m = greet_entry :: others)
  /\ contains (lit "greet") (text (render m))
  /\ contains (field_template (lit "param") (lit "name: the person's name"))
       (text (render m))
  /\ contains (lit "Greets a person.") (text (render m)).
Proof.
  intros m.
  assert (E : exists others, entries m = greet_entry :: others).
  { unfold m, build_model, scan, greet_source.
    change (START ++ greet_inner ++ END ++ [newline]
              ++ lit "function(greet name)" ++ body)
      with ([] ++ START ++ greet_inner ++ END
              ++ ([newline] ++ lit "function(greet name)" ++ body)).
    rewrite scan_block by reflexivity.
    set (rest := [newline] ++ lit "function(greet name)" ++ body).
    destruct (scan_from _ _ rest) as [bs ws]. cbn [fst snd].
    cbn [bind_blocks raw_text start_offset end_offset].
    destruct (bind_blocks _ bs) as [es ws'].
    change (empty_block
              (parse_block (uncomment greet_inner)
                 (0 + length (@nil ascii),
                  0 + length (@nil ascii) + length START + length greet_inner)))
      with false.
    cbv iota.
    rewrite (app_assoc START), (app_assoc (START ++ greet_inner)).
    rewrite app_nil_l.
    rewrite skipn_app_exact by reflexivity.
    unfold rest. rewrite associate_greet. cbn [fst entries]. now exists es. }
  split; [exact E|]. destruct E as [others E].
  unfold render. rewrite E. cbn [text map concat].
  unfold render_entry, greet_entry, heading, render_field.
  cbn [signature doc_block kind name parameters description fields
       map concat tag_name payload].
  change (field_kind (lit "param")) with (lit "param").
  repeat split; find_sub.
Qed.

(** ** Instances and counterexamples *)

(** A run over the sample project, with an output directory. *)
Example demo_run :
  let r := main (mkArgs [lit "."] (Some (lit "../out")) true) demo_world in
  fst r = Ret tt
  /\ stdout (snd r)
     = [lit "Writing RST files to /out";
        lit "Writing for file /proj/a.cmake"; lit "Writing RST file /out/a.rst";
        lit "Writing for file /proj/cmake"; lit "Writing RST file /out/.rst";
        lit "Writing for file /proj/w.cmake"; lit "Writing RST file /out/w.rst";
        lit "Writing for file /proj/sub/b.CMake";
        lit "Writing RST file /out/sub/b.rst"]
  /\ stderr (snd r) = [lit "warning: unterminated documentation block"]
  /\ isfile (fs (snd r)) (lit "/proj") (lit "/out/sub/b.rst") = true.
Proof. vm_compute. repeat split. Qed.

(** C1, as stated, fails: the first input is a device file, and the run ends
    with exit status 1 before the second input, which is documented without
    failure when it is given alone, leaves any trace. *)
Lemma special_input_ends_run :
  main (mkArgs [lit "/dev/null"; lit "a.cmake"] None false) demo_world
  = (Exit 1%Z, mkWorld demo_root (lit "/proj") [] [special_message])
  /\ exists w',
       main (mkArgs [lit "a.cmake"] None false) demo_world = (Ret tt, w')
       /\ stdout w' <> [].
Proof.
  split; [vm_compute; reflexivity|].
  eexists. split; [vm_compute; reflexivity|]. discriminate.
Qed.

Lemma run_stops_at_first_failure_witness :
  let w1 := snd (main (mkArgs [lit "a.cmake"] None false) demo_world) in
  main (mkArgs [lit "a.cmake"] None false) demo_world = (Ret tt, w1)
  /\ main (mkArgs ([lit "a.cmake"] ++ lit "/dev/null" :: [lit "a.cmake"]) None false)
       demo_world
     = (Exit 1%Z,
        mkWorld (fs w1) (cwd w1) (stdout w1) (stderr w1 ++ [special_message])).
Proof.
  intros w1.
  assert (H : main (mkArgs [lit "a.cmake"] None false) demo_world = (Ret tt, w1))
    by (vm_compute; reflexivity).
  split; [exact H|].
  apply (proj2 (run_stops_at_first_failure [lit "a.cmake"] [lit "a.cmake"]
                  (lit "/dev/null") None false demo_world w1 H));
    vm_compute; reflexivity.
Defined.

(** C4, as stated, fails: the first of two inputs is documented without
    failure, the second does not exist, and the run ends with status 1. *)
Lemma one_failure_fails_run :
  (exists w', document (lit "a.cmake") None false demo_world = (Ret tt, w'))
  /\ exit_status
       (fst (main (mkArgs [lit "a.cmake"; lit "missing"] None false) demo_world))
     = 1%Z.
Proof.
  split; [eexists; vm_compute; reflexivity|]. vm_compute. reflexivity.
Qed.

Lemma exit_status_of_run_witness :
  let run := main (mkArgs [lit "w.cmake"] None false) demo_world in
  exit_status (fst run) = 0%Z
  /\ stderr (snd run) = [warning_text (MalformedBlock 0)]
  /\ exit_status
       (fst (main (mkArgs ([lit "w.cmake"] ++ lit "missing" :: [lit "a.cmake"])
                     None false) demo_world)) = 1%Z.
Proof.
  intros run.
  pose (w1 := snd (document (lit "w.cmake") None false demo_world)).
  assert (S : all_succeed (output_path_of None demo_world) false [lit "w.cmake"]
                (announce None demo_world) w1).
  { apply succeed_cons with (w1 := w1); [vm_compute; reflexivity|constructor]. }
  destruct (exit_status_of_run [lit "w.cmake"] [lit "a.cmake"] (lit "missing")
              None false demo_world w1 S) as (H1 & _ & H3).
  split; [exact H1|]. split; [vm_compute; reflexivity|].
  apply H3; vm_compute; reflexivity.
Defined.

Lemma cmake_files_selected_witness :
  exists cs es files,
    os_path_abspath (cwd demo_world) (lit ".") = abs_path cs
    /\ resolve (fs demo_world) cs = Some (Dir es)
    /\ select_files (os_path_abspath (cwd demo_world) (lit ".")) true demo_world
       = (Ret files, demo_world)
    /\ document (lit ".") None true demo_world
       = for_each files (document_file (abs_path cs) None) demo_world
    /\ forall p,
         In p files
         <-> exists rel name x,
               resolve (Dir es) (rel ++ [name]) = Some x
               /\ is_dir_node x = false
               /\ has_cmake_extension name
               /\ p = abs_path (cs ++ rel ++ [name])
               /\ (true = false -> rel = []).
Proof.
  apply (cmake_files_selected (lit ".") None [lit "proj"] true demo_world).
  - reflexivity.
  - repeat constructor.
  - reflexivity.
  - reflexivity.
  - reflexivity.
Defined.

Lemma output_discarded_without_directory_witness :
  document_file (lit "/proj/a.cmake") (Some (lit "/out/nosuch/.."))
    (lit "/proj/a.cmake") demo_world
  = (Ret tt,
     mkWorld demo_root (lit "/proj") [lit "Writing for file /proj/a.cmake"] []).
Proof.
  apply (output_discarded_without_directory (D := core_documenter) (lit "/proj/a.cmake")
           (lit "/out/nosuch/..") (lit "/proj/a.cmake") demo_world demo_world
           (render (fst (build_model (lit "/proj/a.cmake") (lit "/proj/a.cmake")
                           demo_source))));
    vm_compute; reflexivity.
Defined.

Lemma output_file_location_witness :
  exists root2,
    mkdirs [lit "out"; lit "sub"] demo_root = Some root2
    /\ isdir root2 (lit "/proj") (os_path_dirname (lit "/out/sub/b.rst")) = true
    /\ (forall p x, resolve demo_root p = Some x -> is_dir_node x = false ->
                    resolve root2 p = Some x)
    /\ (isdir demo_root (lit "/proj") (os_path_dirname (lit "/out/sub/b.rst")) = true ->
        root2 = demo_root)
    /\ document_file (lit "/proj") (Some (lit "/out")) (lit "/proj/sub/b.CMake")
         demo_world
       = write_to_file
           (render (fst (build_model (lit "/proj/sub/b.CMake") (lit "sub/b.CMake") [])))
           (lit "/out/sub/b.rst")
           (mkWorld root2 (lit "/proj")
              [lit "Writing for file /proj/sub/b.CMake";
               lit "Writing RST file /out/sub/b.rst"] []).
Proof.
  apply (proj2 (proj2
    (output_file_location (D := core_documenter) true [lit "proj"] [lit "out"] [lit "sub"] (lit "b.CMake")
       demo_world demo_world
       (render (fst (build_model (lit "/proj/sub/b.CMake") (lit "sub/b.CMake") [])))
       ltac:(repeat constructor) ltac:(repeat constructor)
       ltac:(repeat constructor) eq_refl eq_refl eq_refl eq_refl eq_refl eq_refl))).
Defined.

Lemma persist_all_or_nothing_witness :
  persist_within (Some 2) (mkRendered (lit "text")) (lit "/out/a.rst") demo_world
  = (Raise (OSError (lit "/out/a.rst")), demo_world)
  /\ persist_within None (mkRendered (lit "text")) (lit "/nowhere/a.rst") demo_world
     = (Raise (OSError (lit "/nowhere/a.rst")), demo_world)
  /\ persist_within (Some 4) (mkRendered (lit "text")) (lit "/out/a.rst") demo_world
     = (Ret tt,
        mkWorld (Dir [(lit "proj", Dir demo_proj);
                      (lit "out", Dir [(lit "a.rst", File (lit "text"))]);
                      (lit "dev", Dir [(lit "null", Special)])])
          (lit "/proj") [] []).
Proof.
  split; [|split].
  - destruct (proj1 (persist_all_or_nothing (Some 2) (mkRendered (lit "text"))
                       (lit "/out/a.rst") demo_world)) as [H|(root' & H & _)].
    + exact H.
    + discriminate H.
  - apply (proj2 (persist_all_or_nothing None (mkRendered (lit "text"))
                    (lit "/nowhere/a.rst") demo_world) [lit "nowhere"] (lit "a.rst")
             eq_refl ltac:(repeat constructor) eq_refl).
    reflexivity.
  - apply (proj2 (persist_all_or_nothing (Some 4) (mkRendered (lit "text"))
                    (lit "/out/a.rst") demo_world) [lit "out"] (lit "a.rst")
             eq_refl ltac:(repeat constructor) eq_refl); reflexivity.
Defined.

(** While the text is being written, it is the temp file that holds a part
    of it; the destination is not touched. *)
Example temp_file_holds_part :
  write_chars (Some 2) [lit "out"] (lit "a.rst.tmp") (lit "text")
    (update_dir [lit "out"] (assoc_set (lit "a.rst.tmp") (File [])) demo_root)
  = (false,
     Dir [(lit "proj", Dir demo_proj);
          (lit "out", Dir [(lit "a.rst.tmp", File (lit "te"))]);
          (lit "dev", Dir [(lit "null", Special)])]).
Proof. reflexivity. Qed.

Lemma scanner_yields_blocks_witness :
  let src := blocks_text [(lit "# a" ++ [newline], greet_inner); ([newline], lit "x")]
               (newline :: lit "set(v 1)") in
  snd (scan src) = [] /\ length (fst (scan src)) = 2.
Proof.
  intros src.
  destruct (scanner_yields_blocks
              [(lit "# a" ++ [newline], greet_inner); ([newline], lit "x")]
              (newline :: lit "set(v 1)")) as (H1 & H2 & _).
  - repeat constructor.
  - reflexivity.
  - split; [exact H1|exact H2].
Defined.

Lemma unterminated_block_dropped_witness :
  let src := blocks_text [([], greet_inner)] ([newline] ++ START ++ lit " no end") in
  scan src = (blocks_at 0 [([], greet_inner)], [MalformedBlock 55])
  /\ length (entries (fst (build_model (lit "f") (lit "h") src))) <= 1.
Proof.
  intros src.
  destruct (@unterminated_block_dropped sphinx_templates
              [([], greet_inner)] [newline] (lit " no end") (lit "f") (lit "h"))
    as (_ & H2 & _ & H4 & _).
  - repeat constructor.
  - reflexivity.
  - reflexivity.
  - split; [exact H2|exact H4].
Defined.

(* ================================================================= *)
(** * Further properties of [main.py] *)

(** ** One input of [document] *)

Lemma then_ret (c : M unit) (w : World) : (c ;; ret tt) w = c w.
Proof. unfold bind, ret. now destruct (c w) as [[[]|s|e] w']. Qed.

Lemma isfile_not_isdir (root : node) (cwd p : str) :
  isfile root cwd p = true -> isdir root cwd p = false.
Proof.
  unfold isfile, isdir. now destruct (lookup root cwd p) as [[| |]|].
Qed.

Lemma document_eq {D : DocumenterAPI} (file : str) (output_path : option str)
  (recursive : bool) (w : World) :
  document file output_path recursive w
  = match select_files (os_path_abspath (cwd w) file) recursive w with
    | (Ret files, w') =>
        for_each files
          (document_file (os_path_abspath (cwd w) file) output_path) w'
    | (Exit s, w') => (Exit s, w')
    | (Raise e, w') => (Raise e, w')
    end.
Proof. reflexivity. Qed.

Lemma select_files_file (input_path : str) (recursive : bool) (w : World) :
  isfile (fs w) (cwd w) input_path = true ->
  select_files input_path recursive w = (Ret [input_path], w).
Proof.
  intros F. unfold select_files, bind, path_isdir, path_isfile, ret.
  now rewrite (isfile_not_isdir _ _ _ F), F.
Qed.

(** X1: an input that is a regular file is documented as it is: the test on
    the name is not applied to it, and [recursive] has no part in it. *)
Theorem file_input_documented_alone {D : DocumenterAPI} (file : str)
  (output_path : option str) (recursive : bool) (w : World) :
  isfile (fs w) (cwd w) (os_path_abspath (cwd w) file) = true ->
  document file output_path recursive w
  = document_file (os_path_abspath (cwd w) file) output_path
      (os_path_abspath (cwd w) file) w
  /\ document file output_path true w = document file output_path false w.
Proof.
  intros F.
  assert (E : forall r, document file output_path r w
                        = document_file (os_path_abspath (cwd w) file) output_path
                            (os_path_abspath (cwd w) file) w).
  { intros r. rewrite document_eq, (select_files_file _ r w F).
    cbn [for_each]. apply then_ret. }
  split; [apply E|]. now rewrite !E.
Qed.

Lemma document_file_eq {D : DocumenterAPI} (input_path : str)
  (output_path : option str) (file : str) (w : World) :
  document_file input_path output_path file w
  = match process file (header_of input_path file w) w with
    | (Ret output_writer, w1) =>
        match output_path with
        | Some output_path =>
            (print (lit "Writing for file " ++ file) ;;
             o <- path_isdir output_path ;;
             if o then
               d' <- path_isdir input_path ;;
               output_filename <-
                 (if d' then
                    subpath <- relpath file input_path ;;
                    ret (os_path_join output_path
                           (os_path_join (os_path_dirname subpath) (rst_name file)))
                  else ret (os_path_join output_path (rst_name file))) ;;
               print (lit "Writing RST file " ++ output_filename) ;;
               os_makedirs (os_path_dirname output_filename) ;;
               write_to_file output_writer output_filename
             else ret tt) w1
        | None => (print (to_str output_writer) ;; print []) w1
        end
    | (Exit s, w1) => (Exit s, w1)
    | (Raise e, w1) => (Raise e, w1)
    end.
Proof.
  unfold document_file, header_of.
  unfold bind at 1 2. unfold path_isdir at 1. unfold bind at 1.
  destruct (isdir (fs w) (cwd w) input_path); unfold relpath at 1, ret at 1;
    destruct (process _ _ w) as [[ow|s|e] w1]; destruct output_path; reflexivity.
Qed.

(** X2: without output path, a regular file given as input is handed to the
    Documenter under its absolute path, as file and as header name, and
    [document] prints the rendered text and an empty line; it changes nothing
    else. *)
Theorem file_input_printed {D : DocumenterAPI} (file : str) (recursive : bool)
  (w w1 : World) (ow : RenderedOutput) :
  let input_path := os_path_abspath (cwd w) file in
  isfile (fs w) (cwd w) input_path = true ->
  process input_path input_path w = (Ret ow, w1) ->
  document file None recursive w
  = (Ret tt,
     mkWorld (fs w1) (cwd w1) (stdout w1 ++ [to_str ow; []]) (stderr w1)).
Proof.
  intros input_path F P.
  rewrite document_eq. fold input_path. rewrite (select_files_file _ recursive w F).
  cbn [for_each]. rewrite then_ret, document_file_eq. unfold header_of.
  rewrite (isfile_not_isdir _ _ _ F), P.
  unfold bind, print. cbn [fs cwd stdout stderr]. now rewrite <- app_assoc.
Qed.

(** X3: the files of a directory are documented one after the other, and an
    exception of the Documenter on one of them ends [document] there: the
    files after it are not documented, and for the failing file nothing is
    printed and no directory is made. *)
Theorem directory_stops_at_failing_file {D : DocumenterAPI} (file : str)
  (output_path : option str) (recursive : bool) (pre post : list str) (f : str)
  (w w1 w2 : World) (e : exn) :
  let input_path := os_path_abspath (cwd w) file in
  select_files input_path recursive w = (Ret (pre ++ f :: post), w) ->
  for_each pre (document_file input_path output_path) w = (Ret tt, w1) ->
  process f (header_of input_path f w1) w1 = (Raise e, w2) ->
  document file output_path recursive w = (Raise e, w2).
Proof.
  intros input_path S Pre P.
  rewrite document_eq. fold input_path. rewrite S, for_each_app, Pre.
  apply for_each_fails; [|discriminate].
  now rewrite document_file_eq, P.
Qed.

(** ** Output directories *)

(** [document_file] up to the call of [os.makedirs], for a file below an
    input directory or an input file, and an output directory that exists. *)
Lemma document_file_to_makedirs {D : DocumenterAPI}
  (from_dir : bool) (ics ocs ds : list str) (name : str) (w w1 : World)
  (ow : RenderedOutput) :
  let file := abs_path (ics ++ ds ++ [name]) in
  let input_path := if from_dir then abs_path ics else file in
  let subdirs := if from_dir then ds else [] in
  let output_filename := abs_path (ocs ++ subdirs ++ [rst_name file]) in
  Forall clean ics -> Forall clean ocs -> Forall clean ds -> clean name ->
  isdir (fs w) (cwd w) input_path = from_dir ->
  process file (header_of input_path file w) w = (Ret ow, w1) ->
  isdir (fs w1) (cwd w1) input_path = from_dir ->
  isdir (fs w1) (cwd w1) (abs_path ocs) = true ->
  document_file input_path (Some (abs_path ocs)) file w
  = (os_makedirs (abs_path (ocs ++ subdirs)) ;;
     write_to_file ow output_filename)
      (mkWorld (fs w1) (cwd w1)
         (stdout w1 ++ [lit "Writing for file " ++ file;
                        lit "Writing RST file " ++ output_filename])
         (stderr w1)).
Proof.
  intros file input_path subdirs output_filename Fi Fo Fd Cn I1 P I2 O.
  pose proof (clean_no_sep name Cn) as Ns.
  assert (Ef : file = abs_path ((ics ++ ds) ++ [name])).
  { unfold file. now rewrite <- app_assoc. }
  assert (Cr : clean (rst_name file)).
  { rewrite Ef. now apply clean_rst_name. }
  assert (Fs : Forall clean (ocs ++ subdirs)).
  { apply Forall_app. split; [assumption|]. unfold subdirs.
    destruct from_dir; [assumption|constructor]. }
  assert (Dn : os_path_dirname output_filename = abs_path (ocs ++ subdirs)).
  { unfold output_filename. rewrite app_assoc.
    apply dirname_abs; [assumption|]. now apply clean_no_sep. }
  assert (Of : (if from_dir
                then os_path_join (abs_path ocs)
                       (os_path_join
                          (os_path_dirname
                             (os_path_relpath (cwd w1) file input_path))
                          (rst_name file))
                else os_path_join (abs_path ocs) (rst_name file))
               = output_filename).
  { unfold output_filename, subdirs, input_path. destruct from_dir.
    - unfold file at 1. rewrite relpath_under; [|assumption| |now destruct ds].
      2:{ apply Forall_app. split; [assumption|]. now constructor. }
      rewrite dirname_rel by assumption.
      assert (J : os_path_join (rel_path ds) (rst_name file)
                  = rel_path (ds ++ [rst_name file])).
      { destruct ds as [|d ds']; [now apply join_rel_nil|].
        apply join_rel; [discriminate|assumption|assumption]. }
      rewrite J. apply join_abs_rel; [assumption| |now destruct ds].
      apply Forall_app. split; [assumption|]. now constructor.
    - cbn [app]. now apply join_abs. }
  rewrite document_file_eq, P.
  unfold bind at 1 2 3 4 5. unfold print at 1, path_isdir at 1 2, relpath, ret.
  cbn [fs cwd stdout stderr]. rewrite O. cbv beta iota.
  cbn [fs cwd stdout stderr]. rewrite I2.
  destruct from_dir; cbv beta iota in Of |- *; cbn [fs cwd stdout stderr];
    rewrite Of; unfold bind at 1, print at 1; cbn [fs cwd stdout stderr];
    rewrite Dn, <- app_assoc; reflexivity.
Qed.

(** X4: when something that is not a directory bears a name on the way to
    the directory of the output file, [os.makedirs] fails at it: [document]
    has printed its two progress lines and raises the exception of the
    [os.mkdir] that failed, [FileExistsError] for that name when it is the
    last one of the way and [NotADirectoryError] for the name after it
    otherwise.  The file system is as the Documenter left it, and
    [write_to_file] is not called. *)
Theorem obstructed_output_raises {D : DocumenterAPI}
  (ics ocs pre post : list str) (c name : str) (x : node) (w w1 : World)
  (ow : RenderedOutput) :
  let ds := pre ++ c :: post in
  let file := abs_path (ics ++ ds ++ [name]) in
  let output_filename := abs_path (ocs ++ ds ++ [rst_name file]) in
  Forall clean ics -> Forall clean ocs -> Forall clean ds -> clean name ->
  isdir (fs w) (cwd w) (abs_path ics) = true ->
  process file (header_of (abs_path ics) file w) w = (Ret ow, w1) ->
  isdir (fs w1) (cwd w1) (abs_path ics) = true ->
  isdir (fs w1) (cwd w1) (abs_path ocs) = true ->
  resolve (fs w1) (ocs ++ pre ++ [c]) = Some x -> is_dir_node x = false ->
  document_file (abs_path ics) (Some (abs_path ocs)) file w
  = (Raise (match post with
            | [] => FileExistsError (abs_path (ocs ++ pre ++ [c]))
            | d :: _ => NotADirectoryError (abs_path (ocs ++ pre ++ [c; d]))
            end),
     mkWorld (fs w1) (cwd w1)
       (stdout w1 ++ [lit "Writing for file " ++ file;
                      lit "Writing RST file " ++ output_filename])
       (stderr w1)).
Proof.
  intros ds file output_filename Fi Fo Fd Cn I1 P I2 O R X.
  pose proof (document_file_to_makedirs true ics ocs ds name w w1 ow
                Fi Fo Fd Cn I1 P I2 O) as H.
  subst output_filename file. cbv zeta iota in H. rewrite H.
  assert (Fs : Forall clean ((ocs ++ pre) ++ c :: post)).
  { rewrite <- app_assoc. apply Forall_app. split; assumption. }
  unfold bind, os_makedirs, ds. rewrite (app_assoc ocs pre (c :: post)).
  rewrite (makedirs_obstructed (ocs ++ pre) c x post); try assumption.
  - destruct post; now rewrite <- !app_assoc.
  - cbn [fs]. now rewrite <- app_assoc.
  - lia.
Qed.

(** X5: [os.makedirs] with [exist_ok] can be repeated for the paths that
    [document] gives it, which are absolute and made of entry names: once it
    has made a directory, a second call for it succeeds and changes nothing.
    (For other paths the library gives no such guarantee, see
    [makedirs_dot_after_file].) *)
Theorem makedirs_again (cs : list str) (w w' : World) :
  Forall clean cs ->
  os_makedirs (abs_path cs) w = (Ret tt, w') ->
  os_makedirs (abs_path cs) w' = (Ret tt, w').
Proof.
  intros F H. destruct (mkdirs cs (fs w)) as [r|] eqn:M.
  - rewrite (os_makedirs_clean cs w r F M) in H. injection H as <-.
    destruct (mkdirs_resolve _ _ _ M) as [es R].
    now rewrite (os_makedirs_clean cs (set_fs r w) r F (mkdirs_existing _ _ _ R)).
  - destruct (os_makedirs_fails cs w F M) as [e E]. congruence.
Qed.

(** [os.makedirs] passes over the [FileExistsError] of its recursive call:
    for a path that ends with [.] after a regular file, reached through a
    directory that has to be made, it returns without error, and the same
    call fails when it is repeated. *)
Example makedirs_dot_after_file :
  let name := lit "/proj/new/../cmake/." in
  let r := os_makedirs name demo_world in
  fst r = Ret tt
  /\ isdir (fs (snd r)) (lit "/proj") (lit "/proj/new") = true
  /\ os_makedirs name (snd r) = (Raise (NotADirectoryError name), snd r).
Proof. vm_compute. repeat split. Qed.

(** ** The selection *)

(** X6: a directory without entry to select, an empty one among them, is
    passed over in silence: [document] returns and leaves the world as it
    was. *)
Theorem nothing_to_document {D : DocumenterAPI} (cs : list str)
  (es : list (str * node)) (output_path : option str) (recursive : bool)
  (w : World) :
  Forall clean cs ->
  resolve (fs w) cs = Some (Dir es) ->
  wf_node (Dir es) = true ->
  (forall rel name x,
      resolve (Dir es) (rel ++ [name]) = Some x -> is_dir_node x = false ->
      is_cmake name = false) ->
  document (abs_path cs) output_path recursive w = (Ret tt, w).
Proof.
  intros F R W N.
  destruct (select_files_dir cs es recursive w F R W) as (files & S & I).
  rewrite document_eq, abspath_abs, S by assumption.
  destruct files as [|p files]; [reflexivity|].
  destruct (proj1 (I p) (or_introl eq_refl)) as (rel & name & x & H1 & H2 & H3 & _).
  apply is_cmake_spec in H3. rewrite (N rel name x H1 H2) in H3. discriminate.
Qed.

(** X7: in a recursive run the files that stand in the directory itself come
    first, in the order of the run that is not recursive; the others stand
    deeper. *)
Theorem direct_files_first (cs : list str) (es : list (str * node)) (w : World) :
  Forall clean cs ->
  resolve (fs w) cs = Some (Dir es) ->
  wf_node (Dir es) = true ->
  exists direct deeper,
    select_files (abs_path cs) false w = (Ret direct, w)
    /\ select_files (abs_path cs) true w = (Ret (direct ++ deeper), w)
    /\ (forall p, In p direct -> exists name, p = abs_path (cs ++ [name]))
    /\ (forall p, In p deeper ->
          exists k rel name, p = abs_path (cs ++ k :: rel ++ [name])).
Proof.
  intros F R W.
  assert (S : forall r, select_files (abs_path cs) r w
                        = (Ret (collect r (walk (abs_path cs) (Dir es))), w)).
  { intros r. now apply select_files_walk. }
  exists (files_of (abs_path cs, dirnames es, nondirnames es)),
    (flat_map (fun e => collect true (walk (os_path_join (abs_path cs) (fst e)) (snd e))) es).
  rewrite !S, walk_Dir, !collect_cons, collect_flat_map, app_nil_r.
  repeat split.
  - intros p I. apply (in_direct cs es p W F) in I as (name & x & _ & _ & _ & ->).
    eauto.
  - intros p I. apply in_flat_map in I as ([k v] & I & H). cbn [fst snd] in H.
    pose proof (wf_node_inv _ W) as [_ Wes]. rewrite Forall_forall in Wes.
    destruct (Wes _ I) as [Ck Wv]. cbn [fst snd] in *.
    rewrite join_abs in H by assumption.
    apply in_collect_walk in H; [|assumption|].
    2:{ apply Forall_app. split; [assumption|]. now constructor. }
    destruct H as (rel & name & x & _ & _ & _ & ->).
    exists k, rel, name. now rewrite <- app_assoc.
Qed.

(** ** Names *)

Lemma ascii_lower_dot (c : ascii) :
  Ascii.eqb (ascii_lower c) "."%char = Ascii.eqb c "."%char.
Proof. destruct c as [[] [] [] [] [] [] [] []]; reflexivity. Qed.

Lemma ascii_lower_twice (c : ascii) : ascii_lower (ascii_lower c) = ascii_lower c.
Proof. destruct c as [[] [] [] [] [] [] [] []]; reflexivity. Qed.

Lemma str_lower_twice (s : str) : str_lower (str_lower s) = str_lower s.
Proof.
  unfold str_lower. rewrite map_map. apply map_ext. apply ascii_lower_twice.
Qed.

Lemma str_split_lower (s : str) :
  str_split "."%char (str_lower s) = map str_lower (str_split "."%char s).
Proof.
  induction s as [|c s IH]; [reflexivity|].
  cbn [str_lower map str_split]. rewrite ascii_lower_dot.
  fold (str_lower s). rewrite IH.
  destruct (Ascii.eqb c "."%char); [reflexivity|].
  now destruct (str_split "."%char s).
Qed.

Lemma last_of_map (A B : Type) (f : A -> B) (l : list A) (d : A) :
  last (map f l) (f d) = f (last l d).
Proof.
  induction l as [|x l IH]; [reflexivity|].
  cbn [map last]. destruct l; [reflexivity|exact IH].
Qed.

Lemma is_cmake_lower (name : str) : is_cmake (str_lower name) = is_cmake name.
Proof.
  unfold is_cmake, last_item. rewrite str_split_lower.
  change (@nil ascii) with (str_lower []) at 1.
  now rewrite last_of_map, str_lower_twice.
Qed.

(** X8: the test on a name does not see the case of its letters: two names
    that are the same once in lower case are selected together or not at all;
    and a name without dot passes the test exactly when it is [cmake] in some
    case. *)
Theorem cmake_test_ignores_case (n1 n2 : str) :
  str_lower n1 = str_lower n2 ->
  is_cmake n1 = is_cmake n2
  /\ (~ In "."%char n1 -> (is_cmake n1 = true <-> str_lower n1 = lit "cmake")).
Proof.
  intros E. split.
  - now rewrite <- (is_cmake_lower n1), <- (is_cmake_lower n2), E.
  - intros N. unfold is_cmake, last_item. rewrite (str_split_free _ _ N).
    cbn [last]. rewrite str_eqb_eq. split; congruence.
Qed.

Lemma cut_last_sep_tail (p : str) : ~ In sep (snd (cut_last_sep p)).
Proof.
  induction p as [|c p IH]; cbn [cut_last_sep snd]; [tauto|].
  destruct (cut_last_sep p) as [h t]. cbn [snd] in IH.
  destruct h as [|x h]; [|exact IH].
  destruct (Ascii.eqb c sep) eqn:E; cbn [snd]; [exact IH|].
  intros [->|I]; [|contradiction]. now rewrite Ascii.eqb_refl in E.
Qed.

Lemma stem_chars (s : str) (c : ascii) :
  In c (str_join (lit ".") (but_last (str_split "."%char s))) -> In c s.
Proof.
  unfold but_last.
  destruct (last_occurrence "."%char s) as [N | (a & b & -> & N)].
  - now rewrite (str_split_free _ _ N).
  - rewrite (removelast_split _ a b N).
    change (lit ".") with ["."%char]. rewrite str_join_split.
    intros I. apply in_or_app. now left.
Qed.

(** X9: whatever the path of the input file, the name under which its output
    is written is the name of an entry: it is not empty, holds no separator
    and is neither [.] nor [..]; so the output of an input file lies in the
    output directory itself. *)
Theorem output_name_is_entry_name (file : str) (ocs : list str) :
  Forall clean ocs ->
  clean (rst_name file)
  /\ os_path_join (abs_path ocs) (rst_name file) = abs_path (ocs ++ [rst_name file])
  /\ os_path_dirname (os_path_join (abs_path ocs) (rst_name file)) = abs_path ocs.
Proof.
  intros F.
  assert (C : clean (rst_name file)).
  { unfold rst_name. apply clean_rst. intros I. apply stem_chars in I.
    exact (cut_last_sep_tail file I). }
  split; [exact C|]. rewrite join_abs by assumption. split; [reflexivity|].
  apply dirname_abs; [assumption|]. now apply clean_no_sep.
Qed.

(** X10: the name of the output forgets the final dot-separated component
    and the directory of the input: two inputs whose names differ in that
    component only are written to one and the same output file. *)
Theorem output_names_collide (p1 p2 stem e1 e2 output_path : str) :
  os_path_basename p1 = stem ++ "."%char :: e1 ->
  os_path_basename p2 = stem ++ "."%char :: e2 ->
  ~ In "."%char e1 -> ~ In "."%char e2 ->
  rst_name p1 = stem ++ lit ".rst"
  /\ os_path_join output_path (rst_name p1) = os_path_join output_path (rst_name p2).
Proof.
  intros B1 B2 N1 N2.
  assert (R : forall p e, os_path_basename p = stem ++ "."%char :: e ->
                          ~ In "."%char e -> rst_name p = stem ++ lit ".rst").
  { intros p e B N. unfold rst_name, but_last. rewrite B.
    rewrite (removelast_split _ stem e N).
    change (lit ".") with ["."%char]. now rewrite str_join_split. }
  split; [exact (R p1 e1 B1 N1)|].
  now rewrite (R p1 e1 B1 N1), (R p2 e2 B2 N2).
Qed.

(** ** Paths *)

Lemma norm_comps_app (b : bool) (x y acc : list str) :
  norm_comps b acc (x ++ y) = norm_comps b (norm_comps b acc x) y.
Proof.
  revert acc. induction x as [|c x IH]; intros acc; [reflexivity|].
  cbn [app norm_comps].
  destruct (str_eqb c [] || str_eqb c dot); [apply IH|].
  destruct (_ || _ || _); apply IH.
Qed.

(** A trailing separator, or a trailing [.], is normalised away. *)
Lemma normpath_trailing (ccs : list str) (r : str) :
  Forall clean ccs -> ccs <> [] -> r = [] \/ r = dot ->
  os_path_normpath (abs_path ccs ++ sep :: r) = abs_path ccs.
Proof.
  intros F N R.
  assert (S2 : startswith [sep; sep] (abs_path ccs ++ sep :: r) = false).
  { apply abs_path_app_second; [assumption|]. intros ->. contradiction. }
  assert (Sp : str_split sep (abs_path ccs ++ sep :: r) = ([] :: ccs) ++ [r]).
  { rewrite str_split_app. f_equal.
    - unfold abs_path. cbn [str_split]. rewrite Ascii.eqb_refl.
      now rewrite split_join_clean.
    - destruct R as [->| ->]; reflexivity. }
  unfold os_path_normpath.
  destruct (abs_path ccs ++ sep :: r) as [|x p] eqn:E; [now destruct ccs|].
  assert (S1 : startswith [sep] (x :: p) = true).
  { rewrite <- E. unfold abs_path. cbn [app startswith].
    now rewrite Ascii.eqb_refl. }
  assert (K : norm_comps true [] (([] :: ccs) ++ [r]) = ccs).
  { rewrite norm_comps_app.
    change (norm_comps true [] ([] :: ccs)) with (norm_comps true [] ccs).
    rewrite (norm_comps_clean true ccs []) by assumption. cbn [app].
    destruct R as [->| ->]; reflexivity. }
  cbv zeta. rewrite S1, S2. cbn [andb Nat.eqb negb]. rewrite Sp, K.
  cbn [repeat app].
  unfold abs_path in E |- *. reflexivity.
Qed.

Lemma abspath_here (ccs : list str) (r : str) :
  Forall clean ccs -> r = [] \/ r = dot ->
  os_path_abspath (abs_path ccs) r = abs_path ccs.
Proof.
  intros F R. destruct ccs as [|c ccs].
  - destruct R as [->| ->]; reflexivity.
  - unfold os_path_abspath.
    assert (A : isabs r = false) by (destruct R as [->| ->]; reflexivity).
    rewrite A.
    assert (J : os_path_join (abs_path (c :: ccs)) r = abs_path (c :: ccs) ++ sep :: r).
    { destruct (join_ends_not_sep (c :: ccs)) as (b & x & E & X);
        [discriminate|assumption|].
      unfold os_path_join. change (startswith [sep] r) with (isabs r). rewrite A.
      assert (Q : abs_path (c :: ccs) = (sep :: b) ++ [x]).
      { unfold abs_path. now rewrite E. }
      rewrite Q. destruct ((sep :: b) ++ [x]) eqn:T; [discriminate|]. rewrite <- T.
      rewrite last_snoc.
      destruct (Ascii.eqb x sep) eqn:U; [|reflexivity].
      apply Ascii.eqb_eq in U. contradiction. }
    rewrite J. apply normpath_trailing; [assumption|discriminate|assumption].
Qed.

(** X11: the empty path, like the path [.], names the working directory:
    [document] on it documents the working directory. *)
Theorem empty_path_is_working_directory {D : DocumenterAPI} (ccs : list str)
  (output_path : option str) (recursive : bool) (w : World) :
  cwd w = abs_path ccs -> Forall clean ccs ->
  os_path_abspath (cwd w) [] = cwd w
  /\ document [] output_path recursive w
     = document (cwd w) output_path recursive w
  /\ document (lit ".") output_path recursive w
     = document (cwd w) output_path recursive w.
Proof.
  intros C F.
  assert (A : forall r, r = [] \/ r = dot ->
                        os_path_abspath (cwd w) r = os_path_abspath (cwd w) (cwd w)).
  { intros r R. rewrite C, abspath_abs by assumption. now apply abspath_here. }
  split; [|split].
  - rewrite (A [] (or_introl eq_refl)), C. now apply abspath_abs.
  - now rewrite !document_eq, (A [] (or_introl eq_refl)).
  - now rewrite !document_eq, (A (lit ".") (or_intror eq_refl)).
Qed.

(** X12: for a file below the input directory, the header name is the path
    of the file from that directory: it is relative, and joined to the
    directory it gives the file again. *)
Theorem header_name_locates_file (cwd : str) (cs rel : list str) :
  Forall clean cs -> Forall clean rel -> rel <> [] ->
  let header_name :=
    os_path_relpath cwd (abs_path (cs ++ rel)) (abs_path cs) in
  header_name = rel_path rel
  /\ isabs header_name = false
  /\ components header_name = rel
  /\ os_path_join (abs_path cs) header_name = abs_path (cs ++ rel).
Proof.
  intros F R N header_name. unfold header_name.
  rewrite relpath_under by assumption. repeat split.
  - now apply rel_path_startswith.
  - now apply components_rel.
  - now apply join_abs_rel.
Qed.

(** X13: [main] makes the output path absolute once, in the working
    directory in which it starts, announces it, and hands every input the
    same absolute, normalised output path. *)
Theorem output_path_made_absolute {D : DocumenterAPI} (files : list str)
  (o : str) (recursive : bool) (ccs : list str) (w : World) :
  cwd w = abs_path ccs -> Forall clean ccs ->
  startswith [sep; sep] o && negb (startswith [sep; sep; sep] o) = false ->
  exists ocs,
    Forall clean ocs
    /\ os_path_abspath (cwd w) o = abs_path ocs
    /\ main (mkArgs files (Some o) recursive) w
       = for_each files
           (fun input => document input (Some (abs_path ocs)) recursive)
           (mkWorld (fs w) (cwd w)
              (stdout w ++ [lit "Writing RST files to " ++ abs_path ocs])
              (stderr w)).
Proof.
  intros C F S. rewrite C.
  destruct (abspath_shape ccs o F S) as (ocs & Fo & E).
  exists ocs. split; [assumption|]. split; [assumption|].
  rewrite main_eq. unfold output_path_of, announce. cbn [option_map].
  now rewrite C, E.
Qed.

(** ** No file twice *)

Lemma nodupb_NoDup (l : list str) : nodupb l = true -> NoDup l.
Proof.
  induction l as [|x l IH]; cbn [nodupb]; intros H; [constructor|].
  apply andb_true_iff in H as [H1 H2]. constructor; [|auto].
  apply existsb_str_eqb. now apply negb_true_iff.
Qed.

Lemma abs_path_inj (a b : list str) :
  Forall clean a -> Forall clean b -> abs_path a = abs_path b -> a = b.
Proof.
  intros A B E. rewrite <- (components_abs a A), <- (components_abs b B).
  now rewrite E.
Qed.

(** The regular entries of a directory have distinct names. *)
Lemma nondirnames_NoDup (es : list (str * node)) :
  nodupb (map fst es) = true -> NoDup (nondirnames es).
Proof.
  intros H. apply nodupb_NoDup in H. unfold nondirnames.
  induction es as [|[k v] es IH]; [constructor|].
  cbn [map fst] in H. apply NoDup_cons_iff in H as [Nk N].
  cbn [filter snd]. destruct (negb (is_dir_node v)); [|now apply IH].
  cbn [map fst]. constructor; [|now apply IH].
  intros I. apply Nk. apply in_map_iff in I as (e & <- & I).
  apply filter_In in I. now apply in_map.
Qed.

(** The names on the way to a node of a tree are entry names. *)
Lemma resolve_clean (p : list str) (n x : node) :
  wf_node n = true -> resolve n p = Some x -> Forall clean p.
Proof.
  revert n. induction p as [|c p IH]; intros n W R; [constructor|].
  destruct n as [| |es]; try discriminate. cbn [resolve] in R.
  destruct (assoc c es) as [child|] eqn:A; [|discriminate].
  apply wf_node_inv in W as [_ W]. rewrite Forall_forall in W.
  apply assoc_in in A. destruct (W _ A) as [C Wc]. cbn [fst snd] in *.
  constructor; [assumption|]. exact (IH child Wc R).
Qed.

Lemma direct_NoDup (cs : list str) (es : list (str * node)) :
  wf_node (Dir es) = true -> Forall clean cs ->
  NoDup (files_of (abs_path cs, dirnames es, nondirnames es)).
Proof.
  intros W F. pose proof (wf_node_inv _ W) as [ND Wes].
  rewrite Forall_forall in Wes. cbn [files_of].
  assert (C : forall k, In k (nondirnames es) -> clean k).
  { intros k I. apply in_nondirnames in I as (v & I & _).
    exact (proj1 (Wes _ I)). }
  apply NoDup_map_NoDup_ForallPairs.
  - intros x y Ix Iy E. apply filter_In in Ix as [Ix _], Iy as [Iy _].
    rewrite !join_abs in E by auto.
    apply abs_path_inj in E.
    + now apply app_inv_head, (f_equal (fun l => hd [] l)) in E.
    + apply Forall_app. split; [assumption|]. constructor; auto.
    + apply Forall_app. split; [assumption|]. constructor; auto.
  - now apply NoDup_filter, nondirnames_NoDup.
Qed.

Lemma walk_NoDup (n : node) :
  forall cs, wf_node n = true -> Forall clean cs ->
             NoDup (collect true (walk (abs_path cs) n)).
Proof.
  induction n as [c| |es IH] using node_induction; intros cs W F;
    try constructor.
  rewrite walk_Dir, collect_cons, collect_flat_map.
  pose proof (wf_node_inv _ W) as [ND Wes].
  apply nodupb_NoDup in ND.
  assert (Shape : forall k v p,
             clean k -> wf_node v = true ->
             In p (collect true (walk (os_path_join (abs_path cs) k) v)) ->
             exists r, r <> [] /\ Forall clean r /\ p = abs_path (cs ++ k :: r)).
  { intros k v p Ck Wv I. rewrite join_abs in I by assumption.
    apply in_collect_walk in I; [|assumption|].
    2:{ apply Forall_app. split; [assumption|]. now constructor. }
    destruct I as (rel & name & x & R & _ & _ & ->).
    exists (rel ++ [name]). split; [now destruct rel|].
    split; [exact (resolve_clean _ _ _ Wv R)|]. now rewrite <- app_assoc. }
  apply NoDup_app.
  - now apply direct_NoDup.
  - clear W. induction es as [|[k v] es IHes]; [constructor|].
    cbn [flat_map fst snd].
    inversion IH as [|? ? IHv IH']; subst. inversion Wes as [|? ? [Ck Wv] Wes']; subst.
    cbn [fst snd map] in *. inversion ND as [|? ? Nk ND']; subst.
    apply NoDup_app.
    + rewrite join_abs by assumption. apply IHv; [assumption|].
      apply Forall_app. split; [assumption|]. now constructor.
    + now apply IHes.
    + intros p I1 I2.
      destruct (Shape k v p Ck Wv I1) as (r & _ & Fr & E).
      apply in_flat_map in I2 as ([k' v'] & I' & I2). cbn [fst snd] in I2.
      rewrite Forall_forall in Wes'. destruct (Wes' _ I') as [Ck' Wv'].
      cbn [fst snd] in *.
      assert (Sh : exists r', r' <> [] /\ Forall clean r'
                             /\ p = abs_path (cs ++ k' :: r')).
      { rewrite join_abs in I2 by assumption.
        apply in_collect_walk in I2; [|assumption|].
        2:{ apply Forall_app. split; [assumption|]. now constructor. }
        destruct I2 as (rel & name & x & R & _ & _ & ->).
        exists (rel ++ [name]). split; [now destruct rel|].
        split; [exact (resolve_clean _ _ _ Wv' R)|]. now rewrite <- app_assoc. }
      destruct Sh as (r' & _ & Fr' & E'). rewrite E in E'.
      apply abs_path_inj in E'.
      * apply app_inv_head in E'. injection E' as -> _.
        apply Nk. change k' with (fst (k', v')). now apply in_map.
      * apply Forall_app. split; [assumption|]. now constructor.
      * apply Forall_app. split; [assumption|]. now constructor.
  - intros p I1 I2.
    apply (in_direct cs es p W F) in I1 as (name & x & R & _ & _ & E).
    apply in_flat_map in I2 as ([k v] & I & I2). cbn [fst snd] in I2.
    rewrite Forall_forall in Wes. destruct (Wes _ I) as [Ck Wv]. cbn [fst snd] in *.
    destruct (Shape k v p Ck Wv I2) as (r & Nr & Fr & E'). rewrite E in E'.
    pose proof (resolve_clean _ _ _ W R) as Cn.
    apply abs_path_inj in E'.
    + apply app_inv_head in E'. injection E' as _ E'. now subst.
    + apply Forall_app. split; assumption.
    + apply Forall_app. split; [assumption|]. now constructor.
Qed.

(** X14: no file is selected twice. *)
Theorem selection_without_repetition (cs : list str) (es : list (str * node))
  (recursive : bool) (w : World) :
  Forall clean cs ->
  resolve (fs w) cs = Some (Dir es) ->
  wf_node (Dir es) = true ->
  exists files,
    select_files (abs_path cs) recursive w = (Ret files, w) /\ NoDup files.
Proof.
  intros F R W.
  exists (collect recursive (walk (abs_path cs) (Dir es))). split.
  - now apply select_files_walk.
  - destruct recursive; [now apply walk_NoDup|].
    rewrite walk_Dir, collect_cons, app_nil_r. now apply direct_NoDup.
Qed.

(** ** Instances *)

Lemma file_input_documented_alone_witness :
  document (lit "sub/c.txt") None true demo_world
  = document_file (lit "/proj/sub/c.txt") None (lit "/proj/sub/c.txt") demo_world
  /\ document (lit "sub/c.txt") None true demo_world
     = document (lit "sub/c.txt") None false demo_world.
Proof.
  exact (file_input_documented_alone (lit "sub/c.txt") None true demo_world
           eq_refl).
Defined.

Lemma file_input_printed_witness :
  document (lit "a.cmake") None false demo_world
  = (Ret tt,
     mkWorld demo_root (lit "/proj")
       [text (render (fst (build_model (lit "/proj/a.cmake") (lit "/proj/a.cmake")
                             demo_source)));
        []] []).
Proof.
  apply (file_input_printed (D := core_documenter) (lit "a.cmake") false
           demo_world demo_world
           (render (fst (build_model (lit "/proj/a.cmake") (lit "/proj/a.cmake")
                           demo_source))));
    vm_compute; reflexivity.
Defined.

Lemma directory_stops_at_failing_file_witness :
  let w1 := snd (document_file (lit "/d") None (lit "/d/a.cmake") fifo_world) in
  document (lit ".") None false fifo_world
  = (Raise (OSError (lit "/d/p.cmake")), w1).
Proof.
  intros w1.
  apply (directory_stops_at_failing_file (D := core_documenter) (lit ".") None
           false [lit "/d/a.cmake"] [lit "/d/z.cmake"] (lit "/d/p.cmake")
           fifo_world w1 w1 (OSError (lit "/d/p.cmake")));
    vm_compute; reflexivity.
Defined.

Lemma obstructed_output_raises_witness :
  document_file (lit "/proj") (Some (lit "/out"))
    (lit "/proj/sub/deep/er/x.cmake") blocked_world
  = (Raise (NotADirectoryError (lit "/out/sub/deep")),
     mkWorld (fs blocked_world) (lit "/proj")
       [lit "Writing for file /proj/sub/deep/er/x.cmake";
        lit "Writing RST file /out/sub/deep/er/x.rst"] []).
Proof.
  apply (obstructed_output_raises (D := core_documenter) [lit "proj"]
           [lit "out"] [] [lit "deep"; lit "er"] (lit "sub") (lit "x.cmake")
           (File []) blocked_world blocked_world
           (render (fst (build_model (lit "/proj/sub/deep/er/x.cmake")
                           (lit "sub/deep/er/x.cmake") [])))
           ltac:(repeat constructor) ltac:(repeat constructor)
           ltac:(repeat constructor) eq_refl eq_refl eq_refl eq_refl eq_refl
           eq_refl eq_refl).
Defined.

Lemma makedirs_again_witness :
  let w' := snd (os_makedirs (lit "/out/x/y") demo_world) in
  isdir (fs w') (cwd w') (lit "/out/x/y") = true
  /\ os_makedirs (lit "/out/x/y") w' = (Ret tt, w').
Proof.
  intros w'. split; [reflexivity|].
  apply (makedirs_again [lit "out"; lit "x"; lit "y"] demo_world w').
  - repeat constructor.
  - reflexivity.
Defined.

Lemma nothing_to_document_witness :
  document (lit "/dev") (Some (lit "/out")) true demo_world = (Ret tt, demo_world).
Proof.
  apply (nothing_to_document (D := core_documenter) [lit "dev"]
           [(lit "null", Special)] (Some (lit "/out")) true demo_world).
  - repeat constructor.
  - reflexivity.
  - reflexivity.
  - intros rel name x R _. destruct rel as [|k rel].
    + cbn [app resolve assoc] in R.
      destruct (str_eqb (lit "null") name) eqn:E; [|discriminate].
      apply str_eqb_eq in E. now subst.
    + cbn [app resolve assoc] in R.
      destruct (str_eqb (lit "null") k); [|discriminate].
      destruct (rel ++ [name]) eqn:Q; [now destruct rel|discriminate].
Defined.

Lemma direct_files_first_witness :
  exists direct deeper,
    select_files (abs_path [lit "proj"]) false demo_world = (Ret direct, demo_world)
    /\ select_files (abs_path [lit "proj"]) true demo_world
       = (Ret (direct ++ deeper), demo_world)
    /\ (forall p, In p direct -> exists name, p = abs_path ([lit "proj"] ++ [name]))
    /\ (forall p, In p deeper ->
          exists k rel name, p = abs_path ([lit "proj"] ++ k :: rel ++ [name])).
Proof.
  apply (direct_files_first [lit "proj"] demo_proj demo_world).
  - repeat constructor.
  - reflexivity.
  - reflexivity.
Defined.

Lemma cmake_test_ignores_case_witness :
  is_cmake (lit "Find.CMake") = is_cmake (lit "find.cMAKE")
  /\ is_cmake (lit "Find.CMake") = true.
Proof.
  split; [|reflexivity].
  exact (proj1 (cmake_test_ignores_case (lit "Find.CMake") (lit "find.cMAKE")
                  eq_refl)).
Defined.

Lemma output_name_is_entry_name_witness :
  rst_name (lit "../up/..") = lit "..rst"
  /\ os_path_join (abs_path [lit "out"]) (rst_name (lit "../up/.."))
     = lit "/out/..rst".
Proof.
  split; [reflexivity|].
  destruct (output_name_is_entry_name (lit "../up/..") [lit "out"]) as (_ & H & _).
  - repeat constructor.
  - rewrite H. reflexivity.
Defined.

Lemma output_names_collide_witness :
  os_path_join (lit "/out") (rst_name (lit "/a/x.cmake"))
  = os_path_join (lit "/out") (rst_name (lit "/b/x.CMAKE")).
Proof.
  apply (output_names_collide (lit "/a/x.cmake") (lit "/b/x.CMAKE") (lit "x")
           (lit "cmake") (lit "CMAKE") (lit "/out")).
  - reflexivity.
  - reflexivity.
  - cbn. intuition discriminate.
  - cbn. intuition discriminate.
Defined.

Lemma empty_path_is_working_directory_witness :
  os_path_abspath (cwd demo_world) [] = cwd demo_world
  /\ document [] None false demo_world
     = document (cwd demo_world) None false demo_world
  /\ document (lit ".") None false demo_world
     = document (cwd demo_world) None false demo_world.
Proof.
  apply (empty_path_is_working_directory (D := core_documenter) [lit "proj"]).
  - reflexivity.
  - repeat constructor.
Defined.

Lemma header_name_locates_file_witness :
  os_path_relpath (lit "/anywhere") (lit "/proj/sub/b.CMake") (lit "/proj")
  = lit "sub/b.CMake"
  /\ os_path_join (lit "/proj") (lit "sub/b.CMake") = lit "/proj/sub/b.CMake".
Proof.
  destruct (header_name_locates_file (lit "/anywhere") [lit "proj"]
              [lit "sub"; lit "b.CMake"]) as (H1 & _ & _ & H4).
  - repeat constructor.
  - repeat constructor.
  - discriminate.
  - split; [exact H1|]. rewrite H1 in H4. exact H4.
Defined.

Lemma output_path_made_absolute_witness :
  exists ocs,
    Forall clean ocs
    /\ os_path_abspath (cwd demo_world) (lit "../out") = abs_path ocs
    /\ main (mkArgs [lit "a.cmake"] (Some (lit "../out")) false) demo_world
       = for_each [lit "a.cmake"]
           (fun input => document input (Some (abs_path ocs)) false)
           (mkWorld (fs demo_world) (cwd demo_world)
              (stdout demo_world ++ [lit "Writing RST files to " ++ abs_path ocs])
              (stderr demo_world)).
Proof.
  apply (output_path_made_absolute (D := core_documenter) [lit "a.cmake"]
           (lit "../out") false [lit "proj"] demo_world).
  - reflexivity.
  - repeat constructor.
  - reflexivity.
Defined.

Lemma selection_without_repetition_witness :
  exists files,
    select_files (abs_path [lit "proj"]) true demo_world = (Ret files, demo_world)
    /\ NoDup files.
Proof.
  apply (selection_without_repetition [lit "proj"] demo_proj true demo_world).
  - repeat constructor.
  - reflexivity.
  - reflexivity.
Defined.
